(** * The client port of the typed message-multiplexing protocol

    A shallow embedding of [packages/lms-communication-client/src/ClientPort.ts]
    together with the registry of [BackendInterface] it reads, and proofs of
    the properties the specification states about it.

    The port is a single-threaded object: every method runs to completion on
    one executor.  A method is embedded as a state transformer over a [World]
    that holds the port's fields, the ordered log of everything the port did
    to its collaborators (transport, logger, promise resolvers, channel sinks,
    signal listeners) and the lazy signals the port has handed out. *)

From stdpp Require Import gmap strings list fin_maps sorting.

#[local] Set Warnings "-register-all".
#[local] Open Scope string_scope.
#[local] Open Scope nat_scope.
#[local] Open Scope list_scope.

(** ** Values that cross the wire *)

(** A JavaScript value as it is carried in a frame.  [VNotAvailable] is the
    sentinel a lazy signal holds before its first value arrives. *)
Inductive Value :=
| VNotAvailable
| VUndefined
| VNull
| VBool (b : bool)
| VNum (n : Z)
| VStr (s : string)
| VArr (items : list Value)
| VObj (fields : list (string * Value)).

(** [type WriteTag = number | string] *)
Inductive WriteTag :=
| TagNum (n : Z)
| TagStr (s : string).

Inductive PatchOp := OpReplace | OpAdd | OpRemove.

Inductive PathSegment :=
| Key (k : string)
| Index (i : nat).

(** immer's [Patch]: [{op, path, value?}] *)
Module Patch.
Record t := { op : PatchOp; path : list PathSegment; value : option Value }.
End Patch.

(** ** Schemas

    A [z.ZodType] is an opaque validator.  [safeParse] either fails with the
    issues found or succeeds with the parsed data, which the schema is free
    to normalise (an object schema drops the keys it does not declare). *)
Definition ZodIssues := string.

Inductive SafeParseReturn :=
| ParseSuccess (data : Value)
| ParseFailure (error : ZodIssues).

Definition ZodType := Value → SafeParseReturn.

(** ** Errors *)

Definition SerializedLMSExtendedError := Value.

Inductive Error :=
| JsError (message : string)        (* [new Error(message)] *)
| ZodError (error : ZodIssues)      (* thrown by [schema.parse] *)
| DeserializedError (serialized : SerializedLMSExtendedError) (stack : string)
| ForeignError (payload : Value).   (* any value a collaborator hands in *)

(** ** Endpoints and the registry (BackendInterface) *)

Module RpcEndpoint.
Record t := { name : string; parameter : ZodType; returns : ZodType }.
End RpcEndpoint.

Module ChannelEndpoint.
Record t := {
  name : string;
  creationParameter : ZodType;
  toServerPacket : ZodType;
  toClientPacket : ZodType }.
End ChannelEndpoint.

Module SignalEndpoint.
Record t := { name : string; creationParameter : ZodType; signalData : ZodType }.
End SignalEndpoint.

(** The handler field of an endpoint is only set on the serving side and is
    left out.  The registry keeps one map per endpoint kind and the set of
    names taken so far. *)
Module BackendInterface.
Record t := {
  existingEndpointNames : gset string;
  rpcEndpoints : gmap string RpcEndpoint.t;
  channelEndpoints : gmap string ChannelEndpoint.t;
  signalEndpoints : gmap string SignalEndpoint.t;
  writableSignalEndpoints : gmap string SignalEndpoint.t }.

Definition new : t :=
  {| existingEndpointNames := ∅; rpcEndpoints := ∅; channelEndpoints := ∅;
     signalEndpoints := ∅; writableSignalEndpoints := ∅ |}.

Definition assertEndpointNameNotExists (endpointName : string) (b : t) : option Error :=
  if decide (endpointName ∈ existingEndpointNames b)
  then Some (JsError ("Endpoint with name " +:+ endpointName +:+ " already exists"))
  else None.

Definition addRpcEndpoint (endpointName : string) (parameter returns : ZodType)
    (b : t) : Error + t :=
  match assertEndpointNameNotExists endpointName b with
  | Some e => inl e
  | None =>
      inr {| existingEndpointNames := {[endpointName]} ∪ existingEndpointNames b;
             rpcEndpoints :=
               <[endpointName := {| RpcEndpoint.name := endpointName;
                                    RpcEndpoint.parameter := parameter;
                                    RpcEndpoint.returns := returns |}]> (rpcEndpoints b);
             channelEndpoints := channelEndpoints b;
             signalEndpoints := signalEndpoints b;
             writableSignalEndpoints := writableSignalEndpoints b |}
  end.

Definition addChannelEndpoint (endpointName : string)
    (creationParameter toServerPacket toClientPacket : ZodType) (b : t) : Error + t :=
  match assertEndpointNameNotExists endpointName b with
  | Some e => inl e
  | None =>
      inr {| existingEndpointNames := {[endpointName]} ∪ existingEndpointNames b;
             rpcEndpoints := rpcEndpoints b;
             channelEndpoints :=
               <[endpointName :=
                   {| ChannelEndpoint.name := endpointName;
                      ChannelEndpoint.creationParameter := creationParameter;
                      ChannelEndpoint.toServerPacket := toServerPacket;
                      ChannelEndpoint.toClientPacket := toClientPacket |}]>
                 (channelEndpoints b);
             signalEndpoints := signalEndpoints b;
             writableSignalEndpoints := writableSignalEndpoints b |}
  end.

Definition addSignalEndpoint (endpointName : string)
    (creationParameter signalData : ZodType) (b : t) : Error + t :=
  match assertEndpointNameNotExists endpointName b with
  | Some e => inl e
  | None =>
      inr {| existingEndpointNames := {[endpointName]} ∪ existingEndpointNames b;
             rpcEndpoints := rpcEndpoints b;
             channelEndpoints := channelEndpoints b;
             signalEndpoints :=
               <[endpointName :=
                   {| SignalEndpoint.name := endpointName;
                      SignalEndpoint.creationParameter := creationParameter;
                      SignalEndpoint.signalData := signalData |}]>
                 (signalEndpoints b);
             writableSignalEndpoints := writableSignalEndpoints b |}
  end.

(** Modelled from the spec: the registry of writable-signal endpoints
    ([addWritableSignalEndpoint], [getWritableSignalEndpoint]) is missing
    from the registry source at hand; the spec gives it the shape of the
    signal registry ("signals have creationParameter, signalData", "each add
    fails if the name already exists", "lookup operations return an optional
    descriptor by name"). *)
Definition addWritableSignalEndpoint (endpointName : string)
    (creationParameter signalData : ZodType) (b : t) : Error + t :=
  match assertEndpointNameNotExists endpointName b with
  | Some e => inl e
  | None =>
      inr {| existingEndpointNames := {[endpointName]} ∪ existingEndpointNames b;
             rpcEndpoints := rpcEndpoints b;
             channelEndpoints := channelEndpoints b;
             signalEndpoints := signalEndpoints b;
             writableSignalEndpoints :=
               <[endpointName :=
                   {| SignalEndpoint.name := endpointName;
                      SignalEndpoint.creationParameter := creationParameter;
                      SignalEndpoint.signalData := signalData |}]>
                 (writableSignalEndpoints b) |}
  end.

Definition getRpcEndpoint (endpointName : string) (b : t) := rpcEndpoints b !! endpointName.
Definition getChannelEndpoint (endpointName : string) (b : t) :=
  channelEndpoints b !! endpointName.
Definition getSignalEndpoint (endpointName : string) (b : t) :=
  signalEndpoints b !! endpointName.

(** Modelled from the spec: [getWritableSignalEndpoint], missing like the
    registration above; "lookup operations return an optional descriptor by
    name". *)
Definition getWritableSignalEndpoint (endpointName : string) (b : t) :=
  writableSignalEndpoints b !! endpointName.
End BackendInterface.

(** ** Frames *)

(** The ten kinds of inbound frame that name an in-flight record. *)
Inductive RecordFrame :=
| FChannelSend | FChannelAck | FChannelClose | FChannelError
| FRpcResult | FRpcError
| FSignalUpdate | FSignalError
| FWritableSignalUpdate | FWritableSignalError.

(** The text of a locally produced warning: the template that is filled in,
    with the values interpolated into it. *)
Inductive Warning :=
| UnknownId (frame : RecordFrame) (id : nat)
| InvalidChannelMessage (endpointName : string) (message : Value) (error : ZodIssues)
| InvalidRpcResult (endpointName : string) (result : Value) (error : ZodIssues)
| InvalidSignalPatch (subscribeId : nat) (patches : list Patch.t)
    (beforeValue afterValue : Value) (error : ZodIssues)
| InvalidWritableSignalPatch (subscribeId : nat) (patches : list Patch.t)
    (beforeValue afterValue : Value) (error : ZodIssues).

Module ClientToServerMessage.
Inductive t :=
| rpcCall (endpoint : string) (callId : nat) (parameter : Value)
| channelCreate (endpoint : string) (channelId : nat) (creationParameter : Value)
| channelSend (channelId : nat) (message : Value)
| signalSubscribe (endpoint : string) (subscribeId : nat) (creationParameter : Value)
| signalUnsubscribe (subscribeId : nat)
| writableSignalSubscribe (endpoint : string) (subscribeId : nat) (creationParameter : Value)
| writableSignalUnsubscribe (subscribeId : nat)
| writableSignalUpdate (subscribeId : nat) (patches : list Patch.t) (tags : list WriteTag)
| communicationWarning (warning : Warning).
End ClientToServerMessage.

Module ServerToClientMessage.
Inductive t :=
| channelSend (channelId : nat) (message : Value)
| channelAck (channelId : nat) (ackId : nat)
| channelClose (channelId : nat)
| channelError (channelId : nat) (error : SerializedLMSExtendedError)
| rpcResult (callId : nat) (result : Value)
| rpcError (callId : nat) (error : SerializedLMSExtendedError)
| signalUpdate (subscribeId : nat) (patches : list Patch.t) (tags : list WriteTag)
| signalError (subscribeId : nat) (error : SerializedLMSExtendedError)
| writableSignalUpdate (subscribeId : nat) (patches : list Patch.t) (tags : list WriteTag)
| writableSignalError (subscribeId : nat) (error : SerializedLMSExtendedError)
| communicationWarning (warning : string)
| keepAliveAck.
End ServerToClientMessage.

(** ** What the port does to its collaborators

    Every call the port makes on an object it does not own is logged, in
    program order.  A promise, a channel and a signal are named by a number:
    the promise made by [makePromise()] in the call that allocated [callId] is
    promise [callId], the [Channel] built for [channelId] is channel
    [channelId], and a signal is named by its position in the store of
    signals. *)
Inductive Effect :=
| TransportSend (message : ClientToServerMessage.t)
| OnHavingNoOpenCommunication
| OnHavingOneOrMoreOpenCommunication
| LoggerWarnProduced (warning : Warning)
| LoggerWarnReceived (warning : string)
| LoggerErrorSuppressed
| Resolve (promise : nat) (result : Value)
| Reject (promise : nat) (error : Error)
| ChannelReceivedAck (channel : nat) (ackId : nat)
| ChannelReceivedMessage (channel : nat) (message : Value)
| ChannelErrored (channel : nat) (error : Error)
| ChannelClosed (channel : nat)
| ChannelOnMessageSubscribe (channel : nat) (listener : nat)
| SignalListener (signal : nat) (value : Value) (tags : list WriteTag)
| SignalErrorListener (signal : nat) (error : Error).

(** ** [Map<number, V>]

    A JavaScript [Map] iterates in insertion order, and [errored] iterates two
    of the tables, so a table is kept as the list of its entries in insertion
    order. *)
Module JsMap.
Definition t (V : Type) : Type := list (nat * V).

Fixpoint get {V} (key : nat) (m : t V) : option V :=
  match m with
  | [] => None
  | (k, v) :: rest => if Nat.eqb k key then Some v else get key rest
  end.

Fixpoint set {V} (key : nat) (value : V) (m : t V) : t V :=
  match m with
  | [] => [(key, value)]
  | (k, v) :: rest =>
      if Nat.eqb k key then (k, value) :: rest else (k, v) :: set key value rest
  end.

Fixpoint delete {V} (key : nat) (m : t V) : t V :=
  match m with
  | [] => []
  | (k, v) :: rest => if Nat.eqb k key then rest else (k, v) :: delete key rest
  end.

Definition size {V} (m : t V) : nat := length m.
Definition keys {V} (m : t V) : list nat := m.*1.
Definition values {V} (m : t V) : list V := m.*2.
End JsMap.

(** ** In-flight records *)

Module OpenChannel.
(** [channel] stands for the [Channel] object and the four sinks
    ([receivedAck], [receivedMessage], [errored], [closed]) that
    [Channel.create] returns with it. *)
Record t := { endpoint : ChannelEndpoint.t; stack : string; channel : nat }.
End OpenChannel.

Module OngoingRpc.
(** [promise] stands for the [resolve] and [reject] functions of one
    promise. *)
Record t := { endpoint : RpcEndpoint.t; stack : string; promise : nat }.
End OngoingRpc.

Module OpenSignalSubscription.
(** [signal] stands for the three closures over one signal: [getValue],
    [setValue] (its listener) and [errored] (its error listener).  The same
    shape serves for [OpenWritableSignalSubscription]. *)
Record t := { endpoint : SignalEndpoint.t; signal : nat; stack : option string }.
End OpenSignalSubscription.

(** ** Lazy signals

    The closures [createSignal] and [createWritableSignal] pass to the signal
    classes are kept as data: what they captured, and which of the two
    functions built them. *)
Inductive SubscribeUpstream :=
| SignalUpstream (endpointName : string) (signalEndpoint : SignalEndpoint.t)
    (creationParameter : Value) (stack : string)
| WritableSignalUpstream (endpointName : string) (signalEndpoint : SignalEndpoint.t)
    (creationParameter : Value) (stack : string).

Inductive Unsubscribe :=
| SignalUnsubscribe (subscribeId : nat)
| WritableSignalUnsubscribe (subscribeId : nat).

Module LazySignal.
(** Modelled from the spec: [LazySignal] and [OWLSignal] (section 4.4) are
    not among the sources at hand.  A signal "holds an optional current value
    (initially not-available)"; it is lazy: "it invokes the user-supplied
    subscribeUpstream(listener, errorListener) exactly when the first observer
    attaches, and invokes the returned teardown exactly when the last observer
    detaches"; "re-subscription on a signal that has torn down produces a
    fresh upstream session; the previous value is retained".  The cell also
    holds [currentSubscribeId], the variable the closures of
    [createWritableSignal] share. *)
Record t := {
  value : Value;
  observers : nat;
  teardown : option Unsubscribe;
  subscribeUpstream : SubscribeUpstream;
  currentSubscribeId : option nat }.

Definition withValue (v : Value) (s : t) : t :=
  {| value := v; observers := observers s; teardown := teardown s;
     subscribeUpstream := subscribeUpstream s;
     currentSubscribeId := currentSubscribeId s |}.
Definition withObservers (n : nat) (s : t) : t :=
  {| value := value s; observers := n; teardown := teardown s;
     subscribeUpstream := subscribeUpstream s;
     currentSubscribeId := currentSubscribeId s |}.
Definition withTeardown (u : option Unsubscribe) (s : t) : t :=
  {| value := value s; observers := observers s; teardown := u;
     subscribeUpstream := subscribeUpstream s;
     currentSubscribeId := currentSubscribeId s |}.
Definition withCurrentSubscribeId (i : option nat) (s : t) : t :=
  {| value := value s; observers := observers s; teardown := teardown s;
     subscribeUpstream := subscribeUpstream s;
     currentSubscribeId := i |}.

Definition createWithoutInitialValue (u : SubscribeUpstream) : t :=
  {| value := VNotAvailable; observers := 0; teardown := None;
     subscribeUpstream := u; currentSubscribeId := None |}.
End LazySignal.

(** ** The port and its world *)

(** Identifiers and counters are JavaScript numbers that only ever hold
    naturals, counted up from zero; they are kept as [nat]. *)
Record ClientPort := {
  backendInterface : BackendInterface.t;
  errorDeserializer : SerializedLMSExtendedError → option string → Error;
  verboseErrorMessage : bool;
  openChannels : JsMap.t OpenChannel.t;
  ongoingRpcs : JsMap.t OngoingRpc.t;
  openSignalSubscriptions : JsMap.t OpenSignalSubscription.t;
  openWritableSignalSubscriptions : JsMap.t OpenSignalSubscription.t;
  openCommunicationsCount : nat;
  nextChannelId : nat;
  nextSubscribeId : nat;
  nextWritableSubscribeId : nat;
  producedCommunicationWarningsCount : nat }.

Record World := {
  port : ClientPort;
  effects : list Effect;
  signals : list LazySignal.t }.

(** Functions the module imports from libraries outside the repository:
    immer's [applyPatches], which returns the patched document or throws (on
    a patch whose path does not resolve in the document), and the stack
    capture of lms-common. *)
Record Imports := {
  applyPatches : Value → list Patch.t → Error + Value;
  getCurrentStack : nat → string }.

Definition defaultErrorDeserializer (serialized : SerializedLMSExtendedError)
    (stack : option string) : Error :=
  match stack with
  | None => DeserializedError serialized ""
  | Some stack => DeserializedError serialized stack
  end.

(** The constructor: empty tables, counters at zero.  [None] for an option
    stands for the option being left out. *)
Definition newClientPort (backendInterface : BackendInterface.t)
    (errorDeserializer : option (SerializedLMSExtendedError → option string → Error))
    (verboseErrorMessage : option bool) : ClientPort :=
  {| backendInterface := backendInterface;
     errorDeserializer := default defaultErrorDeserializer errorDeserializer;
     verboseErrorMessage := default false verboseErrorMessage;
     openChannels := [];
     ongoingRpcs := [];
     openSignalSubscriptions := [];
     openWritableSignalSubscriptions := [];
     openCommunicationsCount := 0;
     nextChannelId := 0;
     nextSubscribeId := 0;
     nextWritableSubscribeId := 0;
     producedCommunicationWarningsCount := 0 |}.

Definition newWorld (backendInterface : BackendInterface.t)
    (errorDeserializer : option (SerializedLMSExtendedError → option string → Error))
    (verboseErrorMessage : option bool) : World :=
  {| port := newClientPort backendInterface errorDeserializer verboseErrorMessage;
     effects := [];
     signals := [] |}.

(** Field assignments *)
Definition setOpenChannels (m : JsMap.t OpenChannel.t) (p : ClientPort) : ClientPort :=
  {| backendInterface := backendInterface p;
     errorDeserializer := errorDeserializer p;
     verboseErrorMessage := verboseErrorMessage p;
     openChannels := m;
     ongoingRpcs := ongoingRpcs p;
     openSignalSubscriptions := openSignalSubscriptions p;
     openWritableSignalSubscriptions := openWritableSignalSubscriptions p;
     openCommunicationsCount := openCommunicationsCount p;
     nextChannelId := nextChannelId p;
     nextSubscribeId := nextSubscribeId p;
     nextWritableSubscribeId := nextWritableSubscribeId p;
     producedCommunicationWarningsCount := producedCommunicationWarningsCount p |}.

Definition setOngoingRpcs (m : JsMap.t OngoingRpc.t) (p : ClientPort) : ClientPort :=
  {| backendInterface := backendInterface p;
     errorDeserializer := errorDeserializer p;
     verboseErrorMessage := verboseErrorMessage p;
     openChannels := openChannels p;
     ongoingRpcs := m;
     openSignalSubscriptions := openSignalSubscriptions p;
     openWritableSignalSubscriptions := openWritableSignalSubscriptions p;
     openCommunicationsCount := openCommunicationsCount p;
     nextChannelId := nextChannelId p;
     nextSubscribeId := nextSubscribeId p;
     nextWritableSubscribeId := nextWritableSubscribeId p;
     producedCommunicationWarningsCount := producedCommunicationWarningsCount p |}.

Definition setOpenSignalSubscriptions (m : JsMap.t OpenSignalSubscription.t)
    (p : ClientPort) : ClientPort :=
  {| backendInterface := backendInterface p;
     errorDeserializer := errorDeserializer p;
     verboseErrorMessage := verboseErrorMessage p;
     openChannels := openChannels p;
     ongoingRpcs := ongoingRpcs p;
     openSignalSubscriptions := m;
     openWritableSignalSubscriptions := openWritableSignalSubscriptions p;
     openCommunicationsCount := openCommunicationsCount p;
     nextChannelId := nextChannelId p;
     nextSubscribeId := nextSubscribeId p;
     nextWritableSubscribeId := nextWritableSubscribeId p;
     producedCommunicationWarningsCount := producedCommunicationWarningsCount p |}.

Definition setOpenWritableSignalSubscriptions (m : JsMap.t OpenSignalSubscription.t)
    (p : ClientPort) : ClientPort :=
  {| backendInterface := backendInterface p;
     errorDeserializer := errorDeserializer p;
     verboseErrorMessage := verboseErrorMessage p;
     openChannels := openChannels p;
     ongoingRpcs := ongoingRpcs p;
     openSignalSubscriptions := openSignalSubscriptions p;
     openWritableSignalSubscriptions := m;
     openCommunicationsCount := openCommunicationsCount p;
     nextChannelId := nextChannelId p;
     nextSubscribeId := nextSubscribeId p;
     nextWritableSubscribeId := nextWritableSubscribeId p;
     producedCommunicationWarningsCount := producedCommunicationWarningsCount p |}.

Definition setOpenCommunicationsCount (n : nat) (p : ClientPort) : ClientPort :=
  {| backendInterface := backendInterface p;
     errorDeserializer := errorDeserializer p;
     verboseErrorMessage := verboseErrorMessage p;
     openChannels := openChannels p;
     ongoingRpcs := ongoingRpcs p;
     openSignalSubscriptions := openSignalSubscriptions p;
     openWritableSignalSubscriptions := openWritableSignalSubscriptions p;
     openCommunicationsCount := n;
     nextChannelId := nextChannelId p;
     nextSubscribeId := nextSubscribeId p;
     nextWritableSubscribeId := nextWritableSubscribeId p;
     producedCommunicationWarningsCount := producedCommunicationWarningsCount p |}.

Definition setNextChannelId (n : nat) (p : ClientPort) : ClientPort :=
  {| backendInterface := backendInterface p;
     errorDeserializer := errorDeserializer p;
     verboseErrorMessage := verboseErrorMessage p;
     openChannels := openChannels p;
     ongoingRpcs := ongoingRpcs p;
     openSignalSubscriptions := openSignalSubscriptions p;
     openWritableSignalSubscriptions := openWritableSignalSubscriptions p;
     openCommunicationsCount := openCommunicationsCount p;
     nextChannelId := n;
     nextSubscribeId := nextSubscribeId p;
     nextWritableSubscribeId := nextWritableSubscribeId p;
     producedCommunicationWarningsCount := producedCommunicationWarningsCount p |}.

Definition setNextSubscribeId (n : nat) (p : ClientPort) : ClientPort :=
  {| backendInterface := backendInterface p;
     errorDeserializer := errorDeserializer p;
     verboseErrorMessage := verboseErrorMessage p;
     openChannels := openChannels p;
     ongoingRpcs := ongoingRpcs p;
     openSignalSubscriptions := openSignalSubscriptions p;
     openWritableSignalSubscriptions := openWritableSignalSubscriptions p;
     openCommunicationsCount := openCommunicationsCount p;
     nextChannelId := nextChannelId p;
     nextSubscribeId := n;
     nextWritableSubscribeId := nextWritableSubscribeId p;
     producedCommunicationWarningsCount := producedCommunicationWarningsCount p |}.

Definition setNextWritableSubscribeId (n : nat) (p : ClientPort) : ClientPort :=
  {| backendInterface := backendInterface p;
     errorDeserializer := errorDeserializer p;
     verboseErrorMessage := verboseErrorMessage p;
     openChannels := openChannels p;
     ongoingRpcs := ongoingRpcs p;
     openSignalSubscriptions := openSignalSubscriptions p;
     openWritableSignalSubscriptions := openWritableSignalSubscriptions p;
     openCommunicationsCount := openCommunicationsCount p;
     nextChannelId := nextChannelId p;
     nextSubscribeId := nextSubscribeId p;
     nextWritableSubscribeId := n;
     producedCommunicationWarningsCount := producedCommunicationWarningsCount p |}.

Definition setProducedCommunicationWarningsCount (n : nat) (p : ClientPort) : ClientPort :=
  {| backendInterface := backendInterface p;
     errorDeserializer := errorDeserializer p;
     verboseErrorMessage := verboseErrorMessage p;
     openChannels := openChannels p;
     ongoingRpcs := ongoingRpcs p;
     openSignalSubscriptions := openSignalSubscriptions p;
     openWritableSignalSubscriptions := openWritableSignalSubscriptions p;
     openCommunicationsCount := openCommunicationsCount p;
     nextChannelId := nextChannelId p;
     nextSubscribeId := nextSubscribeId p;
     nextWritableSubscribeId := nextWritableSubscribeId p;
     producedCommunicationWarningsCount := n |}.

(** ** The monad of methods

    A method reads and writes the world and either completes normally or
    throws.  What was written before a throw stays written. *)
Inductive Completion (A : Type) :=
| Normal (result : A)
| Throw (error : Error).
Arguments Normal {A} result.
Arguments Throw {A} error.

Definition M (A : Type) : Type := World → Completion A * World.

Definition ret {A} (a : A) : M A := λ w, (Normal a, w).

Definition bind {A B} (m : M A) (k : A → M B) : M B :=
  λ w, match m w with
       | (Normal a, w') => k a w'
       | (Throw e, w') => (Throw e, w')
       end.

Definition throw {A} (e : Error) : M A := λ w, (Throw e, w).

Declare Scope method_scope.
Delimit Scope method_scope with method.
Notation "x <- c ;; k" := (bind c (λ x, k))
  (at level 100, c at next level, right associativity) : method_scope.
Notation "c ;; k" := (bind c (λ _, k))
  (at level 100, right associativity) : method_scope.
#[local] Open Scope method_scope.

Definition this : M ClientPort := λ w, (Normal (port w), w).

Definition assign (f : ClientPort → ClientPort) : M unit :=
  λ w, (Normal tt, {| port := f (port w); effects := effects w; signals := signals w |}).

Definition perform (e : Effect) : M unit :=
  λ w, (Normal tt, {| port := port w; effects := effects w ++ [e]; signals := signals w |}).

Definition readSignals : M (list LazySignal.t) := λ w, (Normal (signals w), w).

Definition writeSignals (f : list LazySignal.t → list LazySignal.t) : M unit :=
  λ w, (Normal tt, {| port := port w; effects := effects w; signals := f (signals w) |}).

Fixpoint forEach {A} (f : A → M unit) (l : list A) : M unit :=
  match l with
  | [] => ret tt
  | x :: rest => f x ;; forEach f rest
  end.

(** [schema.parse(value)]: the parsed data, or a thrown [ZodError]. *)
Definition parse (schema : ZodType) (v : Value) : M Value :=
  match schema v with
  | ParseSuccess data => ret data
  | ParseFailure error => throw (ZodError error)
  end.

(** A call of an imported function that returns or throws. *)
Definition orThrow {A} (r : Error + A) : M A :=
  match r with
  | inr a => ret a
  | inl e => throw e
  end.

Definition transportSend (message : ClientToServerMessage.t) : M unit :=
  perform (TransportSend message).

(** ** Signals as the port reaches them *)

(** Modelled from the spec: [signal.get()] of the missing signal classes,
    "returning T or the sentinel not-available": the value the signal holds
    now. *)
Definition signalGet (signal : nat) : M Value :=
  cells <- readSignals ;;
  ret (from_option LazySignal.value VNotAvailable (cells !! signal)).

(** Modelled from the spec: the listener the missing signal classes hand to
    [subscribeUpstream]; the value becomes the signal's current value and
    goes to its observers with the tags. *)
Definition signalListener (signal : nat) (value : Value) (tags : list WriteTag) : M unit :=
  writeSignals (alter (LazySignal.withValue value) signal) ;;
  perform (SignalListener signal value tags).

(** Modelled from the spec: the error listener the missing signal classes
    hand to [subscribeUpstream]; the spec says no more of it than that the
    error reaches the subscription's error sink, so the call is logged. *)
Definition signalErrorListener (signal : nat) (error : Error) : M unit :=
  perform (SignalErrorListener signal error).

(** ** The methods of [ClientPort] *)

Definition communicationWarning (warning : Warning) : M unit :=
  p <- this ;;
  if 5 <=? producedCommunicationWarningsCount p then ret tt
  else
    perform (LoggerWarnProduced warning) ;;
    transportSend (ClientToServerMessage.communicationWarning warning) ;;
    assign (λ p, setProducedCommunicationWarningsCount
                   (S (producedCommunicationWarningsCount p)) p) ;;
    p <- this ;;
    if 5 <=? producedCommunicationWarningsCount p
    then perform LoggerErrorSuppressed
    else ret tt.

Definition tableSizes (p : ClientPort) : nat :=
  JsMap.size (openChannels p) + JsMap.size (ongoingRpcs p)
  + JsMap.size (openSignalSubscriptions p)
  + JsMap.size (openWritableSignalSubscriptions p).

Definition updateOpenCommunicationsCount : M unit :=
  p <- this ;;
  let previousCount := openCommunicationsCount p in
  assign (λ p, setOpenCommunicationsCount (tableSizes p) p) ;;
  p <- this ;;
  if (openCommunicationsCount p =? 0) && (0 <? previousCount)
  then perform OnHavingNoOpenCommunication
  else if (openCommunicationsCount p =? 1) && (previousCount =? 0)
  then perform OnHavingOneOrMoreOpenCommunication
  else ret tt.

(** [this.errorDeserializer(error, this.verboseErrorMessage ? stack : undefined)] *)
Definition deserialize (p : ClientPort) (error : SerializedLMSExtendedError)
    (stack : option string) : Error :=
  errorDeserializer p error (if verboseErrorMessage p then stack else None).

Definition receivedChannelSend (channelId : nat) (message : Value) : M unit :=
  p <- this ;;
  match JsMap.get channelId (openChannels p) with
  | None => communicationWarning (UnknownId FChannelSend channelId)
  | Some openChannel =>
      match ChannelEndpoint.toClientPacket (OpenChannel.endpoint openChannel) message with
      | ParseFailure error =>
          communicationWarning
            (InvalidChannelMessage
               (ChannelEndpoint.name (OpenChannel.endpoint openChannel)) message error)
      | ParseSuccess data =>
          perform (ChannelReceivedMessage (OpenChannel.channel openChannel) data)
      end
  end.

Definition receivedChannelAck (channelId ackId : nat) : M unit :=
  p <- this ;;
  match JsMap.get channelId (openChannels p) with
  | None => communicationWarning (UnknownId FChannelAck channelId)
  | Some openChannel =>
      perform (ChannelReceivedAck (OpenChannel.channel openChannel) ackId)
  end.

Definition receivedChannelClose (channelId : nat) : M unit :=
  p <- this ;;
  match JsMap.get channelId (openChannels p) with
  | None => communicationWarning (UnknownId FChannelClose channelId)
  | Some openChannel =>
      assign (λ p, setOpenChannels (JsMap.delete channelId (openChannels p)) p) ;;
      perform (ChannelClosed (OpenChannel.channel openChannel)) ;;
      updateOpenCommunicationsCount
  end.

Definition receivedChannelError (channelId : nat) (error : SerializedLMSExtendedError)
    : M unit :=
  p <- this ;;
  match JsMap.get channelId (openChannels p) with
  | None => communicationWarning (UnknownId FChannelError channelId)
  | Some openChannel =>
      assign (λ p, setOpenChannels (JsMap.delete channelId (openChannels p)) p) ;;
      let error := deserialize p error (Some (OpenChannel.stack openChannel)) in
      perform (ChannelErrored (OpenChannel.channel openChannel) error) ;;
      updateOpenCommunicationsCount
  end.

Definition receivedRpcResult (callId : nat) (result : Value) : M unit :=
  p <- this ;;
  match JsMap.get callId (ongoingRpcs p) with
  | None => communicationWarning (UnknownId FRpcResult callId)
  | Some ongoingRpc =>
      match RpcEndpoint.returns (OngoingRpc.endpoint ongoingRpc) result with
      | ParseFailure error =>
          communicationWarning
            (InvalidRpcResult
               (RpcEndpoint.name (OngoingRpc.endpoint ongoingRpc)) result error)
      | ParseSuccess data =>
          perform (Resolve (OngoingRpc.promise ongoingRpc) data) ;;
          assign (λ p, setOngoingRpcs (JsMap.delete callId (ongoingRpcs p)) p) ;;
          updateOpenCommunicationsCount
      end
  end.

Definition receivedRpcError (callId : nat) (error : SerializedLMSExtendedError) : M unit :=
  p <- this ;;
  match JsMap.get callId (ongoingRpcs p) with
  | None => communicationWarning (UnknownId FRpcError callId)
  | Some ongoingRpc =>
      let error := deserialize p error (Some (OngoingRpc.stack ongoingRpc)) in
      perform (Reject (OngoingRpc.promise ongoingRpc) error) ;;
      assign (λ p, setOngoingRpcs (JsMap.delete callId (ongoingRpcs p)) p) ;;
      updateOpenCommunicationsCount
  end.

Definition receivedSignalError (subscribeId : nat) (error : SerializedLMSExtendedError)
    : M unit :=
  p <- this ;;
  match JsMap.get subscribeId (openSignalSubscriptions p) with
  | None => communicationWarning (UnknownId FSignalError subscribeId)
  | Some openSignalSubscription =>
      let error :=
        deserialize p error (OpenSignalSubscription.stack openSignalSubscription) in
      signalErrorListener (OpenSignalSubscription.signal openSignalSubscription) error ;;
      assign (λ p, setOpenSignalSubscriptions
                     (JsMap.delete subscribeId (openSignalSubscriptions p)) p) ;;
      updateOpenCommunicationsCount
  end.

Definition receivedWritableSignalError (subscribeId : nat)
    (error : SerializedLMSExtendedError) : M unit :=
  p <- this ;;
  match JsMap.get subscribeId (openWritableSignalSubscriptions p) with
  | None => communicationWarning (UnknownId FWritableSignalError subscribeId)
  | Some openSignalSubscription =>
      let error :=
        deserialize p error (OpenSignalSubscription.stack openSignalSubscription) in
      signalErrorListener (OpenSignalSubscription.signal openSignalSubscription) error ;;
      assign (λ p, setOpenWritableSignalSubscriptions
                     (JsMap.delete subscribeId (openWritableSignalSubscriptions p)) p) ;;
      updateOpenCommunicationsCount
  end.

Definition receivedCommunicationWarning (warning : string) : M unit :=
  perform (LoggerWarnReceived warning).

Definition receivedKeepAliveAck : M unit := ret tt.

Definition errored (error : Error) : M unit :=
  p <- this ;;
  forEach (λ openChannel, perform (ChannelErrored (OpenChannel.channel openChannel) error))
    (JsMap.values (openChannels p)) ;;
  p <- this ;;
  forEach (λ ongoingRpc, perform (Reject (OngoingRpc.promise ongoingRpc) error))
    (JsMap.values (ongoingRpcs p)).

(** The function handed to [Channel.create]: what [channel.send(packet)]
    runs, with the two variables it captured. *)
Definition channelSendPacket (channelEndpoint : ChannelEndpoint.t) (channelId : nat)
    (packet : Value) : M unit :=
  result <- parse (ChannelEndpoint.toServerPacket channelEndpoint) packet ;;
  transportSend (ClientToServerMessage.channelSend channelId result).

(** [writeUpstream] of [createWritableSignal]; [signal] names the cell that
    holds the shared [currentSubscribeId]. *)
Definition writeUpstream (signal : nat) (_data : Value) (patches : list Patch.t)
    (tags : list WriteTag) : M unit :=
  cells <- readSignals ;;
  match cells !! signal ≫= LazySignal.currentSubscribeId with
  | None => throw (JsError "writeUpstream called when not subscribed")
  | Some currentSubscribeId =>
      transportSend
        (ClientToServerMessage.writableSignalUpdate currentSubscribeId patches tags)
  end.

(** The two [subscribeUpstream] closures; each returns its teardown. *)
Definition runSubscribeUpstream (signal : nat) (u : SubscribeUpstream) : M Unsubscribe :=
  match u with
  | SignalUpstream endpointName signalEndpoint creationParameter stack =>
      p <- this ;;
      let subscribeId := nextSubscribeId p in
      assign (λ p, setNextSubscribeId (S (nextSubscribeId p)) p) ;;
      transportSend
        (ClientToServerMessage.signalSubscribe endpointName subscribeId creationParameter) ;;
      assign (λ p, setOpenSignalSubscriptions
                     (JsMap.set subscribeId
                        {| OpenSignalSubscription.endpoint := signalEndpoint;
                           OpenSignalSubscription.signal := signal;
                           OpenSignalSubscription.stack := Some stack |}
                        (openSignalSubscriptions p)) p) ;;
      updateOpenCommunicationsCount ;;
      ret (SignalUnsubscribe subscribeId)
  | WritableSignalUpstream endpointName signalEndpoint creationParameter stack =>
      p <- this ;;
      let subscribeId := nextWritableSubscribeId p in
      writeSignals (alter (LazySignal.withCurrentSubscribeId (Some subscribeId)) signal) ;;
      assign (λ p, setNextWritableSubscribeId (S (nextWritableSubscribeId p)) p) ;;
      transportSend
        (ClientToServerMessage.writableSignalSubscribe
           endpointName subscribeId creationParameter) ;;
      assign (λ p, setOpenWritableSignalSubscriptions
                     (JsMap.set subscribeId
                        {| OpenSignalSubscription.endpoint := signalEndpoint;
                           OpenSignalSubscription.signal := signal;
                           OpenSignalSubscription.stack := Some stack |}
                        (openWritableSignalSubscriptions p)) p) ;;
      updateOpenCommunicationsCount ;;
      ret (WritableSignalUnsubscribe subscribeId)
  end.

(** The two teardown closures. *)
Definition runUnsubscribe (signal : nat) (u : Unsubscribe) : M unit :=
  match u with
  | SignalUnsubscribe subscribeId =>
      transportSend (ClientToServerMessage.signalUnsubscribe subscribeId)
  | WritableSignalUnsubscribe subscribeId =>
      writeSignals (alter (LazySignal.withCurrentSubscribeId None) signal) ;;
      transportSend (ClientToServerMessage.writableSignalUnsubscribe subscribeId)
  end.

(** Modelled from the spec: an observer attaches to a lazy signal.  The
    upstream subscription is made "exactly when the first observer
    attaches". *)
Definition subscribe (signal : nat) : M unit :=
  cells <- readSignals ;;
  match cells !! signal with
  | None => ret tt
  | Some cell =>
      (if LazySignal.observers cell =? 0
       then
         u <- runSubscribeUpstream signal (LazySignal.subscribeUpstream cell) ;;
         writeSignals (alter (LazySignal.withTeardown (Some u)) signal)
       else ret tt) ;;
      writeSignals (alter (λ c, LazySignal.withObservers (S (LazySignal.observers c)) c)
                      signal)
  end.

(** Modelled from the spec: an attached observer detaches.  The teardown
    runs "exactly when the last observer detaches". *)
Definition unsubscribe (signal : nat) : M unit :=
  cells <- readSignals ;;
  match cells !! signal with
  | None => ret tt
  | Some cell =>
      match LazySignal.observers cell with
      | 0 => ret tt
      | S n =>
          writeSignals (alter (LazySignal.withObservers n) signal) ;;
          if n =? 0
          then
            match LazySignal.teardown cell with
            | Some u =>
                writeSignals (alter (LazySignal.withTeardown None) signal) ;;
                runUnsubscribe signal u
            | None => ret tt
            end
          else ret tt
      end
  end.

Section WithImports.
Variable imports : Imports.

Definition receivedSignalUpdate (subscribeId : nat) (patches : list Patch.t)
    (tags : list WriteTag) : M unit :=
  p <- this ;;
  match JsMap.get subscribeId (openSignalSubscriptions p) with
  | None => communicationWarning (UnknownId FSignalUpdate subscribeId)
  | Some openSignalSubscription =>
      let getValue := signalGet (OpenSignalSubscription.signal openSignalSubscription) in
      beforeValue <- getValue ;;
      current <- getValue ;;
      afterValue <- orThrow (applyPatches imports current patches) ;;
      match SignalEndpoint.signalData
              (OpenSignalSubscription.endpoint openSignalSubscription) afterValue with
      | ParseFailure error =>
          communicationWarning
            (InvalidSignalPatch subscribeId patches beforeValue afterValue error)
      | ParseSuccess data =>
          signalListener (OpenSignalSubscription.signal openSignalSubscription) data tags
      end
  end.

Definition receivedWritableSignalUpdate (subscribeId : nat) (patches : list Patch.t)
    (tags : list WriteTag) : M unit :=
  p <- this ;;
  match JsMap.get subscribeId (openWritableSignalSubscriptions p) with
  | None => communicationWarning (UnknownId FWritableSignalUpdate subscribeId)
  | Some openSignalSubscription =>
      let getValue := signalGet (OpenSignalSubscription.signal openSignalSubscription) in
      beforeValue <- getValue ;;
      current <- getValue ;;
      afterValue <- orThrow (applyPatches imports current patches) ;;
      match SignalEndpoint.signalData
              (OpenSignalSubscription.endpoint openSignalSubscription) afterValue with
      | ParseFailure error =>
          communicationWarning
            (InvalidWritableSignalPatch subscribeId patches beforeValue afterValue error)
      | ParseSuccess data =>
          signalListener (OpenSignalSubscription.signal openSignalSubscription) data tags
      end
  end.

Definition receivedMessage (message : ServerToClientMessage.t) : M unit :=
  match message with
  | ServerToClientMessage.channelSend channelId message =>
      receivedChannelSend channelId message
  | ServerToClientMessage.channelAck channelId ackId => receivedChannelAck channelId ackId
  | ServerToClientMessage.channelClose channelId => receivedChannelClose channelId
  | ServerToClientMessage.channelError channelId error =>
      receivedChannelError channelId error
  | ServerToClientMessage.rpcResult callId result => receivedRpcResult callId result
  | ServerToClientMessage.rpcError callId error => receivedRpcError callId error
  | ServerToClientMessage.signalUpdate subscribeId patches tags =>
      receivedSignalUpdate subscribeId patches tags
  | ServerToClientMessage.signalError subscribeId error =>
      receivedSignalError subscribeId error
  | ServerToClientMessage.writableSignalUpdate subscribeId patches tags =>
      receivedWritableSignalUpdate subscribeId patches tags
  | ServerToClientMessage.writableSignalError subscribeId error =>
      receivedWritableSignalError subscribeId error
  | ServerToClientMessage.communicationWarning warning =>
      receivedCommunicationWarning warning
  | ServerToClientMessage.keepAliveAck => receivedKeepAliveAck
  end.

(** [callRpc] is an [async] function: its body runs at once up to the
    [await], and an exception thrown on the way is the rejection of the
    promise it returns.  [Throw] stands for that outcome; [Normal callId]
    for reaching the [await] on promise [callId]. *)
Definition callRpc (endpointName : string) (param : Value) (stack : option string)
    : M nat :=
  p <- this ;;
  match BackendInterface.getRpcEndpoint endpointName (backendInterface p) with
  | None => throw (JsError ("No Rpc endpoint with name " +:+ endpointName))
  | Some endpoint =>
      parameter <- parse (RpcEndpoint.parameter endpoint) param ;;
      p <- this ;;
      let callId := nextChannelId p in
      assign (λ p, setNextChannelId (S (nextChannelId p)) p) ;;
      let stack := default (getCurrentStack imports 1) stack in
      assign (λ p, setOngoingRpcs
                     (JsMap.set callId
                        {| OngoingRpc.endpoint := endpoint;
                           OngoingRpc.stack := stack;
                           OngoingRpc.promise := callId |}
                        (ongoingRpcs p)) p) ;;
      transportSend (ClientToServerMessage.rpcCall endpointName callId parameter) ;;
      updateOpenCommunicationsCount ;;
      ret callId
  end.

(** Returns the channel, named by its [channelId]. *)
Definition createChannel (endpointName : string) (param : Value)
    (onMessage : option nat) (stack : option string) : M nat :=
  p <- this ;;
  match BackendInterface.getChannelEndpoint endpointName (backendInterface p) with
  | None => throw (JsError ("No channel endpoint with name " +:+ endpointName))
  | Some channelEndpoint =>
      creationParameter <-
        parse (ChannelEndpoint.creationParameter channelEndpoint) param ;;
      p <- this ;;
      let channelId := nextChannelId p in
      assign (λ p, setNextChannelId (S (nextChannelId p)) p) ;;
      transportSend
        (ClientToServerMessage.channelCreate endpointName channelId creationParameter) ;;
      let stack := default (getCurrentStack imports 1) stack in
      let openChannel :=
        {| OpenChannel.endpoint := channelEndpoint;
           OpenChannel.stack := stack;
           OpenChannel.channel := channelId |} in
      match onMessage with
      | Some listener => perform (ChannelOnMessageSubscribe channelId listener)
      | None => ret tt
      end ;;
      assign (λ p, setOpenChannels (JsMap.set channelId openChannel (openChannels p)) p) ;;
      updateOpenCommunicationsCount ;;
      ret channelId
  end.

(** Returns the new signal, named by its place in the store. *)
Definition createSignal (endpointName : string) (param : Value) (stack : option string)
    : M nat :=
  p <- this ;;
  match BackendInterface.getSignalEndpoint endpointName (backendInterface p) with
  | None => throw (JsError ("No signal endpoint with name " +:+ endpointName))
  | Some signalEndpoint =>
      creationParameter <-
        parse (SignalEndpoint.creationParameter signalEndpoint) param ;;
      let stack := default (getCurrentStack imports 1) stack in
      cells <- readSignals ;;
      writeSignals
        (λ cells, cells ++
           [LazySignal.createWithoutInitialValue
              (SignalUpstream endpointName signalEndpoint creationParameter stack)]) ;;
      ret (length cells)
  end.

Definition createWritableSignal (endpointName : string) (param : Value)
    (stack : option string) : M nat :=
  p <- this ;;
  match BackendInterface.getWritableSignalEndpoint endpointName (backendInterface p) with
  | None => throw (JsError ("No writable signal endpoint with name " +:+ endpointName))
  | Some signalEndpoint =>
      creationParameter <-
        parse (SignalEndpoint.creationParameter signalEndpoint) param ;;
      let stack := default (getCurrentStack imports 1) stack in
      cells <- readSignals ;;
      writeSignals
        (λ cells, cells ++
           [LazySignal.createWithoutInitialValue
              (WritableSignalUpstream endpointName signalEndpoint creationParameter
                 stack)]) ;;
      ret (length cells)
  end.

(** ** The life of a port

    Whatever can happen to a port: the transport delivers a frame or
    reports an error; user code calls a method of the port, sends on a
    channel, attaches to or detaches from a signal, or a writable signal
    writes upstream. *)
Inductive Operation :=
| Received (message : ServerToClientMessage.t)
| Errored (error : Error)
| CallRpc (endpointName : string) (param : Value) (stack : option string)
| CreateChannel (endpointName : string) (param : Value) (onMessage : option nat)
    (stack : option string)
| ChannelSend (channelEndpoint : ChannelEndpoint.t) (channelId : nat) (packet : Value)
| CreateSignal (endpointName : string) (param : Value) (stack : option string)
| CreateWritableSignal (endpointName : string) (param : Value) (stack : option string)
| Subscribe (signal : nat)
| Detach (signal : nat)
| WriteUpstream (signal : nat) (data : Value) (patches : list Patch.t)
    (tags : list WriteTag).

Definition discard {A} (m : M A) : M unit := _ <- m ;; ret tt.

Definition perform_operation (o : Operation) : M unit :=
  match o with
  | Received message => receivedMessage message
  | Errored error => errored error
  | CallRpc endpointName param stack => discard (callRpc endpointName param stack)
  | CreateChannel endpointName param onMessage stack =>
      discard (createChannel endpointName param onMessage stack)
  | ChannelSend channelEndpoint channelId packet =>
      channelSendPacket channelEndpoint channelId packet
  | CreateSignal endpointName param stack =>
      discard (createSignal endpointName param stack)
  | CreateWritableSignal endpointName param stack =>
      discard (createWritableSignal endpointName param stack)
  | Subscribe signal => subscribe signal
  | Detach signal => unsubscribe signal
  | WriteUpstream signal data patches tags => writeUpstream signal data patches tags
  end.

Definition step (w : World) (o : Operation) : World := (perform_operation o w).2.

Definition run (os : list Operation) (w : World) : World := foldl step w os.

(** The worlds a port can be in: some run from a fresh port. *)
Definition reachable (w : World) : Prop :=
  ∃ backendInterface errorDeserializer verboseErrorMessage os,
    w = run os (newWorld backendInterface errorDeserializer verboseErrorMessage).
End WithImports.

(** ** A concrete port for the scenarios of the specification *)

Module Scenario.
(** [z.number().int()] *)
Definition zInt : ZodType :=
  λ v, match v with
       | VNum n => ParseSuccess (VNum n)
       | _ => ParseFailure "Expected number"
       end.

(** [z.string()] *)
Definition zString : ZodType :=
  λ v, match v with
       | VStr s => ParseSuccess (VStr s)
       | _ => ParseFailure "Expected string"
       end.

Fixpoint field (k : string) (fields : list (string * Value)) : option Value :=
  match fields with
  | [] => None
  | (k', v) :: rest => if String.eqb k' k then Some v else field k rest
  end.

(** [z.object({a: z.number().int(), b: z.number().int()})]: an object
    schema keeps the declared keys and drops the others. *)
Definition zAddParameter : ZodType :=
  λ v, match v with
       | VObj fields =>
           match field "a" fields, field "b" fields with
           | Some (VNum a), Some (VNum b) =>
               ParseSuccess (VObj [("a", VNum a); ("b", VNum b)])
           | _, _ => ParseFailure "Expected number"
           end
       | _ => ParseFailure "Expected object"
       end.

(** [z.object({n: z.number().int()})] *)
Definition zCounter : ZodType :=
  λ v, match v with
       | VObj fields =>
           match field "n" fields with
           | Some (VNum n) => ParseSuccess (VObj [("n", VNum n)])
           | _ => ParseFailure "Expected number"
           end
       | _ => ParseFailure "Expected object"
       end.

Fixpoint setField (k : string) (v : Value) (fields : list (string * Value))
    : list (string * Value) :=
  match fields with
  | [] => [(k, v)]
  | (k', v') :: rest =>
      if String.eqb k' k then (k', v) :: rest else (k', v') :: setField k v rest
  end.

(** A patch engine for the scenarios: replacement of the root and of a
    top-level key of an object; it throws on any other patch, as immer does
    on a path that does not resolve. *)
Definition applyPatch (doc : Value) (patch : Patch.t) : Error + Value :=
  match Patch.op patch, Patch.path patch, Patch.value patch with
  | OpReplace, [], Some v => inr v
  | OpReplace, [Key k], Some v =>
      match doc with
      | VObj fields => inr (VObj (setField k v fields))
      | _ => inl (JsError "[Immer] Cannot apply patch, path doesn't resolve")
      end
  | _, _, _ => inl (JsError "[Immer] Cannot apply patch, path doesn't resolve")
  end.

(** The patches one after the other; the first that throws ends the call. *)
Fixpoint applyEach (doc : Value) (patches : list Patch.t) : Error + Value :=
  match patches with
  | [] => inr doc
  | patch :: rest =>
      match applyPatch doc patch with
      | inr doc => applyEach doc rest
      | inl e => inl e
      end
  end.

Definition imports : Imports :=
  {| applyPatches := applyEach;
     getCurrentStack := λ _, "at scenario" |}.

Definition andThen (r : Error + BackendInterface.t)
    (f : BackendInterface.t → Error + BackendInterface.t) : Error + BackendInterface.t :=
  match r with
  | inl e => inl e
  | inr b => f b
  end.

(** Endpoints [add] (S1), [counter] (S4), a channel and a writable signal. *)
Definition backendInterface : BackendInterface.t :=
  match
    andThen (andThen (andThen
      (BackendInterface.addRpcEndpoint "add" zAddParameter zInt BackendInterface.new)
      (BackendInterface.addChannelEndpoint "chat" zString zString zString))
      (BackendInterface.addSignalEndpoint "counter" zString zCounter))
      (BackendInterface.addWritableSignalEndpoint "setting" zString zInt)
  with
  | inr b => b
  | inl _ => BackendInterface.new
  end.

Definition fresh : World := newWorld backendInterface None None.

Definition addParameter (a b : Z) : Value := VObj [("a", VNum a); ("b", VNum b)].

Definition replaceRoot (v : Value) : Patch.t :=
  {| Patch.op := OpReplace; Patch.path := []; Patch.value := Some v |}.

(** S6: two RPCs in flight (callId 0 and 1) and one open channel
    (channelId 2). *)
Definition twoRpcsOneChannel : World :=
  run imports
    [CallRpc "add" (addParameter 2 3) None;
     CallRpc "add" (addParameter 4 5) None;
     CreateChannel "chat" (VStr "hello") None None]
    fresh.

(** S1: one RPC in flight (callId 0). *)
Definition oneRpc : World :=
  run imports [CallRpc "add" (addParameter 2 3) None] fresh.

(** S5: six [signalUpdate] frames for a [subscribeId] nobody has. *)
Definition sixUnknownUpdates : World :=
  run imports (replicate 6 (Received (ServerToClientMessage.signalUpdate 42 [] []))) fresh.

(** One signal on [counter] with one observer attached. *)
Definition counterSubscribed : World :=
  run imports [CreateSignal "counter" (VStr "c") None; Subscribe 0] fresh.

(** One writable signal on [setting], without and with an observer. *)
Definition settingCreated : World :=
  run imports [CreateWritableSignal "setting" (VStr "s") None] fresh.

Definition settingSubscribed : World :=
  run imports [CreateWritableSignal "setting" (VStr "s") None; Subscribe 0] fresh.

(** The records and cells these worlds hold. *)
Definition addEndpoint : RpcEndpoint.t :=
  {| RpcEndpoint.name := "add";
     RpcEndpoint.parameter := zAddParameter;
     RpcEndpoint.returns := zInt |}.

Definition addRpc (callId : nat) : OngoingRpc.t :=
  {| OngoingRpc.endpoint := addEndpoint;
     OngoingRpc.stack := "at scenario";
     OngoingRpc.promise := callId |}.

Definition counterSubscription : OpenSignalSubscription.t :=
  {| OpenSignalSubscription.endpoint :=
       {| SignalEndpoint.name := "counter";
          SignalEndpoint.creationParameter := zString;
          SignalEndpoint.signalData := zCounter |};
     OpenSignalSubscription.signal := 0;
     OpenSignalSubscription.stack := Some "at scenario" |}.

Definition settingUpstream : SubscribeUpstream :=
  WritableSignalUpstream "setting"
    {| SignalEndpoint.name := "setting";
       SignalEndpoint.creationParameter := zString;
       SignalEndpoint.signalData := zInt |}
    (VStr "s") "at scenario".

Definition settingCellIdle : LazySignal.t :=
  LazySignal.createWithoutInitialValue settingUpstream.

Definition settingCellActive : LazySignal.t :=
  {| LazySignal.value := VNotAvailable;
     LazySignal.observers := 1;
     LazySignal.teardown := Some (WritableSignalUnsubscribe 0);
     LazySignal.subscribeUpstream := settingUpstream;
     LazySignal.currentSubscribeId := Some 0 |}.
End Scenario.

(** ** Reading the log *)

(** The three things a locally produced warning leaves in the log. *)
Inductive WarningEvent :=
| Logged (warning : Warning)
| Sent (warning : Warning)
| Suppressed.

Definition warningEvent (e : Effect) : option WarningEvent :=
  match e with
  | LoggerWarnProduced w => Some (Logged w)
  | TransportSend (ClientToServerMessage.communicationWarning w) => Some (Sent w)
  | LoggerErrorSuppressed => Some Suppressed
  | _ => None
  end.

(** What [n] warnings leave behind: a log line and a frame each, and the
    suppression line once the fifth is out. *)
Definition warningTrail (ws : list Warning) : list WarningEvent :=
  (ws ≫= λ w, [Logged w; Sent w]) ++ (if 5 <=? length ws then [Suppressed] else []).

Definition sentWarning (e : Effect) : option Warning :=
  match e with
  | TransportSend (ClientToServerMessage.communicationWarning w) => Some w
  | _ => None
  end.

Definition loggedWarning (e : Effect) : option Warning :=
  match e with
  | LoggerWarnProduced w => Some w
  | _ => None
  end.

Definition suppression (e : Effect) : option unit :=
  match e with
  | LoggerErrorSuppressed => Some tt
  | _ => None
  end.

(** The identifier a frame announces as newly allocated, per counter. *)
Definition allocatedChannelId (e : Effect) : option nat :=
  match e with
  | TransportSend (ClientToServerMessage.rpcCall _ callId _) => Some callId
  | TransportSend (ClientToServerMessage.channelCreate _ channelId _) => Some channelId
  | _ => None
  end.

Definition allocatedCallId (e : Effect) : option nat :=
  match e with
  | TransportSend (ClientToServerMessage.rpcCall _ callId _) => Some callId
  | _ => None
  end.

Definition allocatedSubscribeId (e : Effect) : option nat :=
  match e with
  | TransportSend (ClientToServerMessage.signalSubscribe _ subscribeId _) => Some subscribeId
  | _ => None
  end.

Definition allocatedWritableSubscribeId (e : Effect) : option nat :=
  match e with
  | TransportSend (ClientToServerMessage.writableSignalSubscribe _ subscribeId _) =>
      Some subscribeId
  | _ => None
  end.

(** A promise settles at the first call of its [resolve] or [reject]. *)
Inductive Settlement :=
| Fulfilled (result : Value)
| Rejected (error : Error).

Definition settles (promise : nat) (e : Effect) : option Settlement :=
  match e with
  | Resolve q result => if q =? promise then Some (Fulfilled result) else None
  | Reject q error => if q =? promise then Some (Rejected error) else None
  | _ => None
  end.

Definition settlement (promise : nat) (log : list Effect) : option Settlement :=
  head (omap (settles promise) log).

Definition settledPromise (e : Effect) : option nat :=
  match e with
  | Resolve q _ | Reject q _ => Some q
  | _ => None
  end.

(** The record an inbound frame names, looked up in the table of its kind;
    [None] for the two kinds of frame that name no record. *)
Definition referencedRecord (message : ServerToClientMessage.t) (p : ClientPort)
    : option (RecordFrame * nat * bool) :=
  match message with
  | ServerToClientMessage.channelSend id _ =>
      Some (FChannelSend, id, bool_decide (is_Some (JsMap.get id (openChannels p))))
  | ServerToClientMessage.channelAck id _ =>
      Some (FChannelAck, id, bool_decide (is_Some (JsMap.get id (openChannels p))))
  | ServerToClientMessage.channelClose id =>
      Some (FChannelClose, id, bool_decide (is_Some (JsMap.get id (openChannels p))))
  | ServerToClientMessage.channelError id _ =>
      Some (FChannelError, id, bool_decide (is_Some (JsMap.get id (openChannels p))))
  | ServerToClientMessage.rpcResult id _ =>
      Some (FRpcResult, id, bool_decide (is_Some (JsMap.get id (ongoingRpcs p))))
  | ServerToClientMessage.rpcError id _ =>
      Some (FRpcError, id, bool_decide (is_Some (JsMap.get id (ongoingRpcs p))))
  | ServerToClientMessage.signalUpdate id _ _ =>
      Some (FSignalUpdate, id,
            bool_decide (is_Some (JsMap.get id (openSignalSubscriptions p))))
  | ServerToClientMessage.signalError id _ =>
      Some (FSignalError, id,
            bool_decide (is_Some (JsMap.get id (openSignalSubscriptions p))))
  | ServerToClientMessage.writableSignalUpdate id _ _ =>
      Some (FWritableSignalUpdate, id,
            bool_decide (is_Some (JsMap.get id (openWritableSignalSubscriptions p))))
  | ServerToClientMessage.writableSignalError id _ =>
      Some (FWritableSignalError, id,
            bool_decide (is_Some (JsMap.get id (openWritableSignalSubscriptions p))))
  | ServerToClientMessage.communicationWarning _ => None
  | ServerToClientMessage.keepAliveAck => None
  end.

(** The frame names a record of kind [frame] by [id], and the table of that
    kind has no entry for [id]. *)
Definition referencesUnknownId (message : ServerToClientMessage.t) (p : ClientPort)
    (frame : RecordFrame) (id : nat) : Prop :=
  referencedRecord message p = Some (frame, id, false).

(** ** Invariants of a port *)

(** The keys of a table are distinct and below the counter they came from. *)
Definition allocatedBelow {V} (next : nat) (m : JsMap.t V) : Prop :=
  NoDup (JsMap.keys m) ∧ ∀ k, k ∈ JsMap.keys m → k < next.

Record TablesInv (p : ClientPort) : Prop := {
  channels_below : allocatedBelow (nextChannelId p) (openChannels p);
  rpcs_below : allocatedBelow (nextChannelId p) (ongoingRpcs p);
  subscriptions_below : allocatedBelow (nextSubscribeId p) (openSignalSubscriptions p);
  writable_below :
    allocatedBelow (nextWritableSubscribeId p) (openWritableSignalSubscriptions p);
  rpc_promise : ∀ k r, JsMap.get k (ongoingRpcs p) = Some r → OngoingRpc.promise r = k }.

Record LogInv (w : World) : Prop := {
  warnings_trail :
    ∃ ws, length ws = producedCommunicationWarningsCount (port w)
          ∧ length ws ≤ 5
          ∧ omap warningEvent (effects w) = warningTrail ws;
  channel_ids : omap allocatedChannelId (effects w) = seq 0 (nextChannelId (port w));
  subscribe_ids : omap allocatedSubscribeId (effects w) = seq 0 (nextSubscribeId (port w));
  writable_subscribe_ids :
    omap allocatedWritableSubscribeId (effects w)
    = seq 0 (nextWritableSubscribeId (port w));
  settled_below : ∀ q, q ∈ omap settledPromise (effects w) → q < nextChannelId (port w) }.

(** A signal has an upstream session exactly while it has observers; the
    session of a writable signal is the one [currentSubscribeId] names. *)
Definition cellInv (c : LazySignal.t) : Prop :=
  (LazySignal.observers c = 0 ↔ LazySignal.teardown c = None)
  ∧ match LazySignal.subscribeUpstream c with
    | SignalUpstream _ _ _ _ =>
        LazySignal.currentSubscribeId c = None
        ∧ ∀ u, LazySignal.teardown c = Some u → ∃ i, u = SignalUnsubscribe i
    | WritableSignalUpstream _ _ _ _ =>
        LazySignal.teardown c = WritableSignalUnsubscribe <$> LazySignal.currentSubscribeId c
    end.

(** What holds at every point of a method. *)
Record PreInv (w : World) : Prop := {
  tables_inv : TablesInv (port w);
  log_inv : LogInv w;
  cells_inv : Forall cellInv (signals w) }.

(** What holds between methods: the count is the sum of the table sizes. *)
Definition Inv (w : World) : Prop :=
  PreInv w ∧ openCommunicationsCount (port w) = tableSizes (port w).

Definition isWritable (c : LazySignal.t) : Prop :=
  match LazySignal.subscribeUpstream c with
  | WritableSignalUpstream _ _ _ _ => True
  | SignalUpstream _ _ _ _ => False
  end.

(** A world that differs from [w] in its log only, by the effects [es]. *)
Definition logged (es : list Effect) (w : World) : World :=
  {| port := port w; effects := effects w ++ es; signals := signals w |}.

(** What one call of [communicationWarning] adds to the log when [count]
    warnings were produced before it. *)
Definition warningEffects (count : nat) (warning : Warning) : list Effect :=
  if 5 <=? count then []
  else [LoggerWarnProduced warning;
        TransportSend (ClientToServerMessage.communicationWarning warning)]
       ++ (if 5 <=? S count then [LoggerErrorSuppressed] else []).

(** The world after one call of [communicationWarning]. *)
Definition warned (warning : Warning) (w : World) : World :=
  let count := producedCommunicationWarningsCount (port w) in
  {| port := setProducedCommunicationWarningsCount
               (if 5 <=? count then count else S count) (port w);
     effects := effects w ++ warningEffects count warning;
     signals := signals w |}.

(** The edge [updateOpenCommunicationsCount] reports to the transport. *)
Definition countEdge (previousCount count : nat) : list Effect :=
  if (count =? 0) && (0 <? previousCount) then [OnHavingNoOpenCommunication]
  else if (count =? 1) && (previousCount =? 0) then [OnHavingOneOrMoreOpenCommunication]
  else [].

(** The world after one call of [updateOpenCommunicationsCount]. *)
Definition recounted (w : World) : World :=
  {| port := setOpenCommunicationsCount (tableSizes (port w)) (port w);
     effects := effects w
                ++ countEdge (openCommunicationsCount (port w)) (tableSizes (port w));
     signals := signals w |}.

(** What a warning event says was sent, logged, suppressed. *)
Definition eventSent (e : WarningEvent) : option Warning :=
  match e with
  | Sent w => Some w
  | _ => None
  end.

Definition eventLogged (e : WarningEvent) : option Warning :=
  match e with
  | Logged w => Some w
  | _ => None
  end.

Definition eventSuppressed (e : WarningEvent) : option unit :=
  match e with
  | Suppressed => Some tt
  | _ => None
  end.

Definition createdChannelId (e : Effect) : option nat :=
  match e with
  | TransportSend (ClientToServerMessage.channelCreate _ channelId _) => Some channelId
  | _ => None
  end.

(** A call of a sink of a channel or of a listener of a signal. *)
Definition observerCall (e : Effect) : option Effect :=
  match e with
  | ChannelReceivedAck _ _ | ChannelReceivedMessage _ _ | ChannelErrored _ _
  | ChannelClosed _ | SignalListener _ _ _ | SignalErrorListener _ _
  | Resolve _ _ | Reject _ _ => Some e
  | _ => None
  end.

(** ** More readings of the log *)

(** An edge of the count of open communications, as told to the transport. *)
Definition transportEdge (e : Effect) : option Effect :=
  match e with
  | OnHavingNoOpenCommunication | OnHavingOneOrMoreOpenCommunication => Some e
  | _ => None
  end.

(** [n] edges that take turns, the first one saying one-or-more. *)
Fixpoint alternating (n : nat) : list Effect :=
  match n with
  | 0 => []
  | S m =>
      alternating m
      ++ [if Nat.even m then OnHavingOneOrMoreOpenCommunication
          else OnHavingNoOpenCommunication]
  end.

Definition resolvedPromise (e : Effect) : option nat :=
  match e with
  | Resolve q _ => Some q
  | _ => None
  end.

Definition sentFrame (e : Effect) : option ClientToServerMessage.t :=
  match e with
  | TransportSend m => Some m
  | _ => None
  end.

(** The subscription an inbound update frame names, with the patches the
    frame carries; [None] for a frame of another kind and for an identifier
    its table does not have. *)
Definition updatedSubscription (message : ServerToClientMessage.t) (p : ClientPort)
    : option (OpenSignalSubscription.t * list Patch.t) :=
  match message with
  | ServerToClientMessage.signalUpdate subscribeId patches _ =>
      (λ s, (s, patches)) <$> JsMap.get subscribeId (openSignalSubscriptions p)
  | ServerToClientMessage.writableSignalUpdate subscribeId patches _ =>
      (λ s, (s, patches)) <$> JsMap.get subscribeId (openWritableSignalSubscriptions p)
  | _ => None
  end.

(** What [applyPatches] throws when the patches of an inbound update frame
    are applied to the current value of the signal the frame names. *)
Definition thrownOn (imports : Imports) (message : ServerToClientMessage.t) (w : World)
    : option Error :=
  match updatedSubscription message (port w) with
  | Some (s, patches) =>
      let current :=
        from_option LazySignal.value VNotAvailable
          (signals w !! OpenSignalSubscription.signal s) in
      match applyPatches imports current patches with
      | inl e => Some e
      | inr _ => None
      end
  | None => None
  end.

(** ** Chains of registrations

    A registry is built by a chain [new BackendInterface().add...().add...()];
    an [add] that throws ends the chain with its error. *)
Inductive Registration :=
| RegisterRpc (endpointName : string) (parameter returns : ZodType)
| RegisterChannel (endpointName : string)
    (creationParameter toServerPacket toClientPacket : ZodType)
| RegisterSignal (endpointName : string) (creationParameter signalData : ZodType).

Definition registrationName (r : Registration) : string :=
  match r with
  | RegisterRpc endpointName _ _ => endpointName
  | RegisterChannel endpointName _ _ _ => endpointName
  | RegisterSignal endpointName _ _ => endpointName
  end.

Definition register (r : Registration) (b : BackendInterface.t)
    : Error + BackendInterface.t :=
  match r with
  | RegisterRpc endpointName parameter returns =>
      BackendInterface.addRpcEndpoint endpointName parameter returns b
  | RegisterChannel endpointName creationParameter toServerPacket toClientPacket =>
      BackendInterface.addChannelEndpoint endpointName creationParameter toServerPacket
        toClientPacket b
  | RegisterSignal endpointName creationParameter signalData =>
      BackendInterface.addSignalEndpoint endpointName creationParameter signalData b
  end.

Fixpoint chain (rs : list Registration) (b : BackendInterface.t)
    : Error + BackendInterface.t :=
  match rs with
  | [] => inr b
  | r :: rest =>
      match register r b with
      | inl e => inl e
      | inr b => chain rest b
      end
  end.

(** What a registration leaves in the registry: the endpoint under its name
    in the map of its kind, and nothing under that name in the other two. *)
Definition stored (r : Registration) (b : BackendInterface.t) : Prop :=
  match r with
  | RegisterRpc endpointName parameter returns =>
      BackendInterface.getRpcEndpoint endpointName b
      = Some {| RpcEndpoint.name := endpointName;
                RpcEndpoint.parameter := parameter;
                RpcEndpoint.returns := returns |}
      ∧ BackendInterface.getChannelEndpoint endpointName b = None
      ∧ BackendInterface.getSignalEndpoint endpointName b = None
  | RegisterChannel endpointName creationParameter toServerPacket toClientPacket =>
      BackendInterface.getChannelEndpoint endpointName b
      = Some {| ChannelEndpoint.name := endpointName;
                ChannelEndpoint.creationParameter := creationParameter;
                ChannelEndpoint.toServerPacket := toServerPacket;
                ChannelEndpoint.toClientPacket := toClientPacket |}
      ∧ BackendInterface.getRpcEndpoint endpointName b = None
      ∧ BackendInterface.getSignalEndpoint endpointName b = None
  | RegisterSignal endpointName creationParameter signalData =>
      BackendInterface.getSignalEndpoint endpointName b
      = Some {| SignalEndpoint.name := endpointName;
                SignalEndpoint.creationParameter := creationParameter;
                SignalEndpoint.signalData := signalData |}
      ∧ BackendInterface.getRpcEndpoint endpointName b = None
      ∧ BackendInterface.getChannelEndpoint endpointName b = None
  end.

(** Every name one of the three maps holds is a name the registry has
    taken. *)
Definition namesTaken (b : BackendInterface.t) : Prop :=
  ∀ n, is_Some (BackendInterface.getRpcEndpoint n b)
       ∨ is_Some (BackendInterface.getChannelEndpoint n b)
       ∨ is_Some (BackendInterface.getSignalEndpoint n b) →
       n ∈ BackendInterface.existingEndpointNames b.

(** ** The system registry (lms-system-backend-interface) *)

(** [z.void()] *)
Definition zVoid : ZodType :=
  λ v, match v with
       | VUndefined => ParseSuccess VUndefined
       | _ => ParseFailure "Expected void"
       end.

(** [createSystemBackendInterface]; [downloadedModels] stands for
    [filteredArray(downloadedModelSchema)], a schema built from two imports
    of other packages. *)
Definition createSystemBackendInterface (downloadedModels : ZodType)
    : Error + BackendInterface.t :=
  chain [RegisterRpc "echo" Scenario.zString Scenario.zString;
         RegisterRpc "listDownloadedModels" zVoid downloadedModels;
         RegisterSignal "test" Scenario.zString Scenario.zString]
    BackendInterface.new.

(** ** Handlers (the serving side of [BackendInterface])

    The [handler] field of an endpoint object and the set
    [unhandledEndpoints].  An endpoint object is shared by everyone who
    looked it up, so its [handler] is kept beside the registry, under the
    endpoint's name in a map of its kind; a name without an entry has
    [handler === null].  A handler is named by a number. *)
Module Handlers.
Record t := {
  registry : BackendInterface.t;
  unhandledEndpoints : list string;
  rpcHandlers : gmap string nat;
  channelHandlers : gmap string nat;
  signalHandlers : gmap string nat }.

Definition new : t :=
  {| registry := BackendInterface.new; unhandledEndpoints := [];
     rpcHandlers := ∅; channelHandlers := ∅; signalHandlers := ∅ |}.

(** The three registrations: the endpoint object they store has
    [handler: null]. *)
Definition addRpcEndpoint (endpointName : string) (parameter returns : ZodType)
    (h : t) : Error + t :=
  match BackendInterface.addRpcEndpoint endpointName parameter returns (registry h) with
  | inl e => inl e
  | inr b =>
      inr {| registry := b; unhandledEndpoints := unhandledEndpoints h;
             rpcHandlers := delete endpointName (rpcHandlers h);
             channelHandlers := channelHandlers h;
             signalHandlers := signalHandlers h |}
  end.

Definition addChannelEndpoint (endpointName : string)
    (creationParameter toServerPacket toClientPacket : ZodType) (h : t) : Error + t :=
  match BackendInterface.addChannelEndpoint endpointName creationParameter toServerPacket
          toClientPacket (registry h) with
  | inl e => inl e
  | inr b =>
      inr {| registry := b; unhandledEndpoints := unhandledEndpoints h;
             rpcHandlers := rpcHandlers h;
             channelHandlers := delete endpointName (channelHandlers h);
             signalHandlers := signalHandlers h |}
  end.

Definition addSignalEndpoint (endpointName : string)
    (creationParameter signalData : ZodType) (h : t) : Error + t :=
  match BackendInterface.addSignalEndpoint endpointName creationParameter signalData
          (registry h) with
  | inl e => inl e
  | inr b =>
      inr {| registry := b; unhandledEndpoints := unhandledEndpoints h;
             rpcHandlers := rpcHandlers h;
             channelHandlers := channelHandlers h;
             signalHandlers := delete endpointName (signalHandlers h) |}
  end.

(** [this.unhandledEndpoints.delete(endpointName)] *)
Definition handled (endpointName : string) (unhandled : list string) : list string :=
  filter (λ name, name ≠ endpointName) unhandled.

Definition handleRpcEndpoint (endpointName : string) (handler : nat) (h : t) : Error + t :=
  match BackendInterface.getRpcEndpoint endpointName (registry h) with
  | None => inl (JsError ("No Rpc endpoint with name " +:+ endpointName))
  | Some _ =>
      match rpcHandlers h !! endpointName with
      | Some _ =>
          inl (JsError ("Rpc endpoint with name " +:+ endpointName
                        +:+ " already has a handler"))
      | None =>
          inr {| registry := registry h;
                 unhandledEndpoints := handled endpointName (unhandledEndpoints h);
                 rpcHandlers := <[endpointName := handler]> (rpcHandlers h);
                 channelHandlers := channelHandlers h;
                 signalHandlers := signalHandlers h |}
      end
  end.

Definition handleChannelEndpoint (endpointName : string) (handler : nat) (h : t)
    : Error + t :=
  match BackendInterface.getChannelEndpoint endpointName (registry h) with
  | None => inl (JsError ("No channel endpoint with name " +:+ endpointName))
  | Some _ =>
      match channelHandlers h !! endpointName with
      | Some _ =>
          inl (JsError ("Channel endpoint with name " +:+ endpointName
                        +:+ " already has a handler"))
      | None =>
          inr {| registry := registry h;
                 unhandledEndpoints := handled endpointName (unhandledEndpoints h);
                 rpcHandlers := rpcHandlers h;
                 channelHandlers := <[endpointName := handler]> (channelHandlers h);
                 signalHandlers := signalHandlers h |}
      end
  end.

Definition handleSignalEndpoint (endpointName : string) (handler : nat) (h : t)
    : Error + t :=
  match BackendInterface.getSignalEndpoint endpointName (registry h) with
  | None => inl (JsError ("No signal endpoint with name " +:+ endpointName))
  | Some _ =>
      match signalHandlers h !! endpointName with
      | Some _ =>
          inl (JsError ("Signal endpoint with name " +:+ endpointName
                        +:+ " already has a handler"))
      | None =>
          inr {| registry := registry h;
                 unhandledEndpoints := handled endpointName (unhandledEndpoints h);
                 rpcHandlers := rpcHandlers h;
                 channelHandlers := channelHandlers h;
                 signalHandlers := <[endpointName := handler]> (signalHandlers h) |}
      end
  end.

(** [Array.from(this.unhandledEndpoints).join(", ")] *)
Fixpoint join (names : list string) : string :=
  match names with
  | [] => ""
  | [name] => name
  | name :: rest => name +:+ ", " +:+ join rest
  end.

(** [None] for a return, [Some] for the error thrown. *)
Definition assertAllEndpointsHandled (h : t) : option Error :=
  if 0 <? length (unhandledEndpoints h)
  then Some (JsError ("The following endpoints were not handled: "
                      +:+ join (unhandledEndpoints h)))
  else None.

(** A call of one of the six methods that change the object. *)
Inductive Call :=
| AddRpcEndpoint (endpointName : string) (parameter returns : ZodType)
| AddChannelEndpoint (endpointName : string)
    (creationParameter toServerPacket toClientPacket : ZodType)
| AddSignalEndpoint (endpointName : string) (creationParameter signalData : ZodType)
| HandleRpcEndpoint (endpointName : string) (handler : nat)
| HandleChannelEndpoint (endpointName : string) (handler : nat)
| HandleSignalEndpoint (endpointName : string) (handler : nat).

Definition call (c : Call) (h : t) : Error + t :=
  match c with
  | AddRpcEndpoint endpointName parameter returns =>
      addRpcEndpoint endpointName parameter returns h
  | AddChannelEndpoint endpointName creationParameter toServerPacket toClientPacket =>
      addChannelEndpoint endpointName creationParameter toServerPacket toClientPacket h
  | AddSignalEndpoint endpointName creationParameter signalData =>
      addSignalEndpoint endpointName creationParameter signalData h
  | HandleRpcEndpoint endpointName handler => handleRpcEndpoint endpointName handler h
  | HandleChannelEndpoint endpointName handler =>
      handleChannelEndpoint endpointName handler h
  | HandleSignalEndpoint endpointName handler => handleSignalEndpoint endpointName handler h
  end.

(** The object after a call: each method throws before it writes, so a call
    that throws leaves the object as it was. *)
Definition after (h : t) (c : Call) : t :=
  match call c h with
  | inl _ => h
  | inr h => h
  end.

Definition afterAll (cs : list Call) (h : t) : t := foldl after h cs.

(** A handler is only ever held for an endpoint registered in its kind. *)
Definition handlersRegistered (h : t) : Prop :=
  (∀ n f, rpcHandlers h !! n = Some f →
          is_Some (BackendInterface.getRpcEndpoint n (registry h)))
  ∧ (∀ n f, channelHandlers h !! n = Some f →
            is_Some (BackendInterface.getChannelEndpoint n (registry h)))
  ∧ (∀ n f, signalHandlers h !! n = Some f →
            is_Some (BackendInterface.getSignalEndpoint n (registry h))).
End Handlers.

(** ** Setters that report patches (lms-common, [makeSetterWithPatches]) *)

Module Setter.
(** Concatenate write tags.  An argument that is [undefined] is [None]. *)
Definition cwt (allTags : list (option (list WriteTag))) : list WriteTag :=
  foldl (λ acc tags, acc ++ tags) [] (omap id allTags).

Definition makeRootReplacingPatches (value : Value) : list Patch.t :=
  [{| Patch.op := OpReplace; Patch.path := []; Patch.value := Some value |}].

(** The setter object: the function itself ([set]) and its three
    properties.  [tags?] left out is [None]. *)
Record t (Producer R : Type) := {
  set : Value → option (list WriteTag) → R;
  withImmer : Producer → option (list WriteTag) → R;
  withUpdater : (Value → Value) → option (list WriteTag) → R;
  withPatches : list Patch.t → option (list WriteTag) → R }.
Arguments set {Producer R} _ _ _.
Arguments withImmer {Producer R} _ _ _.
Arguments withUpdater {Producer R} _ _ _.
Arguments withPatches {Producer R} _ _ _.

Section MakeSetterWithPatches.
Context {Producer R : Type}.
(** immer's [applyPatches] and [produceWithPatches]. *)
Variable imports : Imports.
Variable produceWithPatches : Value → Producer → Value * list Patch.t.
(** An updater is a function that returns or throws. *)
Variable update : (Value → Error + Value * list Patch.t) → list WriteTag → R.
Variable prependTagsFn : option (unit → list WriteTag).

(** [prependTagsFn?.()] *)
Definition prependTags : option (list WriteTag) := (λ f, f tt) <$> prependTagsFn.

Definition makeSetterWithPatches : t Producer R :=
  {| set := λ value tags,
       update (λ _, inr (value, makeRootReplacingPatches value))
         (cwt [prependTags; tags]);
     withImmer := λ producer tags,
       update
         (λ oldData,
            let '(newData, patches) := produceWithPatches oldData producer in
            inr (newData, patches))
         (cwt [prependTags; tags]);
     withUpdater := λ updater tags,
       update
         (λ oldData,
            let newData := updater oldData in
            inr (newData, makeRootReplacingPatches newData))
         (cwt [prependTags; tags]);
     withPatches := λ patches tags,
       update
         (λ oldData,
            match applyPatches imports oldData patches with
            | inr newData => inr (newData, patches)
            | inl e => inl e
            end)
         (cwt [prependTags; tags]) |}.
End MakeSetterWithPatches.

(** An [update] that keeps what it was called with. *)
Definition called (updater : Value → Error + Value * list Patch.t)
    (tags : list WriteTag)
    : (Value → Error + Value * list Patch.t) * list WriteTag :=
  (updater, tags).
End Setter.

(** ** More of the concrete port *)

Module Example.
Definition chatEndpoint : ChannelEndpoint.t :=
  {| ChannelEndpoint.name := "chat";
     ChannelEndpoint.creationParameter := Scenario.zString;
     ChannelEndpoint.toServerPacket := Scenario.zString;
     ChannelEndpoint.toClientPacket := Scenario.zString |}.

Definition chatChannel (channelId : nat) : OpenChannel.t :=
  {| OpenChannel.endpoint := chatEndpoint;
     OpenChannel.stack := "at scenario";
     OpenChannel.channel := channelId |}.



(** S1 to its end: the RPC of [Scenario.oneRpc] and its result. *)
Definition oneRpcResolved : World :=
  run Scenario.imports
    [CallRpc "add" (Scenario.addParameter 2 3) None;
     Received (ServerToClientMessage.rpcResult 0 (VNum 5))]
    Scenario.fresh.

(** The registrations of the scenario registry that the registry source
    has methods for. *)
Definition registrations : list Registration :=
  [RegisterRpc "add" Scenario.zAddParameter Scenario.zInt;
   RegisterChannel "chat" Scenario.zString Scenario.zString Scenario.zString;
   RegisterSignal "counter" Scenario.zString Scenario.zCounter].

(** An interface with one endpoint and its handler. *)
Definition echoHandled : list Handlers.Call :=
  [Handlers.AddRpcEndpoint "echo" Scenario.zString Scenario.zString;
   Handlers.HandleRpcEndpoint "echo" 1].

(** A stand-in for immer's [produceWithPatches] on producers that are
    functions of the old data: the new data, and the patch that replaces the
    root by it. *)
Definition produceWithPatches (oldData : Value) (producer : Value → Value)
    : Value * list Patch.t :=
  (producer oldData, Setter.makeRootReplacingPatches (producer oldData)).
End Example.

(** * Proofs *)

(** ** Tables *)

Section JsMapFacts.
Context {V : Type}.
Implicit Types (m : JsMap.t V) (k : nat) (v : V).

Lemma get_set_eq k v m : JsMap.get k (JsMap.set k v m) = Some v.
Proof.
  induction m as [|[k' v'] m IH]; simpl.
  - by rewrite Nat.eqb_refl.
  - destruct (k' =? k) eqn:E; simpl; rewrite E; [done | exact IH].
Qed.

Lemma get_set_ne k k' v m : k ≠ k' → JsMap.get k' (JsMap.set k v m) = JsMap.get k' m.
Proof.
  intros Hne. induction m as [|[k0 v0] m IH]; simpl.
  - destruct (k =? k') eqn:E; [apply Nat.eqb_eq in E; done | done].
  - destruct (k0 =? k) eqn:E; simpl.
    + apply Nat.eqb_eq in E. subst k0. apply Nat.eqb_neq in Hne. by rewrite Hne.
    + by rewrite IH.
Qed.

Lemma get_None_keys k m : JsMap.get k m = None ↔ k ∉ JsMap.keys m.
Proof.
  unfold JsMap.keys. induction m as [|[k' v'] m IH]; csimpl.
  - split; [intros _; apply not_elem_of_nil | done].
  - rewrite not_elem_of_cons. destruct (k' =? k) eqn:E.
    + apply Nat.eqb_eq in E. split; [done | intros [? _]; congruence].
    + apply Nat.eqb_neq in E. rewrite IH. split; [intros ?; split; congruence | tauto].
Qed.

Lemma get_Some_keys k v m : JsMap.get k m = Some v → k ∈ JsMap.keys m.
Proof.
  intros H. destruct (decide (k ∈ JsMap.keys m)) as [|Hn]; [done|].
  apply get_None_keys in Hn. congruence.
Qed.

Lemma keys_set_fresh k v m :
  JsMap.get k m = None → JsMap.keys (JsMap.set k v m) = JsMap.keys m ++ [k].
Proof.
  unfold JsMap.keys. induction m as [|[k' v'] m IH]; simpl; [done|].
  destruct (k' =? k); [done|]. intros H. csimpl. f_equal. by apply IH.
Qed.

Lemma size_set_fresh k v m :
  JsMap.get k m = None → JsMap.size (JsMap.set k v m) = S (JsMap.size m).
Proof.
  unfold JsMap.size. induction m as [|[k' v'] m IH]; simpl; [done|].
  destruct (k' =? k); [done|]. intros H. simpl. by rewrite IH.
Qed.

Lemma size_delete k v m :
  JsMap.get k m = Some v → S (JsMap.size (JsMap.delete k m)) = JsMap.size m.
Proof.
  unfold JsMap.size. induction m as [|[k' v'] m IH]; simpl; [done|].
  destruct (k' =? k); [done|]. intros H. simpl. by rewrite IH.
Qed.

Lemma keys_delete_subseteq k m : JsMap.keys (JsMap.delete k m) ⊆ JsMap.keys m.
Proof.
  unfold JsMap.keys. induction m as [|[k' v'] m IH]; simpl; [done|].
  destruct (k' =? k); csimpl.
  - intros x Hx. by apply list_elem_of_further.
  - intros x. rewrite !elem_of_cons. intros [->|Hx]; [by left | right; by apply IH].
Qed.

Lemma keys_delete_NoDup k m : NoDup (JsMap.keys m) → NoDup (JsMap.keys (JsMap.delete k m)).
Proof.
  unfold JsMap.keys. induction m as [|[k' v'] m IH]; simpl; [done|].
  rewrite NoDup_cons. intros [Hk' Hm]. destruct (k' =? k); csimpl; [done|].
  apply NoDup_cons. split; [|by apply IH].
  intros Hin. apply Hk'. by apply (keys_delete_subseteq k m).
Qed.

Lemma get_delete_eq k m : NoDup (JsMap.keys m) → JsMap.get k (JsMap.delete k m) = None.
Proof.
  unfold JsMap.keys. induction m as [|[k' v'] m IH]; simpl; [done|].
  rewrite NoDup_cons. intros [Hk' Hm]. destruct (k' =? k) eqn:E; simpl.
  - apply Nat.eqb_eq in E. subst k'. by apply get_None_keys.
  - rewrite E. by apply IH.
Qed.

Lemma get_delete_ne k k' m : k ≠ k' → JsMap.get k' (JsMap.delete k m) = JsMap.get k' m.
Proof.
  intros Hne. induction m as [|[k0 v0] m IH]; simpl; [done|].
  destruct (k0 =? k) eqn:E; simpl.
  - apply Nat.eqb_eq in E. subst k0.
    destruct (k =? k') eqn:E'; [apply Nat.eqb_eq in E'; done | done].
  - by rewrite IH.
Qed.

Lemma allocatedBelow_nil next : allocatedBelow next ([] : JsMap.t V).
Proof. split; [constructor | intros k Hk; by apply elem_of_nil in Hk]. Qed.

Lemma allocatedBelow_mono next next' m :
  next ≤ next' → allocatedBelow next m → allocatedBelow next' m.
Proof. intros Hle [Hnd Hlt]. split; [done|]. intros k Hk. specialize (Hlt k Hk). lia. Qed.

Lemma allocatedBelow_fresh next m : allocatedBelow next m → JsMap.get next m = None.
Proof. intros [_ Hlt]. apply get_None_keys. intros Hin. specialize (Hlt _ Hin). lia. Qed.

Lemma allocatedBelow_set next v m :
  allocatedBelow next m → allocatedBelow (S next) (JsMap.set next v m).
Proof.
  intros Hm. pose proof (allocatedBelow_fresh _ _ Hm) as Hfresh.
  destruct Hm as [Hnd Hlt]. unfold allocatedBelow. rewrite keys_set_fresh by done. split.
  - apply NoDup_app. split_and!; [done | | apply NoDup_singleton].
    intros k Hk Hk'. apply list_elem_of_singleton in Hk'. subst.
    specialize (Hlt _ Hk). lia.
  - intros k. rewrite elem_of_app, list_elem_of_singleton.
    intros [Hk | ->]; [specialize (Hlt _ Hk)|]; lia.
Qed.

Lemma allocatedBelow_delete next k m :
  allocatedBelow next m → allocatedBelow next (JsMap.delete k m).
Proof.
  intros [Hnd Hlt]. split; [by apply keys_delete_NoDup|].
  intros k' Hk'. apply Hlt. by apply (keys_delete_subseteq k m).
Qed.
End JsMapFacts.

(** ** Running methods *)

Lemma perform_run e w : perform e w = (Normal tt, logged [e] w).
Proof. done. Qed.

Lemma world_eta w : {| port := port w; effects := effects w; signals := signals w |} = w.
Proof. by destruct w. Qed.

Lemma logged_nil w : logged [] w = w.
Proof. unfold logged. rewrite app_nil_r. apply world_eta. Qed.

Lemma communicationWarning_run warning w :
  communicationWarning warning w = (Normal tt, warned warning w).
Proof.
  unfold communicationWarning, warned, warningEffects, bind, this, assign, transportSend,
    perform, ret.
  destruct w as [p es cells]; destruct p as [? ? ? ? ? ? ? ? ? ? ? n]; simpl.
  do 5 (destruct n as [|n]; [simpl; by rewrite <- ?app_assoc|]).
  simpl. by rewrite app_nil_r.
Qed.

Lemma updateOpenCommunicationsCount_run w :
  updateOpenCommunicationsCount w = (Normal tt, recounted w).
Proof.
  unfold updateOpenCommunicationsCount, recounted, countEdge, bind, this, assign, perform, ret.
  simpl.
  destruct ((tableSizes (port w) =? 0) && (0 <? openCommunicationsCount (port w))); [done|].
  destruct ((tableSizes (port w) =? 1) && (openCommunicationsCount (port w) =? 0)); [done|].
  by rewrite app_nil_r.
Qed.

Lemma forEach_perform {A} (f : A → Effect) (l : list A) w :
  forEach (λ x, perform (f x)) l w = (Normal tt, logged (f <$> l) w).
Proof.
  revert w. induction l as [|x l IH]; intros w; simpl.
  - by rewrite logged_nil.
  - unfold bind. rewrite perform_run, IH. unfold logged; simpl. by rewrite <- app_assoc.
Qed.

#[local] Arguments communicationWarning : simpl never.
#[local] Arguments updateOpenCommunicationsCount : simpl never.
#[local] Arguments Nat.leb : simpl never.
#[local] Arguments Nat.eqb : simpl never.
#[local] Arguments Nat.ltb : simpl never.

Ltac unfold_method :=
  unfold receivedMessage, receivedChannelSend, receivedChannelAck, receivedChannelClose,
    receivedChannelError, receivedRpcResult, receivedRpcError, receivedSignalUpdate,
    receivedSignalError, receivedWritableSignalUpdate, receivedWritableSignalError,
    receivedCommunicationWarning, receivedKeepAliveAck, orThrow, callRpc, createChannel,
    createSignal, createWritableSignal, channelSendPacket, writeUpstream, subscribe,
    unsubscribe, runSubscribeUpstream, runUnsubscribe, signalGet, signalListener,
    signalErrorListener, parse, discard.

Ltac unfold_monad :=
  unfold bind, this, assign, transportSend, perform, readSignals, writeSignals, throw, ret.

Ltac run_method :=
  unfold_method; unfold_monad; simpl;
  repeat (rewrite ?communicationWarning_run, ?updateOpenCommunicationsCount_run; simpl).

(** ** Invariants *)

Lemma omap_countEdge {B} (f : Effect → option B) a b :
  f OnHavingNoOpenCommunication = None →
  f OnHavingOneOrMoreOpenCommunication = None →
  omap f (countEdge a b) = [].
Proof.
  intros H1 H2. unfold countEdge. repeat case_match; simpl; rewrite ?H1, ?H2; done.
Qed.

Lemma omap_warningEffects {B} (f : Effect → option B) count warning :
  f (LoggerWarnProduced warning) = None →
  f (TransportSend (ClientToServerMessage.communicationWarning warning)) = None →
  f LoggerErrorSuppressed = None →
  omap f (warningEffects count warning) = [].
Proof.
  intros H1 H2 H3. unfold warningEffects. repeat case_match; simpl; rewrite ?H1, ?H2, ?H3; done.
Qed.

Lemma warningTrail_snoc ws warning :
  length ws < 5 →
  warningTrail (ws ++ [warning])
  = warningTrail ws ++ omap warningEvent (warningEffects (length ws) warning).
Proof.
  intros Hlt. unfold warningTrail, warningEffects.
  rewrite bind_app, length_app. simpl.
  replace (length ws + 1) with (S (length ws)) by lia.
  destruct (5 <=? length ws) eqn:E; [apply Nat.leb_le in E; lia|].
  rewrite app_nil_r. destruct (5 <=? S (length ws)); simpl; by rewrite <- app_assoc.
Qed.

Lemma LogInv_warned warning w : LogInv w → LogInv (warned warning w).
Proof.
  intros [(ws & Hlen & Hle & Htrail) Hc Hs Hw Hq].
  constructor; unfold warned; simpl; rewrite omap_app.
  - destruct (5 <=? producedCommunicationWarningsCount (port w)) eqn:E.
    + exists ws. split_and!; [done..|].
      unfold warningEffects. rewrite E. simpl. by rewrite app_nil_r.
    + apply Nat.leb_gt in E. exists (ws ++ [warning]). rewrite length_app. simpl.
      split; [lia | split; [lia|]].
      rewrite warningTrail_snoc by lia. by rewrite Htrail, Hlen.
  - by rewrite omap_warningEffects, app_nil_r.
  - by rewrite omap_warningEffects, app_nil_r.
  - by rewrite omap_warningEffects, app_nil_r.
  - intros q. rewrite omap_warningEffects, app_nil_r by done. apply Hq.
Qed.

Lemma tables_warned warning w : TablesInv (port w) → TablesInv (port (warned warning w)).
Proof. by intros []. Qed.

Lemma PreInv_warned warning w : PreInv w → PreInv (warned warning w).
Proof.
  intros [Ht Hl Hc]. constructor; [by apply tables_warned | by apply LogInv_warned | done].
Qed.

Lemma Inv_warned warning w : Inv w → Inv (warned warning w).
Proof. intros [Hpre Hcount]. split; [by apply PreInv_warned | done]. Qed.

Lemma LogInv_step w w' es dc ds dw :
  effects w' = effects w ++ es →
  producedCommunicationWarningsCount (port w')
  = producedCommunicationWarningsCount (port w) →
  omap warningEvent es = [] →
  nextChannelId (port w') = nextChannelId (port w) + dc →
  omap allocatedChannelId es = seq (nextChannelId (port w)) dc →
  nextSubscribeId (port w') = nextSubscribeId (port w) + ds →
  omap allocatedSubscribeId es = seq (nextSubscribeId (port w)) ds →
  nextWritableSubscribeId (port w') = nextWritableSubscribeId (port w) + dw →
  omap allocatedWritableSubscribeId es = seq (nextWritableSubscribeId (port w)) dw →
  (∀ q, q ∈ omap settledPromise es → q < nextChannelId (port w')) →
  LogInv w → LogInv w'.
Proof.
  intros He Hp Hwe Hc Hce Hs Hse Hw Hwe' Hq [(ws & Hlen & Hle & Htrail) Hc0 Hs0 Hw0 Hq0].
  constructor; rewrite He, omap_app.
  - exists ws. rewrite Hp, Hwe, app_nil_r. done.
  - by rewrite Hc0, Hce, Hc, seq_app.
  - by rewrite Hs0, Hse, Hs, seq_app.
  - by rewrite Hw0, Hwe', Hw, seq_app.
  - intros q. rewrite elem_of_app. intros [Hin | Hin]; [|by apply Hq].
    specialize (Hq0 q Hin). lia.
Qed.

Lemma Inv_recounted w : PreInv w → Inv (recounted w).
Proof.
  intros [Ht Hl Hc]. split; [|done]. constructor; [by destruct Ht | | done].
  eapply (LogInv_step w _ _ 0 0 0); try done; simpl;
    rewrite ?omap_countEdge; try done; try lia.
  intros q Hq. by apply elem_of_nil in Hq.
Qed.

Lemma Inv_cells w cells :
  Forall cellInv cells → Inv w →
  Inv {| port := port w; effects := effects w; signals := cells |}.
Proof.
  intros Hcells [[Ht Hl Hc] Hcount]. split; [|done]. constructor; [done | | done].
  by destruct Hl.
Qed.

Lemma get_delete_Some {V} k k' (v : V) m :
  NoDup (JsMap.keys m) → JsMap.get k' (JsMap.delete k m) = Some v →
  k ≠ k' ∧ JsMap.get k' m = Some v.
Proof.
  intros Hnd H. destruct (decide (k = k')) as [->|Hne].
  - rewrite get_delete_eq in H by done. done.
  - rewrite get_delete_ne in H by done. done.
Qed.

Lemma promise_delete p k :
  TablesInv p → ∀ k' r, JsMap.get k' (JsMap.delete k (ongoingRpcs p)) = Some r →
  OngoingRpc.promise r = k'.
Proof.
  intros [_ [Hnd _] _ _ Hprom] k' r H.
  apply get_delete_Some in H as [_ H]; [|done]. by apply Hprom.
Qed.

Ltac solve_tables :=
  match goal with
  | Ht : TablesInv _ |- TablesInv _ =>
      let Hprom := fresh "Hprom" in
      pose proof (λ k, promise_delete _ k Ht) as Hprom;
      destruct Ht as [? ? ? ? ?]; constructor; simpl;
      eauto using allocatedBelow_delete, allocatedBelow_set
  end.

Ltac solve_log Hl :=
  eapply (LogInv_step _ _ _ 0 0 0); [simpl; rewrite <- ?app_assoc; reflexivity | ..| exact Hl];
  simpl; rewrite ?omap_app, ?omap_countEdge; simpl; try done; try lia.

Lemma promise_below p k r :
  TablesInv p → JsMap.get k (ongoingRpcs p) = Some r →
  OngoingRpc.promise r < nextChannelId p.
Proof.
  intros [_ [_ Hlt] _ _ Hprom] Hget. rewrite (Hprom _ _ Hget).
  apply Hlt. by eapply get_Some_keys.
Qed.

Lemma cellInv_withValue v c : cellInv c → cellInv (LazySignal.withValue v c).
Proof. done. Qed.

Ltac unknown_id := rewrite communicationWarning_run; by apply Inv_warned.

Ltac no_settlement := let q := fresh in let Hq := fresh in intros q Hq; by apply elem_of_nil in Hq.

Lemma received_Inv imports m w : Inv w → Inv (receivedMessage imports m w).2.
Proof.
  intros HI. pose proof HI as [[Ht Hl Hc] Hcount].
  destruct m; run_method.
  - (* channelSend *)
    destruct (JsMap.get channelId (openChannels (port w))) as [c|] eqn:Hget; [|unknown_id].
    destruct (ChannelEndpoint.toClientPacket (OpenChannel.endpoint c) message); [|unknown_id].
    simpl. split; [|done]. constructor; [done| |done]. solve_log Hl. no_settlement.
  - (* channelAck *)
    destruct (JsMap.get channelId (openChannels (port w))) as [c|] eqn:Hget; [|unknown_id].
    simpl. split; [|done]. constructor; [done| |done]. solve_log Hl. no_settlement.
  - (* channelClose *)
    destruct (JsMap.get channelId (openChannels (port w))) as [c|] eqn:Hget; [|unknown_id].
    simpl. rewrite updateOpenCommunicationsCount_run. simpl.
    apply Inv_recounted. constructor; simpl; [solve_tables | |done]. solve_log Hl.
    no_settlement.
  - (* channelError *)
    destruct (JsMap.get channelId (openChannels (port w))) as [c|] eqn:Hget; [|unknown_id].
    simpl. rewrite updateOpenCommunicationsCount_run. simpl.
    apply Inv_recounted. constructor; simpl; [solve_tables | |done]. solve_log Hl.
    no_settlement.
  - (* rpcResult *)
    destruct (JsMap.get callId (ongoingRpcs (port w))) as [r|] eqn:Hget; [|unknown_id].
    destruct (RpcEndpoint.returns (OngoingRpc.endpoint r) result); [|unknown_id].
    simpl. rewrite updateOpenCommunicationsCount_run. simpl.
    apply Inv_recounted. constructor; simpl; [solve_tables | |done]. solve_log Hl.
    intros q Hq. apply list_elem_of_singleton in Hq. subst q. by eapply promise_below.
  - (* rpcError *)
    destruct (JsMap.get callId (ongoingRpcs (port w))) as [r|] eqn:Hget; [|unknown_id].
    simpl. rewrite updateOpenCommunicationsCount_run. simpl.
    apply Inv_recounted. constructor; simpl; [solve_tables | |done]. solve_log Hl.
    intros q Hq. apply list_elem_of_singleton in Hq. subst q. by eapply promise_below.
  - (* signalUpdate *)
    destruct (JsMap.get subscribeId (openSignalSubscriptions (port w))) as [s|] eqn:Hget;
      [|unknown_id].
    simpl. destruct (applyPatches imports _ patches) as [error|afterValue]; [done|].
    simpl.
    destruct (SignalEndpoint.signalData (OpenSignalSubscription.endpoint s) _);
      [|unknown_id].
    simpl. split; [|done]. constructor; simpl; [done| |].
    + solve_log Hl. no_settlement.
    + apply Forall_alter; [done|]. intros c _. apply cellInv_withValue.
  - (* signalError *)
    destruct (JsMap.get subscribeId (openSignalSubscriptions (port w))) as [s|] eqn:Hget;
      [|unknown_id].
    simpl. rewrite updateOpenCommunicationsCount_run. simpl.
    apply Inv_recounted. constructor; simpl; [solve_tables | |done]. solve_log Hl.
    no_settlement.
  - (* writableSignalUpdate *)
    destruct (JsMap.get subscribeId (openWritableSignalSubscriptions (port w)))
      as [s|] eqn:Hget; [|unknown_id].
    simpl. destruct (applyPatches imports _ patches) as [error|afterValue]; [done|].
    simpl.
    destruct (SignalEndpoint.signalData (OpenSignalSubscription.endpoint s) _);
      [|unknown_id].
    simpl. split; [|done]. constructor; simpl; [done| |].
    + solve_log Hl. no_settlement.
    + apply Forall_alter; [done|]. intros c _. apply cellInv_withValue.
  - (* writableSignalError *)
    destruct (JsMap.get subscribeId (openWritableSignalSubscriptions (port w)))
      as [s|] eqn:Hget; [|unknown_id].
    simpl. rewrite updateOpenCommunicationsCount_run. simpl.
    apply Inv_recounted. constructor; simpl; [solve_tables | |done]. solve_log Hl.
    no_settlement.
  - (* communicationWarning *)
    split; [|done]. constructor; [done| |done]. solve_log Hl. no_settlement.
  - (* keepAliveAck *) done.
Qed.

Lemma errored_run error w :
  errored error w
  = (Normal tt,
     logged (((λ c, ChannelErrored (OpenChannel.channel c) error)
                <$> JsMap.values (openChannels (port w)))
             ++ ((λ r, Reject (OngoingRpc.promise r) error)
                <$> JsMap.values (ongoingRpcs (port w)))) w).
Proof.
  unfold errored, bind, this. rewrite forEach_perform. simpl. rewrite forEach_perform.
  unfold logged. simpl. by rewrite <- app_assoc.
Qed.

Lemma omap_fmap_None {A B C} (f : B → option C) (g : A → B) (l : list A) :
  (∀ x, f (g x) = None) → omap f (g <$> l) = [].
Proof. intros H. induction l as [|x l IH]; csimpl; [done|]. by rewrite H. Qed.

Lemma values_promises p :
  TablesInv p →
  ∀ r, r ∈ JsMap.values (ongoingRpcs p) → OngoingRpc.promise r < nextChannelId p.
Proof.
  intros Ht r Hr. unfold JsMap.values in Hr.
  apply list_elem_of_fmap in Hr as [[k r'] [-> Hin]]. simpl.
  assert (JsMap.get k (ongoingRpcs p) = Some r') as Hget; [|by eapply promise_below].
  destruct Ht as [_ [Hnd _] _ _ _]. revert Hnd Hin. unfold JsMap.keys.
  generalize (ongoingRpcs p). intros m. induction m as [|[k0 r0] m IH]; csimpl.
  - intros _ Hin. by apply elem_of_nil in Hin.
  - rewrite NoDup_cons, elem_of_cons. intros [Hk0 Hnd] [Heq | Hin].
    + injection Heq as -> ->. by rewrite Nat.eqb_refl.
    + destruct (k0 =? k) eqn:E; [|by apply IH].
      apply Nat.eqb_eq in E. subst k0. exfalso. apply Hk0.
      apply list_elem_of_fmap. by exists (k, r').
Qed.

Lemma omap_settled_rejects error (l : list OngoingRpc.t) :
  omap settledPromise ((λ r, Reject (OngoingRpc.promise r) error) <$> l)
  = OngoingRpc.promise <$> l.
Proof. induction l as [|r l IH]; csimpl; [done|]. by rewrite IH. Qed.

Lemma errored_Inv error w : Inv w → Inv (errored error w).2.
Proof.
  intros [[Ht Hl Hc] Hcount]. rewrite errored_run. simpl.
  split; [|done]. constructor; [done| |done]. solve_log Hl;
    rewrite ?(omap_fmap_None _ (λ c, ChannelErrored _ error)) by done;
    rewrite ?(omap_fmap_None _ (λ r, Reject _ error)) by done; try done.
  intros q. simpl. rewrite omap_settled_rejects.
  intros Hq. apply list_elem_of_fmap in Hq as [r [-> Hr]]. by apply values_promises.
Qed.

Lemma callRpc_run imports endpointName param stack w endpoint parameter :
  BackendInterface.getRpcEndpoint endpointName (backendInterface (port w)) = Some endpoint →
  RpcEndpoint.parameter endpoint param = ParseSuccess parameter →
  callRpc imports endpointName param stack w
  = (Normal (nextChannelId (port w)),
     recounted
       {| port :=
            setOngoingRpcs
              (JsMap.set (nextChannelId (port w))
                 {| OngoingRpc.endpoint := endpoint;
                    OngoingRpc.stack := default (getCurrentStack imports 1) stack;
                    OngoingRpc.promise := nextChannelId (port w) |}
                 (ongoingRpcs (port w)))
              (setNextChannelId (S (nextChannelId (port w))) (port w));
          effects :=
            effects w
            ++ [TransportSend
                  (ClientToServerMessage.rpcCall endpointName (nextChannelId (port w))
                     parameter)];
          signals := signals w |}).
Proof. intros He Hp. run_method. rewrite He. simpl. rewrite Hp. simpl. by rewrite updateOpenCommunicationsCount_run. Qed.

Lemma promise_set p r :
  TablesInv p → OngoingRpc.promise r = nextChannelId p →
  ∀ k r', JsMap.get k (JsMap.set (nextChannelId p) r (ongoingRpcs p)) = Some r' →
  OngoingRpc.promise r' = k.
Proof.
  intros [_ _ _ _ Hprom] Hr k r' H. destruct (decide (nextChannelId p = k)) as [<-|Hne].
  - rewrite get_set_eq in H. by injection H as <-.
  - rewrite get_set_ne in H by done. by apply Hprom.
Qed.

Ltac solve_tables_alloc :=
  match goal with
  | Ht : TablesInv _ |- TablesInv _ =>
      let Hprom := fresh "Hprom" in
      pose proof (λ r, promise_set _ r Ht) as Hprom;
      destruct Ht as [? ? ? ? ?]; constructor; simpl;
      eauto using allocatedBelow_set;
      try (by apply Hprom);
      try (eapply allocatedBelow_mono; [|eassumption]; lia)
  end.

Ltac solve_log_alloc Hl dc ds dw :=
  eapply (LogInv_step _ _ _ dc ds dw);
    [simpl; rewrite <- ?app_assoc; reflexivity | ..| exact Hl];
  simpl; rewrite ?omap_app, ?omap_countEdge; simpl; try done; try lia.

Lemma callRpc_Inv imports endpointName param stack w :
  Inv w → Inv (callRpc imports endpointName param stack w).2.
Proof.
  intros HI. pose proof HI as [[Ht Hl Hc] Hcount].
  destruct (BackendInterface.getRpcEndpoint endpointName (backendInterface (port w)))
    as [endpoint|] eqn:He; [|by run_method; rewrite He].
  destruct (RpcEndpoint.parameter endpoint param) as [parameter|error] eqn:Hp;
    [|by run_method; rewrite He; simpl; rewrite Hp].
  erewrite callRpc_run by done. simpl.
  apply Inv_recounted. constructor; simpl; [solve_tables_alloc | | done].
  solve_log_alloc Hl 1 0 0. no_settlement.
Qed.

Lemma createChannel_run imports endpointName param onMessage stack w endpoint parameter :
  BackendInterface.getChannelEndpoint endpointName (backendInterface (port w))
  = Some endpoint →
  ChannelEndpoint.creationParameter endpoint param = ParseSuccess parameter →
  createChannel imports endpointName param onMessage stack w
  = (Normal (nextChannelId (port w)),
     recounted
       {| port :=
            setOpenChannels
              (JsMap.set (nextChannelId (port w))
                 {| OpenChannel.endpoint := endpoint;
                    OpenChannel.stack := default (getCurrentStack imports 1) stack;
                    OpenChannel.channel := nextChannelId (port w) |}
                 (openChannels (port w)))
              (setNextChannelId (S (nextChannelId (port w))) (port w));
          effects :=
            effects w
            ++ TransportSend
                 (ClientToServerMessage.channelCreate endpointName
                    (nextChannelId (port w)) parameter)
               :: match onMessage with
                  | Some listener =>
                      [ChannelOnMessageSubscribe (nextChannelId (port w)) listener]
                  | None => []
                  end;
          signals := signals w |}).
Proof.
  intros He Hp. run_method. rewrite He. simpl. rewrite Hp. simpl.
  destruct onMessage; simpl; rewrite updateOpenCommunicationsCount_run; simpl;
    by rewrite <- ?app_assoc.
Qed.

Lemma createChannel_Inv imports endpointName param onMessage stack w :
  Inv w → Inv (createChannel imports endpointName param onMessage stack w).2.
Proof.
  intros HI. pose proof HI as [[Ht Hl Hc] Hcount].
  destruct (BackendInterface.getChannelEndpoint endpointName (backendInterface (port w)))
    as [endpoint|] eqn:He; [|by run_method; rewrite He].
  destruct (ChannelEndpoint.creationParameter endpoint param) as [parameter|error] eqn:Hp;
    [|by run_method; rewrite He; simpl; rewrite Hp].
  erewrite createChannel_run by done. simpl.
  pose proof (λ k, promise_delete _ k Ht) as Hprom.
  apply Inv_recounted. constructor; simpl; [| | done].
  - destruct Ht as [? ? ? ? ?]; constructor; simpl; eauto using allocatedBelow_set;
      eapply allocatedBelow_mono; [|eassumption]; lia.
  - destruct onMessage; solve_log_alloc Hl 1 0 0; no_settlement.
Qed.

Lemma channelSendPacket_Inv channelEndpoint channelId packet w :
  Inv w → Inv (channelSendPacket channelEndpoint channelId packet w).2.
Proof.
  intros HI. pose proof HI as [[Ht Hl Hc] Hcount]. run_method.
  destruct (ChannelEndpoint.toServerPacket channelEndpoint packet); simpl; [|done].
  split; [|done]. constructor; [done| |done]. solve_log Hl. no_settlement.
Qed.

Lemma cellInv_create u : cellInv (LazySignal.createWithoutInitialValue u).
Proof. split; [done|]. simpl. destruct u; [|done]. split; [done|]. intros ? [=]. Qed.

Lemma createSignal_Inv imports endpointName param stack w :
  Inv w → Inv (createSignal imports endpointName param stack w).2.
Proof.
  intros HI. pose proof HI as [[Ht Hl Hc] Hcount]. run_method.
  destruct (BackendInterface.getSignalEndpoint _ _) as [endpoint|]; [|done]. simpl.
  destruct (SignalEndpoint.creationParameter endpoint param); [|done]. simpl.
  apply (Inv_cells w); [|done]. apply Forall_app. split; [done|].
  apply Forall_singleton, cellInv_create.
Qed.

Lemma createWritableSignal_Inv imports endpointName param stack w :
  Inv w → Inv (createWritableSignal imports endpointName param stack w).2.
Proof.
  intros HI. pose proof HI as [[Ht Hl Hc] Hcount]. run_method.
  destruct (BackendInterface.getWritableSignalEndpoint _ _) as [endpoint|]; [|done]. simpl.
  destruct (SignalEndpoint.creationParameter endpoint param); [|done]. simpl.
  apply (Inv_cells w); [|done]. apply Forall_app. split; [done|].
  apply Forall_singleton, cellInv_create.
Qed.

Lemma writeUpstream_Inv signal data patches tags w :
  Inv w → Inv (writeUpstream signal data patches tags w).2.
Proof.
  intros HI. pose proof HI as [[Ht Hl Hc] Hcount]. run_method.
  destruct (signals w !! signal ≫= LazySignal.currentSubscribeId); simpl; [|done].
  split; [|done]. constructor; [done| |done]. solve_log Hl. no_settlement.
Qed.

Lemma Inv_recounted_explicit p es cells count :
  count = openCommunicationsCount p →
  PreInv {| port := p; effects := es; signals := cells |} →
  Inv {| port := setOpenCommunicationsCount (tableSizes p) p;
         effects := es ++ countEdge count (tableSizes p);
         signals := cells |}.
Proof. intros ->. apply (Inv_recounted {| port := p; effects := es; signals := cells |}). Qed.

Lemma Inv_cells_explicit p es cells0 cells :
  Inv {| port := p; effects := es; signals := cells0 |} →
  Forall cellInv cells →
  Inv {| port := p; effects := es; signals := cells |}.
Proof. intros H Hcells. by apply (Inv_cells _ cells) in H. Qed.

Lemma subscribe_Inv signal w : Inv w → Inv (subscribe signal w).2.
Proof.
  intros HI. pose proof HI as [[Ht Hl Hc] Hcount]. run_method.
  destruct (signals w !! signal) as [cell|] eqn:Hcell; [|done]. simpl.
  pose proof (Forall_lookup_1 _ _ _ _ Hc Hcell) as [Hobs Hkind].
  destruct (LazySignal.observers cell =? 0) eqn:E; simpl.
  - apply Nat.eqb_eq in E.
    destruct (LazySignal.subscribeUpstream cell) as [n e cp st | n e cp st] eqn:Hup; simpl;
      rewrite updateOpenCommunicationsCount_run; simpl;
      rewrite !list_alter_alter_eq;
      apply (Inv_cells_explicit _ _ (signals w)).
    + apply Inv_recounted_explicit; [done|]. constructor; simpl; [| |done].
      * destruct Ht as [? ? ? ? ?]; constructor; simpl; eauto using allocatedBelow_set.
      * solve_log_alloc Hl 0 1 0. no_settlement.
    + apply Forall_alter; [done|]. intros c Hc'. rewrite Hcell in Hc'.
      injection Hc' as <-. intros _. split; simpl; [done|].
      rewrite Hup. split; [apply Hkind|]. intros u [= <-]. eauto.
    + apply Inv_recounted_explicit; [done|]. constructor; simpl; [| |done].
      * destruct Ht as [? ? ? ? ?]; constructor; simpl; eauto using allocatedBelow_set.
      * solve_log_alloc Hl 0 0 1. no_settlement.
    + apply Forall_alter; [done|]. intros c Hc'. rewrite Hcell in Hc'.
      injection Hc' as <-. intros _. split; simpl; [done|].
      by rewrite Hup.
  - apply (Inv_cells w); [|done]. apply Forall_alter; [done|]. intros c Hc'.
    rewrite Hcell in Hc'. injection Hc' as <-. intros _. apply Nat.eqb_neq in E.
    split; simpl; [|done]. split; [done|]. intros Htd. by apply Hobs in Htd.
Qed.

Lemma unsubscribe_Inv signal w : Inv w → Inv (unsubscribe signal w).2.
Proof.
  intros HI. pose proof HI as [[Ht Hl Hc] Hcount]. run_method.
  destruct (signals w !! signal) as [cell|] eqn:Hcell; [|done]. simpl.
  pose proof (Forall_lookup_1 _ _ _ _ Hc Hcell) as [Hobs Hkind].
  destruct (LazySignal.observers cell) as [|n] eqn:Hn; [done|]. simpl.
  destruct (n =? 0) eqn:E; simpl.
  - apply Nat.eqb_eq in E. subst n.
    destruct (LazySignal.teardown cell) as [u|] eqn:Htd; simpl.
    + destruct u as [i|i]; simpl; rewrite !list_alter_alter_eq.
      * split; [|done]. constructor; simpl; [done| |].
        -- solve_log Hl. no_settlement.
        -- apply Forall_alter; [done|]. intros c Hc'. rewrite Hcell in Hc'.
           injection Hc' as <-. intros _. split; simpl; [done|].
           destruct (LazySignal.subscribeUpstream cell);
             [|by destruct (LazySignal.currentSubscribeId cell)].
           split; [apply Hkind | intros ? [=]].
      * split; [|done]. constructor; simpl; [done| |].
        -- solve_log Hl. no_settlement.
        -- apply Forall_alter; [done|]. intros c Hc'. rewrite Hcell in Hc'.
           injection Hc' as <-. intros _. split; simpl; [done|].
           destruct (LazySignal.subscribeUpstream cell); [|done].
           destruct Hkind as [_ Hkind]. destruct (Hkind _ eq_refl) as [? [=]].
    + exfalso. assert (S 0 = 0) as [=]. by apply Hobs.
  - apply (Inv_cells w); [|done]. apply Forall_alter; [done|]. intros c Hc'.
    rewrite Hcell in Hc'. injection Hc' as <-. intros _. apply Nat.eqb_neq in E.
    split; simpl; [|done]. split; [done|]. intros Htd. apply Hobs in Htd. lia.
Qed.

Lemma step_Inv imports w o : Inv w → Inv (step imports w o).
Proof.
  intros HI. unfold step. destruct o; simpl.
  - by apply received_Inv.
  - by apply errored_Inv.
  - pose proof (callRpc_Inv imports endpointName param stack w HI) as H.
    unfold discard, bind. by destruct (callRpc _ _ _ _ _) as [[?|?] ?].
  - pose proof (createChannel_Inv imports endpointName param onMessage stack w HI) as H.
    unfold discard, bind. by destruct (createChannel _ _ _ _ _ _) as [[?|?] ?].
  - by apply channelSendPacket_Inv.
  - pose proof (createSignal_Inv imports endpointName param stack w HI) as H.
    unfold discard, bind. by destruct (createSignal _ _ _ _ _) as [[?|?] ?].
  - pose proof (createWritableSignal_Inv imports endpointName param stack w HI) as H.
    unfold discard, bind. by destruct (createWritableSignal _ _ _ _ _) as [[?|?] ?].
  - by apply subscribe_Inv.
  - by apply unsubscribe_Inv.
  - by apply writeUpstream_Inv.
Qed.

Lemma run_Inv imports os w : Inv w → Inv (run imports os w).
Proof.
  revert w. induction os as [|o os IH]; intros w HI; [done|].
  simpl. apply IH. by apply step_Inv.
Qed.

Lemma newWorld_Inv backendInterface errorDeserializer verboseErrorMessage :
  Inv (newWorld backendInterface errorDeserializer verboseErrorMessage).
Proof.
  split; [|done]. constructor; simpl.
  - constructor; simpl; try apply allocatedBelow_nil. done.
  - constructor; simpl; try done.
    + exists []. split; [done|]. split; [simpl; lia | done].
    + intros q Hq. by apply elem_of_nil in Hq.
  - constructor.
Qed.

Lemma reachable_Inv imports w : reachable imports w → Inv w.
Proof. intros (b & d & v & os & ->). apply run_Inv, newWorld_Inv. Qed.

Lemma reachable_step imports w o : reachable imports w → reachable imports (step imports w o).
Proof.
  intros (b & d & v & os & ->). exists b, d, v, (os ++ [o]).
  unfold run. by rewrite foldl_app.
Qed.

Lemma reachable_run imports os w : reachable imports w → reachable imports (run imports os w).
Proof.
  intros (b & d & v & os' & ->). exists b, d, v, (os' ++ os).
  unfold run. by rewrite foldl_app.
Qed.

Lemma reachable_new imports b d v : reachable imports (newWorld b d v).
Proof. by exists b, d, v, []. Qed.


(** ** What a warning changes *)

Lemma settlement_app promise es es' :
  omap (settles promise) es' = [] →
  settlement promise (es ++ es') = settlement promise es.
Proof. intros H. unfold settlement. by rewrite omap_app, H, app_nil_r. Qed.

Lemma warned_frame warning w :
  let w' := warned warning w in
  openChannels (port w') = openChannels (port w)
  ∧ ongoingRpcs (port w') = ongoingRpcs (port w)
  ∧ openSignalSubscriptions (port w') = openSignalSubscriptions (port w)
  ∧ openWritableSignalSubscriptions (port w') = openWritableSignalSubscriptions (port w)
  ∧ openCommunicationsCount (port w') = openCommunicationsCount (port w)
  ∧ signals w' = signals w
  ∧ omap observerCall (effects w') = omap observerCall (effects w)
  ∧ ∀ promise, settlement promise (effects w') = settlement promise (effects w).
Proof.
  simpl. split_and!; try done.
  - by rewrite omap_app, omap_warningEffects, app_nil_r.
  - intros promise. apply settlement_app. by apply omap_warningEffects.
Qed.

Lemma warningEffects_at_most_one count warning :
  length (omap sentWarning (warningEffects count warning)) ≤ 1
  ∧ length (omap loggedWarning (warningEffects count warning)) ≤ 1.
Proof. unfold warningEffects. repeat case_match; simpl; lia. Qed.

(** ** Claims *)

(** C8: if [callRpc] is called with an endpoint name the registry does not
    have, or with a parameter the endpoint's parameter schema rejects, the
    call fails before its [await] with the corresponding error (the missing
    endpoint, or the schema's issues) and leaves the world as it found it: no
    [rpcCall] frame is sent, no [OngoingRpc] record is installed, and the
    open-communications count is unchanged. *)
Theorem C8_callRpc_rejects_bad_input imports w endpointName param stack :
  (BackendInterface.getRpcEndpoint endpointName (backendInterface (port w)) = None →
   callRpc imports endpointName param stack w
   = (Throw (JsError ("No Rpc endpoint with name " +:+ endpointName)), w))
  ∧ (∀ endpoint error,
      BackendInterface.getRpcEndpoint endpointName (backendInterface (port w))
      = Some endpoint →
      RpcEndpoint.parameter endpoint param = ParseFailure error →
      callRpc imports endpointName param stack w = (Throw (ZodError error), w)).
Proof.
  split.
  - intros H. run_method. by rewrite H.
  - intros endpoint error H Hp. run_method. rewrite H. by rewrite Hp.
Qed.


(** C6: an inbound frame of one of the ten kinds that name a record, whose
    identifier is not in the table of its kind, does what one communication
    warning does and nothing else: handling it completes normally (nothing
    is thrown), at most one warning is logged and at most one sent, none of
    the four tables nor the count changes, no signal changes, and no sink of
    a channel, promise or signal is called. *)
Theorem C6_unknown_id_dropped imports w message frame id :
  referencesUnknownId message (port w) frame id →
  let w' := (receivedMessage imports message w).2 in
  receivedMessage imports message w = communicationWarning (UnknownId frame id) w
  ∧ (receivedMessage imports message w).1 = Normal tt
  ∧ (∃ es, effects w' = effects w ++ es
           ∧ length (omap sentWarning es) ≤ 1 ∧ length (omap loggedWarning es) ≤ 1)
  ∧ openChannels (port w') = openChannels (port w)
  ∧ ongoingRpcs (port w') = ongoingRpcs (port w)
  ∧ openSignalSubscriptions (port w') = openSignalSubscriptions (port w)
  ∧ openWritableSignalSubscriptions (port w') = openWritableSignalSubscriptions (port w)
  ∧ openCommunicationsCount (port w') = openCommunicationsCount (port w)
  ∧ signals w' = signals w
  ∧ omap observerCall (effects w') = omap observerCall (effects w).
Proof.
  intros Hunknown w'.
  assert (receivedMessage imports message w = communicationWarning (UnknownId frame id) w)
    as Hrun.
  { unfold referencesUnknownId in Hunknown.
    destruct message; simpl in Hunknown; try done;
      injection Hunknown as <- <- Hnone; apply bool_decide_eq_false in Hnone;
      rewrite <- eq_None_not_Some in Hnone; run_method; rewrite Hnone;
      by rewrite ?communicationWarning_run. }
  subst w'. rewrite Hrun, communicationWarning_run. simpl.
  pose proof (warned_frame (UnknownId frame id) w) as (? & ? & ? & ? & ? & ? & ? & _).
  split_and!; try done.
  eexists. split; [reflexivity|]. apply warningEffects_at_most_one.
Qed.

Lemma omap_omap {A B C} (f : A → option B) (g : B → option C) (l : list A) :
  omap g (omap f l) = omap (λ x, f x ≫= g) l.
Proof.
  induction l as [|x l IH]; [done|]. csimpl. destruct (f x) as [y|]; csimpl; [|done].
  destruct (g y); by rewrite IH.
Qed.

Lemma omap_ext_eq {A B} (f g : A → option B) (l : list A) :
  (∀ x, f x = g x) → omap f l = omap g l.
Proof. intros H. induction l as [|x l IH]; [done|]. csimpl. by rewrite H, IH. Qed.

Lemma sentWarning_event (es : list Effect) : omap sentWarning es = omap eventSent (omap warningEvent es).
Proof.
  rewrite omap_omap. apply omap_ext_eq. intros [[]| | | | | | | | | | | | | |]; done.
Qed.

Lemma loggedWarning_event (es : list Effect) : omap loggedWarning es = omap eventLogged (omap warningEvent es).
Proof.
  rewrite omap_omap. apply omap_ext_eq. intros [[]| | | | | | | | | | | | | |]; done.
Qed.

Lemma suppression_event (es : list Effect) : omap suppression es = omap eventSuppressed (omap warningEvent es).
Proof.
  rewrite omap_omap. apply omap_ext_eq. intros [[]| | | | | | | | | | | | | |]; done.
Qed.

Lemma trail_sent ws : omap eventSent (warningTrail ws) = ws.
Proof.
  unfold warningTrail. rewrite omap_app.
  replace (omap eventSent (if 5 <=? length ws then [Suppressed] else [])) with (@nil Warning)
    by by destruct (5 <=? length ws).
  rewrite app_nil_r. induction ws as [|w ws IH]; [done|]. csimpl. by rewrite IH.
Qed.

Lemma trail_logged ws : omap eventLogged (warningTrail ws) = ws.
Proof.
  unfold warningTrail. rewrite omap_app.
  replace (omap eventLogged (if 5 <=? length ws then [Suppressed] else [])) with (@nil Warning)
    by by destruct (5 <=? length ws).
  rewrite app_nil_r. induction ws as [|w ws IH]; [done|]. csimpl. by rewrite IH.
Qed.

Lemma trail_suppressed ws :
  omap eventSuppressed (warningTrail ws) = if 5 <=? length ws then [tt] else [].
Proof.
  unfold warningTrail. rewrite omap_app.
  replace (omap eventSuppressed (ws ≫= λ w, [Logged w; Sent w])) with (@nil unit).
  - by destruct (5 <=? length ws).
  - induction ws as [|w ws IH]; [done|]. csimpl. by rewrite <- IH.
Qed.

Lemma warnings_fold warnings w :
  producedCommunicationWarningsCount (port w) ≤ 5 →
  producedCommunicationWarningsCount
    (port (foldl (λ w warning, (communicationWarning warning w).2) w warnings))
  = Nat.min 5 (producedCommunicationWarningsCount (port w) + length warnings).
Proof.
  revert w. induction warnings as [|x warnings IH]; intros w Hle; cbn [foldl length].
  - lia.
  - rewrite communicationWarning_run. cbn [snd].
    assert (producedCommunicationWarningsCount (port (warned x w))
            = Nat.min 5 (S (producedCommunicationWarningsCount (port w)))) as Hx.
    { unfold warned. cbn [port]. unfold setProducedCommunicationWarningsCount.
      cbn [producedCommunicationWarningsCount].
      destruct (5 <=? producedCommunicationWarningsCount (port w)) eqn:E; cbv iota;
        [apply Nat.leb_le in E | apply Nat.leb_gt in E]; lia. }
    rewrite IH; rewrite Hx; lia.
Qed.

(** C3: over the whole life of a port, whatever happens to it, the warnings
    it produced itself left in the log one warning line and one outbound
    [communicationWarning] frame each, the same warnings in the same order,
    at most five of them, and after the fifth exactly one suppression line
    and nothing more; every call of [communicationWarning] counts until five
    are out, so any number of warning events from five on leaves exactly five
    frames, five lines and the one suppression line; an inbound
    [communicationWarning] frame is logged and changes nothing else: it does
    not count and sends nothing. *)
Theorem C3_warning_cap imports w :
  reachable imports w →
  let n := producedCommunicationWarningsCount (port w) in
  (∃ ws, length ws = n
         ∧ omap warningEvent (effects w) = warningTrail ws
         ∧ omap sentWarning (effects w) = ws
         ∧ omap loggedWarning (effects w) = ws)
  ∧ n ≤ 5
  ∧ length (omap sentWarning (effects w)) = n
  ∧ length (omap loggedWarning (effects w)) = n
  ∧ length (omap suppression (effects w)) = (if 5 <=? n then 1 else 0)
  ∧ (∀ warnings,
       producedCommunicationWarningsCount
         (port (foldl (λ w warning, (communicationWarning warning w).2) w warnings))
       = Nat.min 5 (n + length warnings))
  ∧ (∀ warning,
       receivedMessage imports (ServerToClientMessage.communicationWarning warning) w
       = (Normal tt, logged [LoggerWarnReceived warning] w)).
Proof.
  intros Hreach n. pose proof (reachable_Inv _ _ Hreach) as [[_ Hl _] _].
  destruct Hl as [(ws & Hlen & Hle & Htrail) _ _ _ _].
  assert (omap sentWarning (effects w) = ws) as Hsent
    by by rewrite sentWarning_event, Htrail, trail_sent.
  assert (omap loggedWarning (effects w) = ws) as Hlogged
    by by rewrite loggedWarning_event, Htrail, trail_logged.
  split_and!.
  - by exists ws.
  - subst n. lia.
  - by rewrite Hsent.
  - by rewrite Hlogged.
  - subst n. rewrite suppression_event, Htrail, trail_suppressed, Hlen.
    by destruct (5 <=? producedCommunicationWarningsCount (port w)).
  - intros warnings. apply warnings_fold. lia.
  - intros warning. by run_method.
Qed.

(** ** Identifiers *)

Lemma callId_allocated (es : list Effect) : omap allocatedCallId es ⊆ omap allocatedChannelId es.
Proof.
  induction es as [|e es IH]; [done|]. csimpl.
  destruct e as [[]| | | | | | | | | | | | | |]; csimpl; try done.
  - intros x. rewrite !elem_of_cons. intros [->|Hx]; [by left | right; by apply IH].
  - intros x Hx. apply list_elem_of_further. by apply IH.
Qed.

Lemma createdChannelId_allocated (es : list Effect) :
  omap createdChannelId es ⊆ omap allocatedChannelId es.
Proof.
  induction es as [|e es IH]; [done|]. csimpl.
  destruct e as [[]| | | | | | | | | | | | | |]; csimpl; try done.
  - intros x Hx. apply list_elem_of_further. by apply IH.
  - intros x. rewrite !elem_of_cons. intros [->|Hx]; [by left | right; by apply IH].
Qed.

Lemma callId_not_channelId (es : list Effect) id :
  NoDup (omap allocatedChannelId es) →
  id ∈ omap allocatedCallId es → id ∈ omap createdChannelId es → False.
Proof.
  induction es as [|e es IH]; csimpl; [intros _ H; by apply elem_of_nil in H|].
  destruct e as [[]| | | | | | | | | | | | | |]; csimpl; try done.
  - rewrite NoDup_cons, elem_of_cons. intros [Hnew Hnd] [->|Hcall] Hchan; [|by apply IH].
    apply Hnew. by apply createdChannelId_allocated.
  - rewrite NoDup_cons, elem_of_cons. intros [Hnew Hnd] Hcall [->|Hchan]; [|by apply IH].
    apply Hnew. by apply callId_allocated.
Qed.

Lemma seq_lt_sorted n : StronglySorted lt (seq 0 n).
Proof.
  induction n as [|n IH]; [constructor|]. rewrite seq_S. simpl.
  apply StronglySorted_app. split_and!; [| done | repeat constructor].
  intros x y Hx Hy. apply list_elem_of_singleton in Hy. subst y.
  apply list_elem_of_In, in_seq in Hx. lia.
Qed.

Lemma subscribe_first_readonly signal w cell endpointName signalEndpoint creationParameter stack :
  signals w !! signal = Some cell →
  LazySignal.observers cell = 0 →
  LazySignal.subscribeUpstream cell
  = SignalUpstream endpointName signalEndpoint creationParameter stack →
  let subscribeId := nextSubscribeId (port w) in
  let w1 :=
    recounted
      {| port :=
           setOpenSignalSubscriptions
             (JsMap.set subscribeId
                {| OpenSignalSubscription.endpoint := signalEndpoint;
                   OpenSignalSubscription.signal := signal;
                   OpenSignalSubscription.stack := Some stack |}
                (openSignalSubscriptions (port w)))
             (setNextSubscribeId (S subscribeId) (port w));
         effects :=
           effects w
           ++ [TransportSend
                 (ClientToServerMessage.signalSubscribe endpointName subscribeId
                    creationParameter)];
         signals := signals w |} in
  subscribe signal w
  = (Normal tt,
     {| port := port w1; effects := effects w1;
        signals :=
          alter (λ c, LazySignal.withObservers 1
                        (LazySignal.withTeardown (Some (SignalUnsubscribe subscribeId)) c))
            signal (signals w) |}).
Proof.
  intros Hcell Hobs Hup. run_method. rewrite Hcell. simpl. rewrite Hobs. simpl.
  rewrite Hup. simpl. rewrite updateOpenCommunicationsCount_run. simpl.
  rewrite list_alter_alter_eq. do 2 f_equal.
  apply list_alter_ext; [|done]. intros c Hc. simpl. rewrite Hcell in Hc.
  injection Hc as <-. by rewrite Hobs.
Qed.

Lemma subscribe_first_writable signal w cell endpointName signalEndpoint creationParameter stack :
  signals w !! signal = Some cell →
  LazySignal.observers cell = 0 →
  LazySignal.subscribeUpstream cell
  = WritableSignalUpstream endpointName signalEndpoint creationParameter stack →
  let subscribeId := nextWritableSubscribeId (port w) in
  let w1 :=
    recounted
      {| port :=
           setOpenWritableSignalSubscriptions
             (JsMap.set subscribeId
                {| OpenSignalSubscription.endpoint := signalEndpoint;
                   OpenSignalSubscription.signal := signal;
                   OpenSignalSubscription.stack := Some stack |}
                (openWritableSignalSubscriptions (port w)))
             (setNextWritableSubscribeId (S subscribeId) (port w));
         effects :=
           effects w
           ++ [TransportSend
                 (ClientToServerMessage.writableSignalSubscribe endpointName subscribeId
                    creationParameter)];
         signals := signals w |} in
  subscribe signal w
  = (Normal tt,
     {| port := port w1; effects := effects w1;
        signals :=
          alter (λ c, LazySignal.withObservers 1
                        (LazySignal.withTeardown (Some (WritableSignalUnsubscribe subscribeId))
                           (LazySignal.withCurrentSubscribeId (Some subscribeId) c)))
            signal (signals w) |}).
Proof.
  intros Hcell Hobs Hup. run_method. rewrite Hcell. simpl. rewrite Hobs. simpl.
  rewrite Hup. simpl. rewrite updateOpenCommunicationsCount_run. simpl.
  rewrite !list_alter_alter_eq. do 2 f_equal.
  apply list_alter_ext; [|done]. intros c Hc. simpl. rewrite Hcell in Hc.
  injection Hc as <-. by rewrite Hobs.
Qed.

(** C7: over the whole life of a port the identifiers announced by
    [rpcCall] and [channelCreate] frames are, in order, 0, 1, 2, ... up to
    the shared counter [nextChannelId], so no [callId] is ever a [channelId];
    those of [signalSubscribe] frames count up to [nextSubscribeId] and those
    of [writableSignalSubscribe] frames up to [nextWritableSubscribeId], each
    on its own; so on each counter every new identifier is above all earlier
    ones and none is given twice.  [callRpc] and [createChannel] take the
    value of the shared counter and advance it by one, leaving the two
    subscription counters alone. *)
Theorem C7_identifiers_never_reused imports w :
  reachable imports w →
  (omap allocatedChannelId (effects w) = seq 0 (nextChannelId (port w))
   ∧ omap allocatedSubscribeId (effects w) = seq 0 (nextSubscribeId (port w))
   ∧ omap allocatedWritableSubscribeId (effects w)
     = seq 0 (nextWritableSubscribeId (port w)))
  ∧ (StronglySorted lt (omap allocatedChannelId (effects w))
     ∧ StronglySorted lt (omap allocatedSubscribeId (effects w))
     ∧ StronglySorted lt (omap allocatedWritableSubscribeId (effects w)))
  ∧ (∀ id, id ∈ omap allocatedCallId (effects w) → id ∉ omap createdChannelId (effects w))
  ∧ (∀ endpointName param stack callId w',
       callRpc imports endpointName param stack w = (Normal callId, w') →
       callId = nextChannelId (port w)
       ∧ nextChannelId (port w') = S callId
       ∧ nextSubscribeId (port w') = nextSubscribeId (port w)
       ∧ nextWritableSubscribeId (port w') = nextWritableSubscribeId (port w)
       ∧ Forall (λ earlier, earlier < callId) (omap allocatedChannelId (effects w)))
  ∧ (∀ endpointName param onMessage stack channelId w',
       createChannel imports endpointName param onMessage stack w = (Normal channelId, w') →
       channelId = nextChannelId (port w)
       ∧ nextChannelId (port w') = S channelId
       ∧ nextSubscribeId (port w') = nextSubscribeId (port w)
       ∧ nextWritableSubscribeId (port w') = nextWritableSubscribeId (port w)
       ∧ Forall (λ earlier, earlier < channelId) (omap allocatedChannelId (effects w)))
  ∧ (∀ signal cell,
       signals w !! signal = Some cell → LazySignal.observers cell = 0 →
       let w' := (subscribe signal w).2 in
       match LazySignal.subscribeUpstream cell with
       | SignalUpstream _ _ _ _ =>
           omap allocatedSubscribeId (effects w')
           = omap allocatedSubscribeId (effects w) ++ [nextSubscribeId (port w)]
           ∧ nextSubscribeId (port w') = S (nextSubscribeId (port w))
           ∧ nextChannelId (port w') = nextChannelId (port w)
           ∧ nextWritableSubscribeId (port w') = nextWritableSubscribeId (port w)
       | WritableSignalUpstream _ _ _ _ =>
           omap allocatedWritableSubscribeId (effects w')
           = omap allocatedWritableSubscribeId (effects w)
             ++ [nextWritableSubscribeId (port w)]
           ∧ nextWritableSubscribeId (port w') = S (nextWritableSubscribeId (port w))
           ∧ nextChannelId (port w') = nextChannelId (port w)
           ∧ nextSubscribeId (port w') = nextSubscribeId (port w)
       end).
Proof.
  intros Hreach. pose proof (reachable_Inv _ _ Hreach) as [[_ Hl _] _].
  destruct Hl as [_ Hc Hs Hw _].
  assert (∀ n, Forall (λ earlier, earlier < n) (seq 0 n)) as Hbelow.
  { intros n. apply Forall_forall. intros x Hx. apply list_elem_of_In, in_seq in Hx. lia. }
  split_and!; try done.
  - rewrite Hc. apply seq_lt_sorted.
  - rewrite Hs. apply seq_lt_sorted.
  - rewrite Hw. apply seq_lt_sorted.
  - intros id Hcall Hchan. apply (callId_not_channelId (effects w) id); try done.
    rewrite Hc. apply NoDup_seq.
  - intros endpointName param stack callId w' Hrun.
    destruct (BackendInterface.getRpcEndpoint endpointName (backendInterface (port w)))
      as [endpoint|] eqn:He; [|revert Hrun; run_method; by rewrite He].
    destruct (RpcEndpoint.parameter endpoint param) as [parameter|error] eqn:Hp;
      [|revert Hrun; run_method; rewrite He; simpl; by rewrite Hp].
    erewrite callRpc_run in Hrun by done. injection Hrun as <- <-.
    rewrite Hc. by split_and!.
  - intros endpointName param onMessage stack channelId w' Hrun.
    destruct (BackendInterface.getChannelEndpoint endpointName (backendInterface (port w)))
      as [endpoint|] eqn:He; [|revert Hrun; run_method; by rewrite He].
    destruct (ChannelEndpoint.creationParameter endpoint param) as [parameter|error] eqn:Hp;
      [|revert Hrun; run_method; rewrite He; simpl; by rewrite Hp].
    erewrite createChannel_run in Hrun by done. injection Hrun as <- <-.
    rewrite Hc. by split_and!.
  - intros signal cell Hcell Hobs.
    destruct (LazySignal.subscribeUpstream cell) as [n e cp st | n e cp st] eqn:Hup.
    + erewrite subscribe_first_readonly by done. simpl.
      rewrite !omap_app, omap_countEdge by done. simpl. by rewrite app_nil_r.
    + erewrite subscribe_first_writable by done. simpl.
      rewrite !omap_app, omap_countEdge by done. simpl. by rewrite app_nil_r.
Qed.

(** ** An RPC from call to reply *)

Ltac case_inner :=
  match goal with
  | |- context [match ?x with _ => _ end] =>
      lazymatch x with
      | context [match _ with _ => _ end] => fail
      | _ => destruct x eqn:?
      end
  end.

Ltac run_cases :=
  repeat (simpl;
          rewrite ?communicationWarning_run, ?updateOpenCommunicationsCount_run,
            ?errored_run;
          try case_inner).

(** A step leaves the table of ongoing RPCs alone, deletes an entry, or
    enters a record under the identifier the shared counter gave. *)
Lemma step_ongoingRpcs imports w o :
  nextChannelId (port w) ≤ nextChannelId (port (step imports w o))
  ∧ (ongoingRpcs (port (step imports w o)) = ongoingRpcs (port w)
     ∨ (∃ k, ongoingRpcs (port (step imports w o)) = JsMap.delete k (ongoingRpcs (port w)))
     ∨ (∃ r, ongoingRpcs (port (step imports w o))
             = JsMap.set (nextChannelId (port w)) r (ongoingRpcs (port w)))).
Proof.
  unfold step. destruct o as [[]| | | | | | | | |]; unfold perform_operation.
  all: run_method; run_cases; simpl; split; eauto.
Qed.

Lemma step_nextChannelId imports w o :
  nextChannelId (port w) ≤ nextChannelId (port (step imports w o)).
Proof. apply step_ongoingRpcs. Qed.

Lemma rpc_stable_step imports w o k r :
  Inv w → k < nextChannelId (port w) →
  JsMap.get k (ongoingRpcs (port (step imports w o))) = Some r →
  JsMap.get k (ongoingRpcs (port w)) = Some r.
Proof.
  intros [[Ht _ _] _] Hk. destruct (step_ongoingRpcs imports w o) as [_ [-> | [[k' ->] | [r' ->]]]].
  - done.
  - intros H. destruct Ht as [_ [Hnd _] _ _ _]. by apply get_delete_Some in H as [_ H].
  - rewrite get_set_ne by lia. done.
Qed.

Lemma rpc_stable_run imports os w k r :
  Inv w → k < nextChannelId (port w) →
  JsMap.get k (ongoingRpcs (port (run imports os w))) = Some r →
  JsMap.get k (ongoingRpcs (port w)) = Some r.
Proof.
  revert w. induction os as [|o os IH]; intros w HI Hk; [done|]. simpl. intros H.
  apply (rpc_stable_step imports w o); [done..|].
  apply IH; [by apply step_Inv | | done].
  pose proof (step_nextChannelId imports w o). lia.
Qed.

Lemma unsettled (es : list Effect) promise :
  (∀ q, q ∈ omap settledPromise es → q ≠ promise) → omap (settles promise) es = [].
Proof.
  induction es as [|e es IH]; [done|]. csimpl. intros H.
  assert (omap (settles promise) es = []) as ->.
  { apply IH. intros q Hq. apply H. destruct (settledPromise e); [by right | done]. }
  destruct e; simpl; try done.
  all: destruct (promise0 =? promise) eqn:E; [|done]; apply Nat.eqb_eq in E;
    exfalso; apply (H promise0); [simpl; by left | done].
Qed.

(** The log only grows. *)
Lemma step_effects imports w o : ∃ es, effects (step imports w o) = effects w ++ es.
Proof.
  unfold step. destruct o as [[]| | | | | | | | |]; unfold perform_operation.
  all: run_method; run_cases; simpl.
  all: first [ by exists []; rewrite app_nil_r
             | eexists; unfold logged; simpl; rewrite <- ?app_assoc; reflexivity ].
Qed.

Lemma run_effects imports os w : ∃ es, effects (run imports os w) = effects w ++ es.
Proof.
  revert w. induction os as [|o os IH]; intros w; simpl.
  - exists []. by rewrite app_nil_r.
  - destruct (IH (step imports w o)) as [es ->].
    destruct (step_effects imports w o) as [es' ->].
    exists (es' ++ es). by rewrite <- app_assoc.
Qed.

Lemma callIds_NoDup (es : list Effect) :
  NoDup (omap allocatedChannelId es) → NoDup (omap allocatedCallId es).
Proof.
  induction es as [|e es IH]; [done|]. csimpl.
  destruct e as [[]| | | | | | | | | | | | | |]; csimpl; try done.
  - rewrite !NoDup_cons. intros [Hnew Hnd]. split; [|by apply IH].
    intros Hin. apply Hnew. by apply callId_allocated.
  - rewrite NoDup_cons. intros [_ Hnd]. by apply IH.
Qed.

(** ** Writable signals *)

(** C9: for a writable signal of a port, [writeUpstream] throws the
    not-subscribed error and sends nothing while the signal has no observer
    (before the first one attaches, after the last one has detached); while
    it has observers, an upstream session is running, [currentSubscribeId] is
    the identifier that session subscribed under, and [writeUpstream] sends
    one [writableSignalUpdate] frame with that identifier, the patches and
    the tags.  The first observer to attach starts the session under the
    next writable subscribe identifier. *)
Theorem C9_writeUpstream_needs_session imports w signal cell data patches tags :
  reachable imports w →
  signals w !! signal = Some cell →
  isWritable cell →
  (LazySignal.observers cell = 0 →
   writeUpstream signal data patches tags w
   = (Throw (JsError "writeUpstream called when not subscribed"), w)
   ∧ ∃ cell', signals (subscribe signal w).2 !! signal = Some cell'
              ∧ LazySignal.observers cell' = 1
              ∧ LazySignal.currentSubscribeId cell'
                = Some (nextWritableSubscribeId (port w)))
  ∧ (0 < LazySignal.observers cell →
     ∃ subscribeId,
       LazySignal.currentSubscribeId cell = Some subscribeId
       ∧ LazySignal.teardown cell = Some (WritableSignalUnsubscribe subscribeId)
       ∧ writeUpstream signal data patches tags w
         = (Normal tt,
            logged [TransportSend
                      (ClientToServerMessage.writableSignalUpdate subscribeId patches tags)]
              w)).
Proof.
  intros Hreach Hcell Hwritable.
  pose proof (reachable_Inv _ _ Hreach) as [[_ _ Hcells] _].
  pose proof (Forall_lookup_1 _ _ _ _ Hcells Hcell) as [Hobs Hkind].
  unfold isWritable in Hwritable.
  destruct (LazySignal.subscribeUpstream cell) as [|n e cp st] eqn:Hup; [done|].
  split.
  - intros Hzero. apply Hobs in Hzero as Htd. rewrite Htd in Hkind.
    destruct (LazySignal.currentSubscribeId cell) eqn:Hcur; [done|]. split.
    + run_method. rewrite Hcell. simpl. by rewrite Hcur.
    + erewrite subscribe_first_writable by done. simpl.
      rewrite list_lookup_alter_eq, Hcell. simpl. eauto.
  - intros Hpos. destruct (LazySignal.currentSubscribeId cell) as [subscribeId|] eqn:Hcur.
    + exists subscribeId. split_and!; [done..|].
      run_method. rewrite Hcell. simpl. by rewrite Hcur.
    + simpl in Hkind. apply Hobs in Hkind. lia.
Qed.


(** ** Signal updates *)


(** ** Records that are not released *)

(** C1, as the code has it: [errored] calls the error sink of every open
    channel and the rejector of every ongoing RPC with the error and does
    nothing else: no record leaves its table, the open-communications count
    is not recomputed and the transport is told of no edge.  In scenario S6
    (RPCs 0 and 1 in flight, channel 2 open) both promises are rejected and
    the channel's error sink is called, but the three records stay, the count
    stays 3, and no no-open-communication edge is reported. *)
Theorem C1_errored_keeps_records :
  (∀ error w,
     port (errored error w).2 = port w
     ∧ signals (errored error w).2 = signals w
     ∧ effects (errored error w).2
       = effects w
         ++ ((λ c, ChannelErrored (OpenChannel.channel c) error)
               <$> JsMap.values (openChannels (port w)))
         ++ ((λ r, Reject (OngoingRpc.promise r) error)
               <$> JsMap.values (ongoingRpcs (port w))))
  ∧ let w := Scenario.twoRpcsOneChannel in
    let w' := (errored (JsError "E") w).2 in
    effects w'
    = effects w
      ++ [ChannelErrored 2 (JsError "E"); Reject 0 (JsError "E"); Reject 1 (JsError "E")]
    ∧ settlement 0 (effects w') = Some (Rejected (JsError "E"))
    ∧ settlement 1 (effects w') = Some (Rejected (JsError "E"))
    ∧ JsMap.keys (ongoingRpcs (port w')) = [0; 1]
    ∧ JsMap.keys (openChannels (port w')) = [2]
    ∧ openCommunicationsCount (port w) = 3
    ∧ openCommunicationsCount (port w') = 3
    ∧ OnHavingNoOpenCommunication ∉ effects w'.
Proof.
  split.
  - intros error w. by rewrite errored_run.
  - cbv zeta. split_and!; try (vm_compute; reflexivity).
    intros Hin. apply list_elem_of_In in Hin. revert Hin. vm_compute.
    intros Hin. repeat destruct Hin as [Hin | Hin]; done.
Qed.

(** C4, as the code has it: when the last observer detaches from a signal
    the teardown sends [signalUnsubscribe] and touches nothing of the port:
    the [OpenSignalSubscription] record stays in the table and the
    open-communications count stays as it was.  With one signal subscribed
    under [subscribeId] 0 and its only observer detaching, record 0 is still
    in the table afterwards and the count is still 1. *)
Theorem C4_detach_keeps_subscription :
  (∀ signal w, port (unsubscribe signal w).2 = port w)
  ∧ let w := Scenario.counterSubscribed in
    let w' := (unsubscribe 0 w).2 in
    LazySignal.observers <$> signals w !! 0 = Some 1
    ∧ LazySignal.observers <$> signals w' !! 0 = Some 0
    ∧ LazySignal.teardown <$> signals w' !! 0 = Some None
    ∧ effects w' = effects w ++ [TransportSend (ClientToServerMessage.signalUnsubscribe 0)]
    ∧ JsMap.keys (openSignalSubscriptions (port w')) = [0]
    ∧ openCommunicationsCount (port w') = 1.
Proof.
  split.
  - intros signal w. run_method. run_cases; done.
  - cbv zeta. split_and!; vm_compute; reflexivity.
Qed.


(** ** The scenarios of the specification, run *)

(** S1: the RPC happy path. *)
Example scenario_S1 :
  effects (run Scenario.imports
             [Received (ServerToClientMessage.rpcResult 0 (VNum 5))] Scenario.oneRpc)
  = [TransportSend (ClientToServerMessage.rpcCall "add" 0 (Scenario.addParameter 2 3));
     OnHavingOneOrMoreOpenCommunication;
     Resolve 0 (VNum 5);
     OnHavingNoOpenCommunication]
  ∧ openCommunicationsCount
      (port (run Scenario.imports
               [Received (ServerToClientMessage.rpcResult 0 (VNum 5))] Scenario.oneRpc))
    = 0.
Proof. split; vm_compute; reflexivity. Qed.

(** S3: a frame for an unknown identifier is dropped with one warning. *)
Example scenario_S3 :
  effects (run Scenario.imports
             [Received (ServerToClientMessage.signalUpdate 42 [] [])] Scenario.fresh)
  = [LoggerWarnProduced (UnknownId FSignalUpdate 42);
     TransportSend (ClientToServerMessage.communicationWarning (UnknownId FSignalUpdate 42))].
Proof. vm_compute. reflexivity. Qed.

(** S4: a stream of patches reaches the observer value by value. *)
Example scenario_S4 :
  omap observerCall
    (effects
       (run Scenario.imports
          [Received (ServerToClientMessage.signalUpdate 0
                       [Scenario.replaceRoot (VObj [("n", VNum 0)])] []);
           Received (ServerToClientMessage.signalUpdate 0
                       [{| Patch.op := OpReplace; Patch.path := [Key "n"];
                           Patch.value := Some (VNum 1) |}] [])]
          Scenario.counterSubscribed))
  = [SignalListener 0 (VObj [("n", VNum 0)]) [];
     SignalListener 0 (VObj [("n", VNum 1)]) []].
Proof. vm_compute. reflexivity. Qed.

(** S5: six unknown frames leave five warnings and the suppression line. *)
Example scenario_S5 :
  omap warningEvent (effects Scenario.sixUnknownUpdates)
  = warningTrail (replicate 5 (UnknownId FSignalUpdate 42)).
Proof. vm_compute. reflexivity. Qed.

(** ** The claims at work on the scenarios *)

Lemma C8_witness :
  BackendInterface.getRpcEndpoint "sub" (backendInterface (port Scenario.fresh)) = None
  ∧ callRpc Scenario.imports "sub" VNull None Scenario.fresh
    = (Throw (JsError "No Rpc endpoint with name sub"), Scenario.fresh)
  ∧ BackendInterface.getRpcEndpoint "add" (backendInterface (port Scenario.fresh))
    = Some Scenario.addEndpoint
  ∧ RpcEndpoint.parameter Scenario.addEndpoint (VObj [("a", VStr "x"); ("b", VNum 3)])
    = ParseFailure "Expected number"
  ∧ callRpc Scenario.imports "add" (VObj [("a", VStr "x"); ("b", VNum 3)]) None
      Scenario.fresh
    = (Throw (ZodError "Expected number"), Scenario.fresh).
Proof.
  split; [vm_compute; reflexivity|].
  split; [apply (C8_callRpc_rejects_bad_input Scenario.imports Scenario.fresh "sub");
          vm_compute; reflexivity|].
  split; [vm_compute; reflexivity|].
  split; [vm_compute; reflexivity|].
  apply (proj2 (C8_callRpc_rejects_bad_input Scenario.imports Scenario.fresh "add"
                  (VObj [("a", VStr "x"); ("b", VNum 3)]) None) Scenario.addEndpoint);
    vm_compute; reflexivity.
Defined.


Lemma C6_witness :
  referencesUnknownId (ServerToClientMessage.signalUpdate 42 [] []) (port Scenario.fresh)
    FSignalUpdate 42
  ∧ receivedMessage Scenario.imports (ServerToClientMessage.signalUpdate 42 [] [])
      Scenario.fresh
    = communicationWarning (UnknownId FSignalUpdate 42) Scenario.fresh.
Proof.
  assert (referencesUnknownId (ServerToClientMessage.signalUpdate 42 [] [])
            (port Scenario.fresh) FSignalUpdate 42) as Hunknown by (vm_compute; reflexivity).
  split; [exact Hunknown|].
  exact (proj1 (C6_unknown_id_dropped Scenario.imports Scenario.fresh _ _ _ Hunknown)).
Defined.

Lemma C3_witness :
  reachable Scenario.imports Scenario.sixUnknownUpdates
  ∧ length (omap sentWarning (effects Scenario.sixUnknownUpdates)) = 5
  ∧ length (omap loggedWarning (effects Scenario.sixUnknownUpdates)) = 5
  ∧ length (omap suppression (effects Scenario.sixUnknownUpdates)) = 1.
Proof.
  assert (reachable Scenario.imports Scenario.sixUnknownUpdates) as Hreach.
  { exists Scenario.backendInterface, None, None,
      (replicate 6 (Received (ServerToClientMessage.signalUpdate 42 [] []))).
    reflexivity. }
  split; [exact Hreach|].
  destruct (C3_warning_cap Scenario.imports Scenario.sixUnknownUpdates Hreach)
    as (_ & _ & Hsent & Hlogged & Hsuppressed & _).
  assert (producedCommunicationWarningsCount (port Scenario.sixUnknownUpdates) = 5) as Hn
    by (vm_compute; reflexivity).
  rewrite Hn in Hsent, Hlogged, Hsuppressed. by split_and!.
Defined.

Lemma C7_witness :
  reachable Scenario.imports Scenario.twoRpcsOneChannel
  ∧ omap allocatedChannelId (effects Scenario.twoRpcsOneChannel)
    = seq 0 (nextChannelId (port Scenario.twoRpcsOneChannel))
  ∧ StronglySorted lt (omap allocatedChannelId (effects Scenario.twoRpcsOneChannel)).
Proof.
  assert (reachable Scenario.imports Scenario.twoRpcsOneChannel) as Hreach.
  { exists Scenario.backendInterface, None, None,
      [CallRpc "add" (Scenario.addParameter 2 3) None;
       CallRpc "add" (Scenario.addParameter 4 5) None;
       CreateChannel "chat" (VStr "hello") None None].
    reflexivity. }
  split; [exact Hreach|].
  destruct (C7_identifiers_never_reused Scenario.imports Scenario.twoRpcsOneChannel Hreach)
    as ((Hids & _ & _) & (Hsorted & _ & _) & _).
  split; [exact Hids | exact Hsorted].
Defined.


Lemma C9_witness :
  reachable Scenario.imports Scenario.settingSubscribed
  ∧ signals Scenario.settingSubscribed !! 0 = Some Scenario.settingCellActive
  ∧ isWritable Scenario.settingCellActive
  ∧ writeUpstream 0 VNull [] [] Scenario.settingSubscribed
    = (Normal tt,
       logged [TransportSend (ClientToServerMessage.writableSignalUpdate 0 [] [])]
         Scenario.settingSubscribed)
  ∧ reachable Scenario.imports Scenario.settingCreated
  ∧ signals Scenario.settingCreated !! 0 = Some Scenario.settingCellIdle
  ∧ writeUpstream 0 VNull [] [] Scenario.settingCreated
    = (Throw (JsError "writeUpstream called when not subscribed"), Scenario.settingCreated).
Proof.
  assert (reachable Scenario.imports Scenario.settingSubscribed) as Hreach.
  { exists Scenario.backendInterface, None, None,
      [CreateWritableSignal "setting" (VStr "s") None; Subscribe 0].
    reflexivity. }
  assert (signals Scenario.settingSubscribed !! 0 = Some Scenario.settingCellActive)
    as Hcell by (vm_compute; reflexivity).
  assert (reachable Scenario.imports Scenario.settingCreated) as Hreach0.
  { exists Scenario.backendInterface, None, None,
      [CreateWritableSignal "setting" (VStr "s") None].
    reflexivity. }
  assert (signals Scenario.settingCreated !! 0 = Some Scenario.settingCellIdle)
    as Hcell0 by (vm_compute; reflexivity).
  split; [exact Hreach|]. split; [exact Hcell|]. split; [exact I|].
  split.
  - destruct (proj2 (C9_writeUpstream_needs_session Scenario.imports
                       Scenario.settingSubscribed 0 Scenario.settingCellActive VNull [] []
                       Hreach Hcell I) (le_n 1))
      as (subscribeId & Hid & _ & Hrun).
    injection Hid as <-. exact Hrun.
  - split; [exact Hreach0|]. split; [exact Hcell0|].
    exact (proj1 (proj1 (C9_writeUpstream_needs_session Scenario.imports
                           Scenario.settingCreated 0 Scenario.settingCellIdle VNull [] []
                           Hreach0 Hcell0 I) eq_refl)).
Defined.

(** ** The count and the edges reported to the transport *)

Lemma transportEdge_countEdge a b : omap transportEdge (countEdge a b) = countEdge a b.
Proof. unfold countEdge. repeat case_match; done. Qed.

Ltac table_sizes :=
  repeat match goal with
         | H : JsMap.get ?k ?m = Some _ |- context [JsMap.size (JsMap.delete ?k ?m)] =>
             lazymatch goal with
             | _ : S (JsMap.size (JsMap.delete k m)) = JsMap.size m |- _ => fail
             | _ => pose proof (size_delete _ _ _ H)
             end
         end;
  rewrite ?size_set_fresh by done.

(** A step leaves the count and the edges alone, or moves the count by one
    and reports the edge between the two counts. *)
Lemma step_count imports w o :
  Inv w →
  let w' := step imports w o in
  (omap transportEdge (effects w') = omap transportEdge (effects w)
   ∧ openCommunicationsCount (port w') = openCommunicationsCount (port w))
  ∨ (omap transportEdge (effects w')
     = omap transportEdge (effects w)
       ++ countEdge (openCommunicationsCount (port w)) (openCommunicationsCount (port w'))
     ∧ (openCommunicationsCount (port w') = S (openCommunicationsCount (port w))
        ∨ S (openCommunicationsCount (port w')) = openCommunicationsCount (port w))).
Proof.
  intros [[[[_ Hch] [_ Hrpc] [_ Hsub] [_ Hwr] _] _ _] Hcount].
  assert (JsMap.get (nextChannelId (port w)) (openChannels (port w)) = None) as Hf1
    by (apply get_None_keys; intros Hin; specialize (Hch _ Hin); lia).
  assert (JsMap.get (nextChannelId (port w)) (ongoingRpcs (port w)) = None) as Hf2
    by (apply get_None_keys; intros Hin; specialize (Hrpc _ Hin); lia).
  assert (JsMap.get (nextSubscribeId (port w)) (openSignalSubscriptions (port w)) = None)
    as Hf3 by (apply get_None_keys; intros Hin; specialize (Hsub _ Hin); lia).
  assert (JsMap.get (nextWritableSubscribeId (port w))
            (openWritableSignalSubscriptions (port w)) = None)
    as Hf4 by (apply get_None_keys; intros Hin; specialize (Hwr _ Hin); lia).
  clear Hch Hrpc Hsub Hwr.
  unfold step. destruct o as [[]| | | | | | | | |]; unfold perform_operation.
  all: run_method; run_cases; simpl.
  all: rewrite ?omap_app, ?transportEdge_countEdge, ?omap_warningEffects by done; simpl;
    rewrite ?app_nil_r.
  all: try (left; split; [|done]).
  all: try done.
  all: try (rewrite !(omap_fmap_None transportEdge) by done; by rewrite ?app_nil_r).
  all: right; split; [done|]; rewrite Hcount; unfold tableSizes; simpl; table_sizes; lia.
Qed.

Lemma alternate_run imports os w :
  Inv w →
  (∃ n, omap transportEdge (effects w) = alternating n
        ∧ Nat.even n = (openCommunicationsCount (port w) =? 0)) →
  ∃ n, omap transportEdge (effects (run imports os w)) = alternating n
       ∧ Nat.even n = (openCommunicationsCount (port (run imports os w)) =? 0).
Proof.
  revert w. induction os as [|o os IH]; intros w HI Hw; [done|]. simpl.
  apply IH; [by apply step_Inv|]. destruct Hw as (n & Hedges & Hparity).
  destruct (step_count imports w o HI) as [[-> ->] | [-> Hmove]]; [by exists n|].
  rewrite Hedges.
  destruct (openCommunicationsCount (port w)) as [|c] eqn:Hc;
    destruct (openCommunicationsCount (port (step imports w o))) as [|c'] eqn:Hc';
    try (exfalso; lia).
  - assert (c' = 0) as -> by lia. exists (S n). change (Nat.even n = true) in Hparity.
    split.
    + cbn [alternating]. rewrite Hparity. reflexivity.
    + rewrite Nat.even_succ, <- Nat.negb_even, Hparity. reflexivity.
  - exists (S n). change (Nat.even n = false) in Hparity. split.
    + cbn [alternating]. rewrite Hparity. reflexivity.
    + rewrite Nat.even_succ, <- Nat.negb_even, Hparity. reflexivity.
  - exists n. split; [|exact Hparity].
    assert (countEdge (S c) (S c') = []) as ->; [|by rewrite app_nil_r].
    unfold countEdge. destruct c'; [|reflexivity].
    destruct Hmove as [Hmove|Hmove]; [lia|]. reflexivity.
Qed.

(** X1: over the life of a port the edges reported to the transport take turns,
    starting with one-or-more, and the count is zero exactly when an even
    number of them went out (the last one, if any, said no-open). *)
Theorem edges_alternate imports w :
  reachable imports w →
  ∃ n, omap transportEdge (effects w) = alternating n
       ∧ (Nat.even n ↔ openCommunicationsCount (port w) = 0).
Proof.
  intros (b & d & v & os & ->).
  destruct (alternate_run imports os (newWorld b d v)) as (n & Hedges & Hparity).
  - apply newWorld_Inv.
  - by exists 0.
  - exists n. split; [done|]. rewrite Hparity. 
    destruct (openCommunicationsCount _); simpl; split; done.
Qed.

(** X2: between methods the open-communications count is the number of records
    in the four tables, and the identifier each counter will give next is
    free in the tables it serves. *)
Theorem count_is_table_sizes imports w :
  reachable imports w →
  openCommunicationsCount (port w)
  = JsMap.size (openChannels (port w)) + JsMap.size (ongoingRpcs (port w))
    + JsMap.size (openSignalSubscriptions (port w))
    + JsMap.size (openWritableSignalSubscriptions (port w))
  ∧ JsMap.get (nextChannelId (port w)) (openChannels (port w)) = None
  ∧ JsMap.get (nextChannelId (port w)) (ongoingRpcs (port w)) = None
  ∧ JsMap.get (nextSubscribeId (port w)) (openSignalSubscriptions (port w)) = None
  ∧ JsMap.get (nextWritableSubscribeId (port w)) (openWritableSignalSubscriptions (port w))
    = None.
Proof.
  intros Hreach. destruct (reachable_Inv _ _ Hreach) as [[[Hch Hrpc Hsub Hwr _] _ _] Hcount].
  split; [exact Hcount|]. split_and!; by apply allocatedBelow_fresh.
Qed.

(** ** The options of a port *)

Lemma step_config imports w o :
  backendInterface (port (step imports w o)) = backendInterface (port w)
  ∧ errorDeserializer (port (step imports w o)) = errorDeserializer (port w)
  ∧ verboseErrorMessage (port (step imports w o)) = verboseErrorMessage (port w).
Proof.
  unfold step. destruct o as [[]| | | | | | | | |]; unfold perform_operation.
  all: run_method; run_cases; simpl; done.
Qed.

Lemma run_config imports os w :
  backendInterface (port (run imports os w)) = backendInterface (port w)
  ∧ errorDeserializer (port (run imports os w)) = errorDeserializer (port w)
  ∧ verboseErrorMessage (port (run imports os w)) = verboseErrorMessage (port w).
Proof.
  revert w. induction os as [|o os IH]; intros w; [done|]. simpl.
  destruct (IH (step imports w o)) as (-> & -> & ->). apply step_config.
Qed.

(** X3: what a port was constructed with stays: whatever happens to it, it reads
    the registry it was given, deserializes errors with the deserializer it
    was given (the default one if none was), and attaches stacks exactly if
    [verboseErrorMessage] was given as true. *)
Theorem options_fixed imports b d v os :
  let w := run imports os (newWorld b d v) in
  backendInterface (port w) = b
  ∧ errorDeserializer (port w) = default defaultErrorDeserializer d
  ∧ verboseErrorMessage (port w) = default false v.
Proof.
  intros w. subst w. by destruct (run_config imports os (newWorld b d v)) as (-> & -> & ->).
Qed.

(** ** Frames that end a record *)

(** The table of open channels under a step, as [step_ongoingRpcs]. *)
Lemma step_openChannels imports w o :
  openChannels (port (step imports w o)) = openChannels (port w)
  ∨ (∃ k, openChannels (port (step imports w o)) = JsMap.delete k (openChannels (port w)))
  ∨ (∃ c, openChannels (port (step imports w o))
          = JsMap.set (nextChannelId (port w)) c (openChannels (port w))
          ∧ OpenChannel.channel c = nextChannelId (port w)).
Proof.
  unfold step. destruct o as [[]| | | | | | | | |]; unfold perform_operation.
  all: run_method; run_cases; simpl; eauto.
Qed.



(** The record under a [channelId] holds the channel made for it. *)
Lemma channel_named_run imports os w :
  Inv w →
  (∀ k c, JsMap.get k (openChannels (port w)) = Some c → OpenChannel.channel c = k) →
  ∀ k c, JsMap.get k (openChannels (port (run imports os w))) = Some c →
         OpenChannel.channel c = k.
Proof.
  revert w. induction os as [|o os IH]; intros w HI Hw; [done|]. simpl.
  apply IH; [by apply step_Inv|]. intros k c.
  destruct HI as [[[[Hnd _] _ _ _ _] _ _] _].
  destruct (step_openChannels imports w o) as [-> | [[k' ->] | [c' [-> Hc']]]].
  - apply Hw.
  - intros H. apply get_delete_Some in H as [_ H]; [by apply Hw | done].
  - destruct (decide (nextChannelId (port w) = k)) as [<-|Hne].
    + rewrite get_set_eq. by intros [= <-].
    + rewrite get_set_ne by done. apply Hw.
Qed.

Lemma channel_named imports w k c :
  reachable imports w →
  JsMap.get k (openChannels (port w)) = Some c → OpenChannel.channel c = k.
Proof.
  intros (b & d & v & os & ->). apply channel_named_run; [apply newWorld_Inv | done].
Qed.


(** X5: an inbound [channelClose] or [channelError] for an open channel ends it:
    the channel's [closed] sink is called, or its [errored] sink with the
    error deserialized together with the stack kept at creation (only if the
    port is verbose); the record leaves the table, the other records, tables
    and signals stay as they are, the count of open communications goes down
    by one and the only other thing done is the report of the edge between
    the two counts. *)
Theorem channel_end imports w channelId openChannel frame sink :
  reachable imports w →
  JsMap.get channelId (openChannels (port w)) = Some openChannel →
  (frame = ServerToClientMessage.channelClose channelId ∧ sink = ChannelClosed channelId)
  ∨ (∃ error,
       frame = ServerToClientMessage.channelError channelId error
       ∧ sink = ChannelErrored channelId
                  (errorDeserializer (port w) error
                     (if verboseErrorMessage (port w)
                      then Some (OpenChannel.stack openChannel) else None))) →
  let w' := (receivedMessage imports frame w).2 in
  (receivedMessage imports frame w).1 = Normal tt
  ∧ effects w'
    = effects w
      ++ sink :: countEdge (openCommunicationsCount (port w))
                   (openCommunicationsCount (port w'))
  ∧ openChannels (port w') = JsMap.delete channelId (openChannels (port w))
  ∧ JsMap.get channelId (openChannels (port w')) = None
  ∧ (∀ k, k ≠ channelId →
          JsMap.get k (openChannels (port w')) = JsMap.get k (openChannels (port w)))
  ∧ S (openCommunicationsCount (port w')) = openCommunicationsCount (port w)
  ∧ ongoingRpcs (port w') = ongoingRpcs (port w)
  ∧ openSignalSubscriptions (port w') = openSignalSubscriptions (port w)
  ∧ openWritableSignalSubscriptions (port w') = openWritableSignalSubscriptions (port w)
  ∧ signals w' = signals w.
Proof.
  intros Hreach Hget Hframe w'.
  pose proof (channel_named _ _ _ _ Hreach Hget) as Hchannel.
  pose proof (reachable_Inv _ _ Hreach) as [[[[Hnd _] _ _ _ _] _ _] Hcount].
  pose proof (size_delete _ _ _ Hget) as Hsize.
  assert (tableSizes (setOpenChannels (JsMap.delete channelId (openChannels (port w)))
                        (port w)) = pred (openCommunicationsCount (port w))) as Hsizes
    by (rewrite Hcount; unfold tableSizes; simpl; lia).
  assert (0 < openCommunicationsCount (port w)) as Hpos
    by (rewrite Hcount; unfold tableSizes; lia).
  subst w'. destruct Hframe as [[-> ->] | (error & -> & ->)].
  all: run_method; rewrite Hget; simpl;
    rewrite updateOpenCommunicationsCount_run; simpl; rewrite Hchannel, Hsizes.
  all: split_and!; try done.
  all: try (by rewrite <- app_assoc).
  all: try (by apply get_delete_eq).
  all: try (intros k Hk; by apply get_delete_ne).
  all: lia.
Qed.

(** X6: an RPC from call to error reply: for as long as the [callId] a [callRpc]
    took is in the table, an inbound [rpcError] for it rejects the promise of
    that call, and of no other, with the error deserialized together with the
    stack of the call (the one passed in, or else the one captured in
    [callRpc]) if the port is verbose and with no stack otherwise; the record
    leaves the table and the count of open communications goes down by
    one. *)
Theorem rpc_error_round_trip imports w endpointName param stack endpoint parameter :
  reachable imports w →
  BackendInterface.getRpcEndpoint endpointName (backendInterface (port w)) = Some endpoint →
  RpcEndpoint.parameter endpoint param = ParseSuccess parameter →
  let callId := nextChannelId (port w) in
  let w1 := (callRpc imports endpointName param stack w).2 in
  ∀ os error,
    let w2 := run imports os w1 in
    let frame := ServerToClientMessage.rpcError callId error in
    let w3 := (receivedMessage imports frame w2).2 in
    let rejection :=
      errorDeserializer (port w) error
        (if verboseErrorMessage (port w)
         then Some (default (getCurrentStack imports 1) stack) else None) in
    is_Some (JsMap.get callId (ongoingRpcs (port w2))) →
    (receivedMessage imports frame w2).1 = Normal tt
    ∧ effects w3
      = effects w2
        ++ Reject callId rejection
           :: countEdge (openCommunicationsCount (port w2))
                (openCommunicationsCount (port w3))
    ∧ (settlement callId (effects w2) = None →
       settlement callId (effects w3) = Some (Rejected rejection))
    ∧ ongoingRpcs (port w3) = JsMap.delete callId (ongoingRpcs (port w2))
    ∧ JsMap.get callId (ongoingRpcs (port w3)) = None
    ∧ S (openCommunicationsCount (port w3)) = openCommunicationsCount (port w2).
Proof.
  intros Hreach He Hp callId w1 os error w2 frame w3 rejection [rpc Hget].
  pose proof (reachable_Inv _ _ Hreach) as HI.
  assert (Inv w1) as HI1 by by apply callRpc_Inv.
  assert (Inv w2) as HI2 by by apply run_Inv.
  pose proof HI2 as [[[_ [Hnd _] _ _ _] _ _] Hcount2].
  assert (OngoingRpc.stack rpc = default (getCurrentStack imports 1) stack
          ∧ OngoingRpc.promise rpc = callId) as [Hstack Hpromise].
  { apply (rpc_stable_run imports os w1) in Hget;
      [|done|subst w1; erewrite callRpc_run by done; simpl; lia].
    subst w1. erewrite callRpc_run in Hget by done. simpl in Hget.
    rewrite get_set_eq in Hget. by injection Hget as <-. }
  assert (errorDeserializer (port w2) = errorDeserializer (port w)
          ∧ verboseErrorMessage (port w2) = verboseErrorMessage (port w)) as [Hd Hv].
  { subst w2. destruct (run_config imports os w1) as (_ & -> & ->).
    subst w1. erewrite callRpc_run by done. done. }
  pose proof (size_delete _ _ _ Hget) as Hsize.
  assert (tableSizes (setOngoingRpcs (JsMap.delete callId (ongoingRpcs (port w2)))
                        (port w2)) = pred (openCommunicationsCount (port w2))) as Hsizes
    by (rewrite Hcount2; unfold tableSizes; simpl; lia).
  assert (0 < openCommunicationsCount (port w2)) as Hpos
    by (rewrite Hcount2; unfold tableSizes; lia).
  subst w3 frame rejection. run_method. rewrite Hget. simpl.
  rewrite updateOpenCommunicationsCount_run. simpl.
  unfold deserialize. rewrite Hd, Hv, Hstack, Hpromise, Hsizes.
  split_and!; try done.
  - by rewrite <- app_assoc.
  - unfold settlement. rewrite <- app_assoc, !omap_app. simpl. rewrite Nat.eqb_refl. simpl.
    destruct (omap (settles callId) (effects w2)); done.
  - by apply get_delete_eq.
  - lia.
Qed.

(** X7: an inbound [signalError] (and likewise [writableSignalError]) for a
    subscription in its table ends it: the error, deserialized together with
    the stack the subscription kept (only if the port is verbose), goes to
    the error listener of the subscription's signal; the record leaves its
    table, the count of open communications goes down by one, and the only
    other thing done is the report of the edge between the two counts.  No
    signal is changed: the signal keeps its value and its observers. *)
Theorem subscription_end imports w subscribeId subscription error :
  reachable imports w →
  let rejection :=
    errorDeserializer (port w) error
      (if verboseErrorMessage (port w)
       then OpenSignalSubscription.stack subscription else None) in
  let sink := SignalErrorListener (OpenSignalSubscription.signal subscription) rejection in
  (JsMap.get subscribeId (openSignalSubscriptions (port w)) = Some subscription →
   let frame := ServerToClientMessage.signalError subscribeId error in
   let w' := (receivedMessage imports frame w).2 in
   (receivedMessage imports frame w).1 = Normal tt
   ∧ effects w'
     = effects w
       ++ sink :: countEdge (openCommunicationsCount (port w))
                    (openCommunicationsCount (port w'))
   ∧ openSignalSubscriptions (port w')
     = JsMap.delete subscribeId (openSignalSubscriptions (port w))
   ∧ JsMap.get subscribeId (openSignalSubscriptions (port w')) = None
   ∧ S (openCommunicationsCount (port w')) = openCommunicationsCount (port w)
   ∧ openWritableSignalSubscriptions (port w') = openWritableSignalSubscriptions (port w)
   ∧ signals w' = signals w)
  ∧ (JsMap.get subscribeId (openWritableSignalSubscriptions (port w)) = Some subscription →
     let frame := ServerToClientMessage.writableSignalError subscribeId error in
     let w' := (receivedMessage imports frame w).2 in
     (receivedMessage imports frame w).1 = Normal tt
     ∧ effects w'
       = effects w
         ++ sink :: countEdge (openCommunicationsCount (port w))
                      (openCommunicationsCount (port w'))
     ∧ openWritableSignalSubscriptions (port w')
       = JsMap.delete subscribeId (openWritableSignalSubscriptions (port w))
     ∧ JsMap.get subscribeId (openWritableSignalSubscriptions (port w')) = None
     ∧ S (openCommunicationsCount (port w')) = openCommunicationsCount (port w)
     ∧ openSignalSubscriptions (port w') = openSignalSubscriptions (port w)
     ∧ signals w' = signals w).
Proof.
  intros Hreach rejection sink.
  pose proof (reachable_Inv _ _ Hreach) as [[[_ _ [Hnd _] [Hndw _] _] _ _] Hcount].
  split; intros Hget frame w'; pose proof (size_delete _ _ _ Hget) as Hsize.
  - assert (tableSizes
              (setOpenSignalSubscriptions
                 (JsMap.delete subscribeId (openSignalSubscriptions (port w))) (port w))
            = pred (openCommunicationsCount (port w))) as Hsizes
      by (rewrite Hcount; unfold tableSizes; simpl; lia).
    assert (0 < openCommunicationsCount (port w)) as Hpos
      by (rewrite Hcount; unfold tableSizes; lia).
    subst w' frame sink rejection. run_method. rewrite Hget. simpl.
    rewrite updateOpenCommunicationsCount_run. simpl. rewrite Hsizes.
    split_and!; try done; [by rewrite <- app_assoc | by apply get_delete_eq | lia].
  - assert (tableSizes
              (setOpenWritableSignalSubscriptions
                 (JsMap.delete subscribeId (openWritableSignalSubscriptions (port w)))
                 (port w))
            = pred (openCommunicationsCount (port w))) as Hsizes
      by (rewrite Hcount; unfold tableSizes; simpl; lia).
    assert (0 < openCommunicationsCount (port w)) as Hpos
      by (rewrite Hcount; unfold tableSizes; lia).
    subst w' frame sink rejection. run_method. rewrite Hget. simpl.
    rewrite updateOpenCommunicationsCount_run. simpl. rewrite Hsizes.
    split_and!; try done; [by rewrite <- app_assoc | by apply get_delete_eq | lia].
Qed.

(** ** Creation that fails *)

(** X8: [createChannel], [createSignal] and [createWritableSignal] fail in two
    ways only, an endpoint name the registry does not have for that kind and
    a creation parameter the endpoint's schema rejects, and a call that
    fails has changed nothing: no identifier is taken, no frame is sent, no
    record or signal is made. *)
Theorem creation_fails_clean imports w endpointName param onMessage stack error :
  ((createChannel imports endpointName param onMessage stack w).1 = Throw error →
   (createChannel imports endpointName param onMessage stack w).2 = w
   ∧ match BackendInterface.getChannelEndpoint endpointName (backendInterface (port w)) with
     | None => error = JsError ("No channel endpoint with name " +:+ endpointName)
     | Some endpoint =>
         ∃ issues, ChannelEndpoint.creationParameter endpoint param = ParseFailure issues
                   ∧ error = ZodError issues
     end)
  ∧ ((createSignal imports endpointName param stack w).1 = Throw error →
     (createSignal imports endpointName param stack w).2 = w
     ∧ match BackendInterface.getSignalEndpoint endpointName (backendInterface (port w)) with
       | None => error = JsError ("No signal endpoint with name " +:+ endpointName)
       | Some endpoint =>
           ∃ issues, SignalEndpoint.creationParameter endpoint param = ParseFailure issues
                     ∧ error = ZodError issues
       end)
  ∧ ((createWritableSignal imports endpointName param stack w).1 = Throw error →
     (createWritableSignal imports endpointName param stack w).2 = w
     ∧ match BackendInterface.getWritableSignalEndpoint endpointName
               (backendInterface (port w)) with
       | None => error = JsError ("No writable signal endpoint with name " +:+ endpointName)
       | Some endpoint =>
           ∃ issues, SignalEndpoint.creationParameter endpoint param = ParseFailure issues
                     ∧ error = ZodError issues
       end).
Proof.
  split_and!.
  - destruct (BackendInterface.getChannelEndpoint endpointName (backendInterface (port w)))
      as [endpoint|] eqn:He.
    + destruct (ChannelEndpoint.creationParameter endpoint param) as [parameter|issues] eqn:Hp.
      * by erewrite createChannel_run.
      * run_method. rewrite He. simpl. rewrite Hp. simpl. intros [= <-]. eauto.
    + run_method. rewrite He. simpl. by intros [= <-].
  - destruct (BackendInterface.getSignalEndpoint endpointName (backendInterface (port w)))
      as [endpoint|] eqn:He.
    + destruct (SignalEndpoint.creationParameter endpoint param) as [parameter|issues] eqn:Hp.
      * run_method. rewrite He. simpl. by rewrite Hp.
      * run_method. rewrite He. simpl. rewrite Hp. simpl. intros [= <-]. eauto.
    + run_method. rewrite He. simpl. by intros [= <-].
  - destruct (BackendInterface.getWritableSignalEndpoint endpointName
                (backendInterface (port w))) as [endpoint|] eqn:He.
    + destruct (SignalEndpoint.creationParameter endpoint param) as [parameter|issues] eqn:Hp.
      * run_method. rewrite He. simpl. by rewrite Hp.
      * run_method. rewrite He. simpl. rewrite Hp. simpl. intros [= <-]. eauto.
    + run_method. rewrite He. simpl. by intros [= <-].
Qed.

(** ** What an inbound frame can do *)

Lemma sentFrame_warningEffects count warning :
  omap sentFrame (warningEffects count warning) = []
  ∨ ∃ sent, omap sentFrame (warningEffects count warning)
            = [ClientToServerMessage.communicationWarning sent].
Proof. unfold warningEffects. repeat case_match; simpl; eauto. Qed.

(** X9: whatever frame the transport delivers, in whatever state the port is,
    [receivedMessage] takes no identifier, adds no record to any table, and
    sends nothing but at most one [communicationWarning] frame.  It returns
    without throwing, with one exception: a [signalUpdate] or
    [writableSignalUpdate] for a [subscribeId] that is in its table, with
    patches [applyPatches] throws on; then what [applyPatches] threw leaves
    [receivedMessage], and the port, the log and the signals are as they
    were.  (The error deserializer is taken to return, as its type says.) *)
Theorem receivedMessage_contained imports message w :
  let w' := (receivedMessage imports message w).2 in
  (receivedMessage imports message w).1
  = match thrownOn imports message w with
    | Some thrown => Throw thrown
    | None => Normal tt
    end
  ∧ (is_Some (thrownOn imports message w) → w' = w)
  ∧ nextChannelId (port w') = nextChannelId (port w)
  ∧ nextSubscribeId (port w') = nextSubscribeId (port w)
  ∧ nextWritableSubscribeId (port w') = nextWritableSubscribeId (port w)
  ∧ JsMap.keys (openChannels (port w')) ⊆ JsMap.keys (openChannels (port w))
  ∧ JsMap.keys (ongoingRpcs (port w')) ⊆ JsMap.keys (ongoingRpcs (port w))
  ∧ JsMap.keys (openSignalSubscriptions (port w'))
    ⊆ JsMap.keys (openSignalSubscriptions (port w))
  ∧ JsMap.keys (openWritableSignalSubscriptions (port w'))
    ⊆ JsMap.keys (openWritableSignalSubscriptions (port w))
  ∧ ∃ es, effects w' = effects w ++ es
          ∧ (omap sentFrame es = []
             ∨ ∃ warning,
                 omap sentFrame es = [ClientToServerMessage.communicationWarning warning]).
Proof.
  intros w'. subst w'. unfold thrownOn, updatedSubscription. destruct message.
  all: run_method; run_cases; simpl.
  all: split_and!; try done; try apply keys_delete_subseteq.
  all: try (by intros [? [=]]).
  all: first [ exists []; split; [by rewrite app_nil_r | by left]
             | rewrite <- ?app_assoc; eexists; (split; [reflexivity|]);
               simpl; rewrite ?omap_countEdge by done;
               first [ by left | apply sentFrame_warningEffects ] ].
Qed.

(** ** Promises that are resolved *)

Lemma resolved_settled (es : list Effect) :
  omap resolvedPromise es ⊆ omap settledPromise es.
Proof.
  induction es as [|e es IH]; [done|]. csimpl.
  destruct e; simpl; try done; try by apply list_subseteq_skip.
  by apply list_subseteq_cons.
Qed.

(** A step calls no [resolve], or the one of a record it removes. *)
Lemma step_resolved imports w o :
  omap resolvedPromise (effects (step imports w o)) = omap resolvedPromise (effects w)
  ∨ ∃ k r, JsMap.get k (ongoingRpcs (port w)) = Some r
           ∧ omap resolvedPromise (effects (step imports w o))
             = omap resolvedPromise (effects w) ++ [OngoingRpc.promise r]
           ∧ ongoingRpcs (port (step imports w o)) = JsMap.delete k (ongoingRpcs (port w)).
Proof.
  unfold step. destruct o as [[]| | | | | | | | |]; unfold perform_operation.
  all: run_method; run_cases; simpl.
  all: rewrite ?omap_app, ?omap_countEdge, ?omap_warningEffects by done; simpl;
    rewrite ?app_nil_r.
  all: try (by left).
  all: try (left; rewrite !(omap_fmap_None resolvedPromise) by done; by rewrite ?app_nil_r).
  right. eauto.
Qed.

Lemma once_resolved_run imports os w :
  Inv w →
  (NoDup (omap resolvedPromise (effects w))
   ∧ ∀ q, q ∈ omap resolvedPromise (effects w) → JsMap.get q (ongoingRpcs (port w)) = None) →
  NoDup (omap resolvedPromise (effects (run imports os w)))
  ∧ ∀ q, q ∈ omap resolvedPromise (effects (run imports os w)) →
         JsMap.get q (ongoingRpcs (port (run imports os w))) = None.
Proof.
  revert w. induction os as [|o os IH]; intros w HI Hw; [done|]. simpl.
  apply IH; [by apply step_Inv|]. destruct Hw as [Hnd Hgone].
  pose proof HI as [[[_ [Hkeys _] _ _ Hprom] [_ _ _ _ Hbelow] _] _].
  destruct (step_resolved imports w o) as [-> | (k & r & Hget & -> & ->)].
  - split; [done|]. intros q Hq.
    destruct (JsMap.get q (ongoingRpcs (port (step imports w o)))) as [r|] eqn:Hr; [|done].
    apply rpc_stable_step in Hr; [|done|].
    + rewrite (Hgone q Hq) in Hr. done.
    + apply Hbelow. by apply resolved_settled.
  - rewrite (Hprom _ _ Hget). split.
    + apply NoDup_app. split_and!; [done| |apply NoDup_singleton].
      intros q Hq ->%list_elem_of_singleton. rewrite (Hgone _ Hq) in Hget. done.
    + intros q [Hq | ->%list_elem_of_singleton]%elem_of_app.
      * destruct (decide (k = q)) as [->|Hne]; [by apply get_delete_eq|].
        rewrite get_delete_ne by done. by apply Hgone.
      * by apply get_delete_eq.
Qed.

Lemma resolved_gone imports w q :
  reachable imports w →
  q ∈ omap resolvedPromise (effects w) → JsMap.get q (ongoingRpcs (port w)) = None.
Proof.
  intros (b & d & v & os & ->). apply once_resolved_run; [apply newWorld_Inv|].
  split; [constructor|]. intros q' Hq. by apply elem_of_nil in Hq.
Qed.

(** X10: over the whole life of a port no promise has its [resolve] called twice,
    and a call whose promise was resolved is no longer in the table of
    ongoing RPCs, so no later frame can reach it. *)
Theorem resolved_once imports w :
  reachable imports w →
  NoDup (omap resolvedPromise (effects w))
  ∧ ∀ q, q ∈ omap resolvedPromise (effects w) → JsMap.get q (ongoingRpcs (port w)) = None.
Proof.
  intros (b & d & v & os & ->). apply once_resolved_run; [apply newWorld_Inv|].
  split; [constructor|]. intros q Hq. by apply elem_of_nil in Hq.
Qed.

(** ** A signal from creation to update *)







(** ** The registry *)

Lemma register_inr r b b' :
  namesTaken b → register r b = inr b' →
  (registrationName r ∉ BackendInterface.existingEndpointNames b)
  ∧ BackendInterface.existingEndpointNames b'
    = {[registrationName r]} ∪ BackendInterface.existingEndpointNames b
  ∧ namesTaken b'
  ∧ stored r b'
  ∧ ∀ n, n ≠ registrationName r →
         BackendInterface.getRpcEndpoint n b' = BackendInterface.getRpcEndpoint n b
         ∧ BackendInterface.getChannelEndpoint n b' = BackendInterface.getChannelEndpoint n b
         ∧ BackendInterface.getSignalEndpoint n b' = BackendInterface.getSignalEndpoint n b.
Proof.
  intros Htaken.
  assert (∀ n, n ∉ BackendInterface.existingEndpointNames b →
               BackendInterface.getRpcEndpoint n b = None
               ∧ BackendInterface.getChannelEndpoint n b = None
               ∧ BackendInterface.getSignalEndpoint n b = None) as Hfree.
  { intros n Hn. split_and!; apply eq_None_not_Some; intros H; apply Hn, Htaken; eauto. }
  destruct r as [n p q | n p q q' | n p q]; simpl;
    unfold BackendInterface.addRpcEndpoint, BackendInterface.addChannelEndpoint,
      BackendInterface.addSignalEndpoint, BackendInterface.assertEndpointNameNotExists;
    (destruct (decide (n ∈ BackendInterface.existingEndpointNames b)) as [|Hn]; [done|]);
    intros [= <-]; destruct (Hfree n Hn) as (Hr & Hc & Hs);
    unfold namesTaken, stored, BackendInterface.getRpcEndpoint,
      BackendInterface.getChannelEndpoint, BackendInterface.getSignalEndpoint in *; simpl.
  all: split_and!; try done; try (by rewrite lookup_insert_eq).
  all: try (intros m Hm; destruct (decide (m = n)) as [->|Hne];
              [by apply elem_of_union_l, elem_of_singleton|];
            rewrite ?lookup_insert_ne in Hm by done; apply elem_of_union_r, Htaken, Hm).
  all: intros m Hm; by rewrite lookup_insert_ne.
Qed.

Lemma stored_ext r b b' :
  BackendInterface.getRpcEndpoint (registrationName r) b'
  = BackendInterface.getRpcEndpoint (registrationName r) b →
  BackendInterface.getChannelEndpoint (registrationName r) b'
  = BackendInterface.getChannelEndpoint (registrationName r) b →
  BackendInterface.getSignalEndpoint (registrationName r) b'
  = BackendInterface.getSignalEndpoint (registrationName r) b →
  stored r b → stored r b'.
Proof. destruct r; simpl; intros -> -> ->; done. Qed.

Lemma chain_inr rs b0 b :
  namesTaken b0 → chain rs b0 = inr b →
  namesTaken b
  ∧ BackendInterface.existingEndpointNames b
    = list_to_set (registrationName <$> rs) ∪ BackendInterface.existingEndpointNames b0
  ∧ NoDup (registrationName <$> rs)
  ∧ (∀ n, n ∈ registrationName <$> rs → n ∉ BackendInterface.existingEndpointNames b0)
  ∧ (∀ n, n ∉ registrationName <$> rs →
          BackendInterface.getRpcEndpoint n b = BackendInterface.getRpcEndpoint n b0
          ∧ BackendInterface.getChannelEndpoint n b
            = BackendInterface.getChannelEndpoint n b0
          ∧ BackendInterface.getSignalEndpoint n b
            = BackendInterface.getSignalEndpoint n b0)
  ∧ ∀ r, r ∈ rs → stored r b.
Proof.
  revert b0. induction rs as [|r rs IH]; intros b0 Htaken; simpl.
  - intros [= <-]. split_and!; try done.
    + simpl. by rewrite (left_id_L ∅ (∪)).
    + constructor.
    + intros n Hn. by apply elem_of_nil in Hn.
    + intros r Hr. by apply elem_of_nil in Hr.
  - destruct (register r b0) as [e|b1] eqn:Hregister; [done|]. intros Hchain.
    destruct (register_inr _ _ _ Htaken Hregister) as (Hnew & Hnames & Htaken1 & Hstored & Hsame).
    destruct (IH _ Htaken1 Hchain) as (Htaken' & Hnames' & Hnd & Hfresh & Hsame' & Hstored').
    assert (registrationName r ∉ registrationName <$> rs) as Hnotin.
    { intros Hin. apply (Hfresh _ Hin). rewrite Hnames.
      by apply elem_of_union_l, elem_of_singleton. }
    split_and!.
    + done.
    + rewrite Hnames', Hnames. csimpl.
      by rewrite (assoc_L (∪)), (comm_L (∪) (list_to_set _)).
    + csimpl. by constructor.
    + csimpl. intros n [->|Hn]%elem_of_cons; [done|].
      intros Hin. apply (Hfresh _ Hn). rewrite Hnames. by apply elem_of_union_r.
    + csimpl. intros n [Hne Hn]%not_elem_of_cons.
      destruct (Hsame' n Hn) as (-> & -> & ->). by apply Hsame.
    + intros r' [->|Hr']%elem_of_cons; [|by apply Hstored'].
      destruct (Hsame' _ Hnotin) as (Hr & Hc & Hs). by apply (stored_ext r b1).
Qed.

Lemma namesTaken_new : namesTaken BackendInterface.new.
Proof.
  intros n. unfold BackendInterface.getRpcEndpoint, BackendInterface.getChannelEndpoint,
    BackendInterface.getSignalEndpoint. simpl. rewrite !lookup_empty.
  intros [[? [=]] | [[? [=]] | [? [=]]]].
Qed.

Lemma registration_named (rs : list Registration) n :
  n ∈ registrationName <$> rs → ∃ r, r ∈ rs ∧ registrationName r = n.
Proof. intros (r & -> & Hr)%list_elem_of_fmap. eauto. Qed.

(** X13: in a registry built by a chain of registrations every endpoint
    registered is found under its name, with the schemas it was registered
    with, in the map of its kind; a name resolves in at most one of the three
    kinds, to an endpoint that carries that name; and a name nobody
    registered resolves in none.  The names taken are the names
    registered, each registered once. *)
Theorem registry_lookup rs b :
  chain rs BackendInterface.new = inr b →
  NoDup (registrationName <$> rs)
  ∧ (∀ r, r ∈ rs → stored r b)
  ∧ (∀ n, n ∈ BackendInterface.existingEndpointNames b ↔ n ∈ registrationName <$> rs)
  ∧ (∀ n, n ∉ registrationName <$> rs →
          BackendInterface.getRpcEndpoint n b = None
          ∧ BackendInterface.getChannelEndpoint n b = None
          ∧ BackendInterface.getSignalEndpoint n b = None)
  ∧ (∀ n e, BackendInterface.getRpcEndpoint n b = Some e →
            RpcEndpoint.name e = n
            ∧ BackendInterface.getChannelEndpoint n b = None
            ∧ BackendInterface.getSignalEndpoint n b = None)
  ∧ (∀ n e, BackendInterface.getChannelEndpoint n b = Some e →
            ChannelEndpoint.name e = n
            ∧ BackendInterface.getRpcEndpoint n b = None
            ∧ BackendInterface.getSignalEndpoint n b = None)
  ∧ (∀ n e, BackendInterface.getSignalEndpoint n b = Some e →
            SignalEndpoint.name e = n
            ∧ BackendInterface.getRpcEndpoint n b = None
            ∧ BackendInterface.getChannelEndpoint n b = None).
Proof.
  intros Hchain.
  destruct (chain_inr _ _ _ namesTaken_new Hchain)
    as (_ & Hnames & Hnd & _ & Hsame & Hstored).
  assert (∀ n, n ∉ registrationName <$> rs →
               BackendInterface.getRpcEndpoint n b = None
               ∧ BackendInterface.getChannelEndpoint n b = None
               ∧ BackendInterface.getSignalEndpoint n b = None) as Hnone.
  { intros n Hn. destruct (Hsame n Hn) as (-> & -> & ->).
    unfold BackendInterface.getRpcEndpoint, BackendInterface.getChannelEndpoint,
      BackendInterface.getSignalEndpoint. simpl. by rewrite !lookup_empty. }
  assert (∀ n, is_Some (BackendInterface.getRpcEndpoint n b)
               ∨ is_Some (BackendInterface.getChannelEndpoint n b)
               ∨ is_Some (BackendInterface.getSignalEndpoint n b) →
               ∃ r, r ∈ rs ∧ registrationName r = n ∧ stored r b) as Hfrom.
  { intros n Hn. destruct (decide (n ∈ registrationName <$> rs)) as [Hin|Hout].
    - destruct (registration_named _ _ Hin) as (r & Hr & <-). eauto.
    - destruct (Hnone n Hout) as (Hr & Hc & Hs). rewrite Hr, Hc, Hs in Hn.
      destruct Hn as [[? [=]] | [[? [=]] | [? [=]]]]. }
  split_and!; [done | done | | done | ..].
  - intros n. rewrite Hnames. simpl.
    by rewrite (right_id_L ∅ (∪)), elem_of_list_to_set.
  - intros n e He. destruct (Hfrom n) as (r & _ & <- & Hr); [eauto|].
    destruct r; simpl in *; destruct Hr as (H1 & H2 & H3); rewrite ?H1, ?H2, ?H3 in He;
      try done. by injection He as <-.
  - intros n e He. destruct (Hfrom n) as (r & _ & <- & Hr); [eauto|].
    destruct r; simpl in *; destruct Hr as (H1 & H2 & H3); rewrite ?H1, ?H2, ?H3 in He;
      try done. by injection He as <-.
  - intros n e He. destruct (Hfrom n) as (r & _ & <- & Hr); [eauto|].
    destruct r; simpl in *; destruct Hr as (H1 & H2 & H3); rewrite ?H1, ?H2, ?H3 in He;
      try done. by injection He as <-.
Qed.

Lemma register_taken r b :
  registrationName r ∈ BackendInterface.existingEndpointNames b →
  register r b
  = inl (JsError ("Endpoint with name " +:+ registrationName r +:+ " already exists")).
Proof.
  intros Hin. destruct r; simpl;
    unfold BackendInterface.addRpcEndpoint, BackendInterface.addChannelEndpoint,
      BackendInterface.addSignalEndpoint, BackendInterface.assertEndpointNameNotExists;
    by rewrite decide_True.
Qed.

Lemma register_free r b :
  registrationName r ∉ BackendInterface.existingEndpointNames b →
  ∃ b', register r b = inr b'.
Proof.
  intros Hout. destruct r; simpl;
    unfold BackendInterface.addRpcEndpoint, BackendInterface.addChannelEndpoint,
      BackendInterface.addSignalEndpoint, BackendInterface.assertEndpointNameNotExists;
    rewrite decide_False by done; eauto.
Qed.

Lemma chain_outcome rs b0 :
  namesTaken b0 →
  match chain rs b0 with
  | inr _ =>
      NoDup (registrationName <$> rs)
      ∧ ∀ n, n ∈ registrationName <$> rs → n ∉ BackendInterface.existingEndpointNames b0
  | inl e =>
      ∃ n, e = JsError ("Endpoint with name " +:+ n +:+ " already exists")
           ∧ n ∈ registrationName <$> rs
           ∧ (n ∈ BackendInterface.existingEndpointNames b0
              ∨ ¬ NoDup (registrationName <$> rs))
  end.
Proof.
  revert b0. induction rs as [|r rs IH]; intros b0 Htaken.
  - simpl. split; [constructor|]. intros n Hn. by apply elem_of_nil in Hn.
  - destruct (chain (r :: rs) b0) as [e|b] eqn:Hchain.
    + simpl in Hchain. csimpl.
      destruct (decide (registrationName r ∈ BackendInterface.existingEndpointNames b0))
        as [Hin|Hout].
      * rewrite register_taken in Hchain by done. injection Hchain as <-.
        eexists. split_and!; [done | by left | by left].
      * destruct (register_free r b0 Hout) as [b1 Hregister]. rewrite Hregister in Hchain.
        destruct (register_inr _ _ _ Htaken Hregister) as (_ & Hnames & Htaken1 & _).
        specialize (IH b1 Htaken1). rewrite Hchain in IH.
        destruct IH as (n & -> & Hn & Hwhy). exists n. split_and!; [done | by right |].
        rewrite Hnames in Hwhy. destruct Hwhy as [[->%elem_of_singleton|Hin]%elem_of_union|Hdup].
        -- right. intros [Hnotin _]%NoDup_cons. done.
        -- by left.
        -- right. intros [_ Hnd]%NoDup_cons. done.
    + by destruct (chain_inr _ _ _ Htaken Hchain) as (_ & _ & Hnd & Hfresh & _).
Qed.

(** X14: a chain of registrations on a new registry goes through exactly when no
    name is registered twice, whatever the kinds of the endpoints; otherwise
    it stops with the already-exists error for a name that is registered
    twice. *)
Theorem registry_chain_outcome rs :
  ((∃ b, chain rs BackendInterface.new = inr b) ↔ NoDup (registrationName <$> rs))
  ∧ ∀ e, chain rs BackendInterface.new = inl e →
         ∃ n, e = JsError ("Endpoint with name " +:+ n +:+ " already exists")
              ∧ n ∈ registrationName <$> rs
              ∧ ¬ NoDup (registrationName <$> rs).
Proof.
  pose proof (chain_outcome rs BackendInterface.new namesTaken_new) as H.
  destruct (chain rs BackendInterface.new) as [e|b].
  - destruct H as (n & -> & Hn & [Hin|Hdup]); [by apply elem_of_empty in Hin|]. split.
    + split; [by intros [? [=]] | done].
    + intros ? [= <-]. eauto.
  - destruct H as [Hnd _]. split; [|done]. split; eauto.
Qed.

(** X15: [createSystemBackendInterface] returns a registry, it does not throw:
    [echo] and [listDownloadedModels] are its RPC endpoints, [test] is its
    signal endpoint, each with the schemas written in the source, and no
    other name resolves to anything. *)
Theorem createSystemBackendInterface_registry downloadedModels :
  ∃ b, createSystemBackendInterface downloadedModels = inr b
       ∧ BackendInterface.getRpcEndpoint "echo" b
         = Some {| RpcEndpoint.name := "echo";
                   RpcEndpoint.parameter := Scenario.zString;
                   RpcEndpoint.returns := Scenario.zString |}
       ∧ BackendInterface.getRpcEndpoint "listDownloadedModels" b
         = Some {| RpcEndpoint.name := "listDownloadedModels";
                   RpcEndpoint.parameter := zVoid;
                   RpcEndpoint.returns := downloadedModels |}
       ∧ BackendInterface.getSignalEndpoint "test" b
         = Some {| SignalEndpoint.name := "test";
                   SignalEndpoint.creationParameter := Scenario.zString;
                   SignalEndpoint.signalData := Scenario.zString |}
       ∧ BackendInterface.channelEndpoints b = ∅
       ∧ ∀ n, n ∉ ["echo"; "listDownloadedModels"; "test"] →
              BackendInterface.getRpcEndpoint n b = None
              ∧ BackendInterface.getSignalEndpoint n b = None.
Proof.
  unfold createSystemBackendInterface.
  set (rs := [RegisterRpc "echo" Scenario.zString Scenario.zString;
              RegisterRpc "listDownloadedModels" zVoid downloadedModels;
              RegisterSignal "test" Scenario.zString Scenario.zString]).
  assert (NoDup (registrationName <$> rs)) as Hnd
    by (subst rs; apply (bool_decide_unpack _); by vm_compute).
  pose proof (chain_outcome rs BackendInterface.new namesTaken_new) as Hfails.
  destruct (chain rs BackendInterface.new) as [e|b] eqn:Hchain.
  { destruct Hfails as (n & _ & _ & [Hin|Hdup]); [by apply elem_of_empty in Hin | done]. }
  exists b. split; [done|].
  destruct (chain_inr _ _ _ namesTaken_new Hchain) as (_ & _ & _ & _ & Hsame & Hstored).
  assert (∀ n, n ∉ registrationName <$> rs →
               BackendInterface.getRpcEndpoint n b = None
               ∧ BackendInterface.getChannelEndpoint n b = None
               ∧ BackendInterface.getSignalEndpoint n b = None) as Hnone.
  { intros n Hn. destruct (Hsame n Hn) as (-> & -> & ->).
    unfold BackendInterface.getRpcEndpoint, BackendInterface.getChannelEndpoint,
      BackendInterface.getSignalEndpoint. simpl. by rewrite !lookup_empty. }
  split_and!.
  - apply (Hstored (RegisterRpc "echo" Scenario.zString Scenario.zString)).
    by repeat constructor.
  - apply (Hstored (RegisterRpc "listDownloadedModels" zVoid downloadedModels)).
    by repeat constructor.
  - apply (Hstored (RegisterSignal "test" Scenario.zString Scenario.zString)).
    by repeat constructor.
  - apply map_eq. intros n. rewrite lookup_empty.
    destruct (decide (n ∈ registrationName <$> rs)) as [Hin|Hout].
    + destruct (registration_named _ _ Hin) as (r & Hr & <-).
      specialize (Hstored r Hr). subst rs.
      repeat (apply elem_of_cons in Hr as [->|Hr]); [..|by apply elem_of_nil in Hr];
        apply Hstored.
    + apply (Hnone n Hout).
  - intros n Hn. destruct (Hnone n Hn) as (? & _ & ?). done.
Qed.

(** ** Handlers *)

Lemma after_unhandled h c :
  Handlers.unhandledEndpoints h = [] →
  Handlers.unhandledEndpoints (Handlers.after h c) = [].
Proof.
  intros Hnone. unfold Handlers.after, Handlers.call.
  destruct c; simpl;
    unfold Handlers.addRpcEndpoint, Handlers.addChannelEndpoint, Handlers.addSignalEndpoint,
      Handlers.handleRpcEndpoint, Handlers.handleChannelEndpoint,
      Handlers.handleSignalEndpoint;
    repeat case_match; simplify_eq; simpl; try done; by rewrite Hnone.
Qed.

(** X16: however an interface was built, [assertAllEndpointsHandled] returns
    and never throws, also when endpoints were registered and never given a
    handler: the set of unhandled endpoints it looks at is never added to, so
    it is empty whatever was called before. *)
Theorem assertAllEndpointsHandled_never_throws cs :
  Handlers.unhandledEndpoints (Handlers.afterAll cs Handlers.new) = []
  ∧ Handlers.assertAllEndpointsHandled (Handlers.afterAll cs Handlers.new) = None.
Proof.
  assert (∀ h, Handlers.unhandledEndpoints h = [] →
               Handlers.unhandledEndpoints (Handlers.afterAll cs h) = []) as H.
  { induction cs as [|c cs IH]; intros h Hh; [done|]. simpl.
    by apply IH, after_unhandled. }
  specialize (H Handlers.new eq_refl). split; [done|].
  unfold Handlers.assertAllEndpointsHandled. by rewrite H.
Qed.

Ltac unfold_call :=
  unfold Handlers.after, Handlers.call, Handlers.addRpcEndpoint, Handlers.addChannelEndpoint,
    Handlers.addSignalEndpoint, Handlers.handleRpcEndpoint, Handlers.handleChannelEndpoint,
    Handlers.handleSignalEndpoint.

(** One call keeps the names taken, the endpoints registered and the
    handlers held, and keeps handlers to registered endpoints. *)
Lemma after_keeps h c :
  namesTaken (Handlers.registry h) → Handlers.handlersRegistered h →
  namesTaken (Handlers.registry (Handlers.after h c))
  ∧ Handlers.handlersRegistered (Handlers.after h c)
  ∧ (∀ n, is_Some (BackendInterface.getRpcEndpoint n (Handlers.registry h)) →
          BackendInterface.getRpcEndpoint n (Handlers.registry (Handlers.after h c))
          = BackendInterface.getRpcEndpoint n (Handlers.registry h))
  ∧ (∀ n, is_Some (BackendInterface.getChannelEndpoint n (Handlers.registry h)) →
          BackendInterface.getChannelEndpoint n (Handlers.registry (Handlers.after h c))
          = BackendInterface.getChannelEndpoint n (Handlers.registry h))
  ∧ (∀ n, is_Some (BackendInterface.getSignalEndpoint n (Handlers.registry h)) →
          BackendInterface.getSignalEndpoint n (Handlers.registry (Handlers.after h c))
          = BackendInterface.getSignalEndpoint n (Handlers.registry h))
  ∧ (∀ n f, Handlers.rpcHandlers h !! n = Some f →
            Handlers.rpcHandlers (Handlers.after h c) !! n = Some f)
  ∧ (∀ n f, Handlers.channelHandlers h !! n = Some f →
            Handlers.channelHandlers (Handlers.after h c) !! n = Some f)
  ∧ (∀ n f, Handlers.signalHandlers h !! n = Some f →
            Handlers.signalHandlers (Handlers.after h c) !! n = Some f).
Proof.
  intros Htaken (Hrpc & Hchannel & Hsignal).
  destruct c as [n p q | n p q q' | n p q | n f | n f | n f].
  - unfold_call.
    destruct (BackendInterface.addRpcEndpoint n p q (Handlers.registry h)) as [e|b'] eqn:Hadd;
      [by split_and!|].
    destruct (register_inr (RegisterRpc n p q) _ _ Htaken Hadd)
      as (Hnew & _ & Htaken' & _ & Hsame). simpl in *.
    assert (∀ m, m ∈ BackendInterface.existingEndpointNames (Handlers.registry h) → m ≠ n)
      as Hne by (intros m Hm ->; done).
    split_and!; try done.
    + split_and!; simpl; intros m g Hm.
      * apply lookup_delete_Some in Hm as [Hmn Hm].
        destruct (Hsame m) as (-> & _ & _); [done|]. by eapply Hrpc.
      * destruct (Hsame m) as (_ & -> & _); [|by eapply Hchannel].
        apply Hne, Htaken. right. left. by eapply Hchannel.
      * destruct (Hsame m) as (_ & _ & ->); [|by eapply Hsignal].
        apply Hne, Htaken. right. right. by eapply Hsignal.
    + intros m Hm. apply Hsame, Hne, Htaken. by left.
    + intros m Hm. apply Hsame, Hne, Htaken. right. by left.
    + intros m Hm. apply Hsame, Hne, Htaken. right. by right.
    + simpl. intros m g Hm. rewrite lookup_delete_ne; [done|].
      intros <-. apply (Hne n); [|done]. apply Htaken. left. by eapply Hrpc.
  - unfold_call.
    destruct (BackendInterface.addChannelEndpoint n p q q' (Handlers.registry h))
      as [e|b'] eqn:Hadd; [by split_and!|].
    destruct (register_inr (RegisterChannel n p q q') _ _ Htaken Hadd)
      as (Hnew & _ & Htaken' & _ & Hsame). simpl in *.
    assert (∀ m, m ∈ BackendInterface.existingEndpointNames (Handlers.registry h) → m ≠ n)
      as Hne by (intros m Hm ->; done).
    split_and!; try done.
    + split_and!; simpl; intros m g Hm.
      * destruct (Hsame m) as (-> & _ & _); [|by eapply Hrpc].
        apply Hne, Htaken. left. by eapply Hrpc.
      * apply lookup_delete_Some in Hm as [Hmn Hm].
        destruct (Hsame m) as (_ & -> & _); [done|]. by eapply Hchannel.
      * destruct (Hsame m) as (_ & _ & ->); [|by eapply Hsignal].
        apply Hne, Htaken. right. right. by eapply Hsignal.
    + intros m Hm. apply Hsame, Hne, Htaken. by left.
    + intros m Hm. apply Hsame, Hne, Htaken. right. by left.
    + intros m Hm. apply Hsame, Hne, Htaken. right. by right.
    + simpl. intros m g Hm. rewrite lookup_delete_ne; [done|].
      intros <-. apply (Hne n); [|done]. apply Htaken. right. left. by eapply Hchannel.
  - unfold_call.
    destruct (BackendInterface.addSignalEndpoint n p q (Handlers.registry h))
      as [e|b'] eqn:Hadd; [by split_and!|].
    destruct (register_inr (RegisterSignal n p q) _ _ Htaken Hadd)
      as (Hnew & _ & Htaken' & _ & Hsame). simpl in *.
    assert (∀ m, m ∈ BackendInterface.existingEndpointNames (Handlers.registry h) → m ≠ n)
      as Hne by (intros m Hm ->; done).
    split_and!; try done.
    + split_and!; simpl; intros m g Hm.
      * destruct (Hsame m) as (-> & _ & _); [|by eapply Hrpc].
        apply Hne, Htaken. left. by eapply Hrpc.
      * destruct (Hsame m) as (_ & -> & _); [|by eapply Hchannel].
        apply Hne, Htaken. right. left. by eapply Hchannel.
      * apply lookup_delete_Some in Hm as [Hmn Hm].
        destruct (Hsame m) as (_ & _ & ->); [done|]. by eapply Hsignal.
    + intros m Hm. apply Hsame, Hne, Htaken. by left.
    + intros m Hm. apply Hsame, Hne, Htaken. right. by left.
    + intros m Hm. apply Hsame, Hne, Htaken. right. by right.
    + simpl. intros m g Hm. rewrite lookup_delete_ne; [done|].
      intros <-. apply (Hne n); [|done]. apply Htaken. right. right. by eapply Hsignal.
  - unfold_call.
    destruct (BackendInterface.getRpcEndpoint n (Handlers.registry h)) as [e|] eqn:He;
      [|by split_and!].
    destruct (Handlers.rpcHandlers h !! n) as [g|] eqn:Hg; [by split_and!|]. simpl.
    split_and!; try done.
    + split_and!; simpl; [|done..]. intros m g.
      destruct (decide (n = m)) as [<-|Hne]; [by rewrite He|].
      rewrite lookup_insert_ne by done. apply Hrpc.
    + intros m g Hm. rewrite lookup_insert_ne; [done|]. intros <-. by rewrite Hg in Hm.
  - unfold_call.
    destruct (BackendInterface.getChannelEndpoint n (Handlers.registry h)) as [e|] eqn:He;
      [|by split_and!].
    destruct (Handlers.channelHandlers h !! n) as [g|] eqn:Hg; [by split_and!|]. simpl.
    split_and!; try done.
    + split_and!; simpl; [done| |done]. intros m g.
      destruct (decide (n = m)) as [<-|Hne]; [by rewrite He|].
      rewrite lookup_insert_ne by done. apply Hchannel.
    + intros m g Hm. rewrite lookup_insert_ne; [done|]. intros <-. by rewrite Hg in Hm.
  - unfold_call.
    destruct (BackendInterface.getSignalEndpoint n (Handlers.registry h)) as [e|] eqn:He;
      [|by split_and!].
    destruct (Handlers.signalHandlers h !! n) as [g|] eqn:Hg; [by split_and!|]. simpl.
    split_and!; try done.
    + split_and!; simpl; [done|done|]. intros m g.
      destruct (decide (n = m)) as [<-|Hne]; [by rewrite He|].
      rewrite lookup_insert_ne by done. apply Hsignal.
    + intros m g Hm. rewrite lookup_insert_ne; [done|]. intros <-. by rewrite Hg in Hm.
Qed.

Lemma afterAll_keeps cs h :
  namesTaken (Handlers.registry h) → Handlers.handlersRegistered h →
  namesTaken (Handlers.registry (Handlers.afterAll cs h))
  ∧ Handlers.handlersRegistered (Handlers.afterAll cs h)
  ∧ (∀ n, is_Some (BackendInterface.getRpcEndpoint n (Handlers.registry h)) →
          BackendInterface.getRpcEndpoint n (Handlers.registry (Handlers.afterAll cs h))
          = BackendInterface.getRpcEndpoint n (Handlers.registry h))
  ∧ (∀ n, is_Some (BackendInterface.getChannelEndpoint n (Handlers.registry h)) →
          BackendInterface.getChannelEndpoint n (Handlers.registry (Handlers.afterAll cs h))
          = BackendInterface.getChannelEndpoint n (Handlers.registry h))
  ∧ (∀ n, is_Some (BackendInterface.getSignalEndpoint n (Handlers.registry h)) →
          BackendInterface.getSignalEndpoint n (Handlers.registry (Handlers.afterAll cs h))
          = BackendInterface.getSignalEndpoint n (Handlers.registry h))
  ∧ (∀ n f, Handlers.rpcHandlers h !! n = Some f →
            Handlers.rpcHandlers (Handlers.afterAll cs h) !! n = Some f)
  ∧ (∀ n f, Handlers.channelHandlers h !! n = Some f →
            Handlers.channelHandlers (Handlers.afterAll cs h) !! n = Some f)
  ∧ (∀ n f, Handlers.signalHandlers h !! n = Some f →
            Handlers.signalHandlers (Handlers.afterAll cs h) !! n = Some f).
Proof.
  revert h. induction cs as [|c cs IH]; intros h Htaken Hreg; [by split_and!|]. simpl.
  destruct (after_keeps h c Htaken Hreg)
    as (Htaken1 & Hreg1 & Hr1 & Hc1 & Hs1 & Hrh1 & Hch1 & Hsh1).
  destruct (IH _ Htaken1 Hreg1) as (Htaken' & Hreg' & Hr' & Hc' & Hs' & Hrh' & Hch' & Hsh').
  split_and!; [done|done|..].
  - intros n Hn. rewrite <- (Hr1 n Hn). apply Hr'. by rewrite (Hr1 n Hn).
  - intros n Hn. rewrite <- (Hc1 n Hn). apply Hc'. by rewrite (Hc1 n Hn).
  - intros n Hn. rewrite <- (Hs1 n Hn). apply Hs'. by rewrite (Hs1 n Hn).
  - intros n f Hn. by apply Hrh', Hrh1.
  - intros n f Hn. by apply Hch', Hch1.
  - intros n f Hn. by apply Hsh', Hsh1.
Qed.

Lemma handlersRegistered_new : Handlers.handlersRegistered Handlers.new.
Proof. split_and!; intros n f; simpl; by rewrite lookup_empty. Qed.

(** X17: a handler, once set, stays: in an interface built by calls of the
    registration and handler methods, a handler is only ever held for an
    endpoint registered in its kind, and whatever is called afterwards that
    endpoint keeps this handler; another handler offered for it is refused
    with the already-has-a-handler error. *)
Theorem handler_set_once cs cs' n f g :
  let h := Handlers.afterAll cs Handlers.new in
  let h' := Handlers.afterAll cs' h in
  (Handlers.rpcHandlers h !! n = Some f →
   is_Some (BackendInterface.getRpcEndpoint n (Handlers.registry h))
   ∧ Handlers.rpcHandlers h' !! n = Some f
   ∧ Handlers.handleRpcEndpoint n g h'
     = inl (JsError ("Rpc endpoint with name " +:+ n +:+ " already has a handler")))
  ∧ (Handlers.channelHandlers h !! n = Some f →
     is_Some (BackendInterface.getChannelEndpoint n (Handlers.registry h))
     ∧ Handlers.channelHandlers h' !! n = Some f
     ∧ Handlers.handleChannelEndpoint n g h'
       = inl (JsError ("Channel endpoint with name " +:+ n +:+ " already has a handler")))
  ∧ (Handlers.signalHandlers h !! n = Some f →
     is_Some (BackendInterface.getSignalEndpoint n (Handlers.registry h))
     ∧ Handlers.signalHandlers h' !! n = Some f
     ∧ Handlers.handleSignalEndpoint n g h'
       = inl (JsError ("Signal endpoint with name " +:+ n +:+ " already has a handler"))).
Proof.
  intros h h'. subst h h'.
  destruct (afterAll_keeps cs Handlers.new namesTaken_new handlersRegistered_new)
    as (Htaken & (Hrpc & Hchannel & Hsignal) & _).
  destruct (afterAll_keeps cs' _ Htaken (conj Hrpc (conj Hchannel Hsignal)))
    as (_ & _ & Hr & Hc & Hs & Hrh & Hch & Hsh).
  split_and!; intros Hn.
  - pose proof (Hrpc _ _ Hn) as [e He]. split_and!; [by eauto | by apply Hrh|].
    unfold Handlers.handleRpcEndpoint. rewrite Hr, He by eauto.
    by rewrite (Hrh _ _ Hn).
  - pose proof (Hchannel _ _ Hn) as [e He]. split_and!; [by eauto | by apply Hch|].
    unfold Handlers.handleChannelEndpoint. rewrite Hc, He by eauto.
    by rewrite (Hch _ _ Hn).
  - pose proof (Hsignal _ _ Hn) as [e He]. split_and!; [by eauto | by apply Hsh|].
    unfold Handlers.handleSignalEndpoint. rewrite Hs, He by eauto.
    by rewrite (Hsh _ _ Hn).
Qed.

(** ** Setters *)

Lemma cwt_concat allTags : Setter.cwt allTags = concat (omap id allTags).
Proof.
  unfold Setter.cwt. generalize (omap id allTags). intros l.
  assert (∀ acc, foldl (λ acc tags : list WriteTag, acc ++ tags) acc l = acc ++ concat l)
    as H; [|apply H].
  induction l as [|tags l IH]; intros acc; simpl; [by rewrite app_nil_r|].
  by rewrite IH, app_assoc.
Qed.

(** X18: each of the four ways to write through a setter made by
    [makeSetterWithPatches] calls [update] once, with the tags of
    [prependTagsFn] (if there is one) followed by the tags of the call (if
    given), always a list, and with an updater whose patches tell the whole
    change: applied to the old data they give the new data it returns, which
    is the value given, what the updater given makes of the old data, what
    the patches given make of it, or what immer produced; with patches given
    that [applyPatches] throws on, the updater throws what it threw.  This
    holds for any patch engine that replaces the document on a replacement
    of the root and whose [produceWithPatches] returns patches that lead from
    the old data to the new. *)
Theorem setter_patches_tell_the_change {Producer} imports
    (produceWithPatches : Value → Producer → Value * list Patch.t) prependTagsFn tags :
  (∀ oldData value,
     applyPatches imports oldData (Setter.makeRootReplacingPatches value) = inr value) →
  (∀ oldData producer,
     applyPatches imports oldData (produceWithPatches oldData producer).2
     = inr (produceWithPatches oldData producer).1) →
  let setter :=
    Setter.makeSetterWithPatches imports produceWithPatches Setter.called prependTagsFn in
  let allTags := default [] (Setter.prependTags prependTagsFn) ++ default [] tags in
  (∀ value oldData,
     (Setter.set setter value tags).2 = allTags
     ∧ ∃ patches,
         (Setter.set setter value tags).1 oldData = inr (value, patches)
         ∧ applyPatches imports oldData patches = inr value)
  ∧ (∀ updater oldData,
       (Setter.withUpdater setter updater tags).2 = allTags
       ∧ ∃ patches,
           (Setter.withUpdater setter updater tags).1 oldData
           = inr (updater oldData, patches)
           ∧ applyPatches imports oldData patches = inr (updater oldData))
  ∧ (∀ patches oldData,
       (Setter.withPatches setter patches tags).2 = allTags
       ∧ (Setter.withPatches setter patches tags).1 oldData
         = match applyPatches imports oldData patches with
           | inr newData => inr (newData, patches)
           | inl thrown => inl thrown
           end)
  ∧ (∀ producer oldData,
       (Setter.withImmer setter producer tags).2 = allTags
       ∧ (Setter.withImmer setter producer tags).1 oldData
         = inr (produceWithPatches oldData producer)
       ∧ applyPatches imports oldData (produceWithPatches oldData producer).2
         = inr (produceWithPatches oldData producer).1).
Proof.
  intros Hroot Hproduce setter allTags.
  assert (Setter.cwt [Setter.prependTags prependTagsFn; tags] = allTags) as Htags.
  { rewrite cwt_concat. subst allTags.
    destruct (Setter.prependTags prependTagsFn), tags; simpl; by rewrite ?app_nil_r. }
  subst setter. simpl. split_and!; intros x oldData; rewrite Htags; split_and!; try done.
  - eexists. split; [reflexivity|]. apply Hroot.
  - eexists. split; [reflexivity|]. apply Hroot.
  - by destruct (produceWithPatches oldData x).
Qed.

(** ** The properties at work on the concrete port *)

Lemma count_is_table_sizes_witness :
  reachable Scenario.imports Scenario.twoRpcsOneChannel
  ∧ openCommunicationsCount (port Scenario.twoRpcsOneChannel)
    = tableSizes (port Scenario.twoRpcsOneChannel)
  ∧ JsMap.get 3 (ongoingRpcs (port Scenario.twoRpcsOneChannel)) = None.
Proof.
  assert (reachable Scenario.imports Scenario.twoRpcsOneChannel) as Hreach.
  { exists Scenario.backendInterface, None, None,
      [CallRpc "add" (Scenario.addParameter 2 3) None;
       CallRpc "add" (Scenario.addParameter 4 5) None;
       CreateChannel "chat" (VStr "hello") None None].
    reflexivity. }
  split; [exact Hreach|].
  destruct (count_is_table_sizes Scenario.imports Scenario.twoRpcsOneChannel Hreach)
    as (Hcount & _ & Hfree & _).
  split; [exact Hcount | exact Hfree].
Defined.

Lemma edges_alternate_witness :
  reachable Scenario.imports Example.oneRpcResolved
  ∧ ∃ n, omap transportEdge (effects Example.oneRpcResolved) = alternating n
         ∧ (Nat.even n ↔ openCommunicationsCount (port Example.oneRpcResolved) = 0).
Proof.
  assert (reachable Scenario.imports Example.oneRpcResolved) as Hreach.
  { exists Scenario.backendInterface, None, None,
      [CallRpc "add" (Scenario.addParameter 2 3) None;
       Received (ServerToClientMessage.rpcResult 0 (VNum 5))].
    reflexivity. }
  split; [exact Hreach|].
  exact (edges_alternate Scenario.imports Example.oneRpcResolved Hreach).
Defined.


Lemma channel_end_witness :
  reachable Scenario.imports Scenario.twoRpcsOneChannel
  ∧ JsMap.get 2 (openChannels (port Scenario.twoRpcsOneChannel))
    = Some (Example.chatChannel 2)
  ∧ JsMap.get 2
      (openChannels
         (port (receivedMessage Scenario.imports (ServerToClientMessage.channelClose 2)
                  Scenario.twoRpcsOneChannel).2))
    = None
  ∧ S (openCommunicationsCount
         (port (receivedMessage Scenario.imports (ServerToClientMessage.channelClose 2)
                  Scenario.twoRpcsOneChannel).2))
    = openCommunicationsCount (port Scenario.twoRpcsOneChannel).
Proof.
  assert (reachable Scenario.imports Scenario.twoRpcsOneChannel) as Hreach.
  { exists Scenario.backendInterface, None, None,
      [CallRpc "add" (Scenario.addParameter 2 3) None;
       CallRpc "add" (Scenario.addParameter 4 5) None;
       CreateChannel "chat" (VStr "hello") None None].
    reflexivity. }
  assert (JsMap.get 2 (openChannels (port Scenario.twoRpcsOneChannel))
          = Some (Example.chatChannel 2)) as Hget by (vm_compute; reflexivity).
  split; [exact Hreach|]. split; [exact Hget|].
  destruct (channel_end Scenario.imports Scenario.twoRpcsOneChannel 2 (Example.chatChannel 2)
              (ServerToClientMessage.channelClose 2) (ChannelClosed 2) Hreach Hget
              (or_introl (conj eq_refl eq_refl)))
    as (_ & _ & _ & Hgone & _ & Hcount & _).
  split; [exact Hgone | exact Hcount].
Defined.

Lemma rpc_error_round_trip_witness :
  reachable Scenario.imports Scenario.fresh
  ∧ BackendInterface.getRpcEndpoint "add" (backendInterface (port Scenario.fresh))
    = Some Scenario.addEndpoint
  ∧ RpcEndpoint.parameter Scenario.addEndpoint (Scenario.addParameter 2 3)
    = ParseSuccess (Scenario.addParameter 2 3)
  ∧ effects (receivedMessage Scenario.imports (ServerToClientMessage.rpcError 0 (VStr "boom"))
               Scenario.oneRpc).2
    = effects Scenario.oneRpc
      ++ [Reject 0 (DeserializedError (VStr "boom") ""); OnHavingNoOpenCommunication].
Proof.
  assert (reachable Scenario.imports Scenario.fresh) as Hreach.
  { exists Scenario.backendInterface, None, None, []. reflexivity. }
  assert (BackendInterface.getRpcEndpoint "add" (backendInterface (port Scenario.fresh))
          = Some Scenario.addEndpoint) as He by (vm_compute; reflexivity).
  assert (RpcEndpoint.parameter Scenario.addEndpoint (Scenario.addParameter 2 3)
          = ParseSuccess (Scenario.addParameter 2 3)) as Hp by (vm_compute; reflexivity).
  split; [exact Hreach|]. split; [exact He|]. split; [exact Hp|].
  assert (is_Some (JsMap.get 0 (ongoingRpcs (port Scenario.oneRpc)))) as Hin
    by (exists (Scenario.addRpc 0); vm_compute; reflexivity).
  exact (proj1 (proj2
           (rpc_error_round_trip Scenario.imports Scenario.fresh "add"
              (Scenario.addParameter 2 3) None Scenario.addEndpoint
              (Scenario.addParameter 2 3) Hreach He Hp [] (VStr "boom") Hin))).
Defined.

Lemma subscription_end_witness :
  reachable Scenario.imports Scenario.counterSubscribed
  ∧ JsMap.get 0 (openSignalSubscriptions (port Scenario.counterSubscribed))
    = Some Scenario.counterSubscription
  ∧ effects (receivedMessage Scenario.imports
               (ServerToClientMessage.signalError 0 (VStr "gone"))
               Scenario.counterSubscribed).2
    = effects Scenario.counterSubscribed
      ++ [SignalErrorListener 0 (DeserializedError (VStr "gone") "");
          OnHavingNoOpenCommunication]
  ∧ JsMap.get 0
      (openSignalSubscriptions
         (port (receivedMessage Scenario.imports
                  (ServerToClientMessage.signalError 0 (VStr "gone"))
                  Scenario.counterSubscribed).2))
    = None.
Proof.
  assert (reachable Scenario.imports Scenario.counterSubscribed) as Hreach.
  { exists Scenario.backendInterface, None, None,
      [CreateSignal "counter" (VStr "c") None; Subscribe 0].
    reflexivity. }
  assert (JsMap.get 0 (openSignalSubscriptions (port Scenario.counterSubscribed))
          = Some Scenario.counterSubscription) as Hget by (vm_compute; reflexivity).
  split; [exact Hreach|]. split; [exact Hget|].
  destruct (proj1 (subscription_end Scenario.imports Scenario.counterSubscribed 0
                     Scenario.counterSubscription (VStr "gone") Hreach) Hget)
    as (_ & Heffects & _ & Hgone & _).
  split; [exact Heffects | exact Hgone].
Defined.

Lemma creation_fails_clean_witness :
  (createChannel Scenario.imports "add" (VStr "hello") None None Scenario.fresh).1
  = Throw (JsError "No channel endpoint with name add")
  ∧ (createChannel Scenario.imports "add" (VStr "hello") None None Scenario.fresh).2
    = Scenario.fresh
  ∧ (createSignal Scenario.imports "counter" (VNum 1) None Scenario.fresh).1
    = Throw (ZodError "Expected string")
  ∧ (createSignal Scenario.imports "counter" (VNum 1) None Scenario.fresh).2
    = Scenario.fresh.
Proof.
  assert ((createChannel Scenario.imports "add" (VStr "hello") None None Scenario.fresh).1
          = Throw (JsError "No channel endpoint with name add")) as Hchannel
    by (vm_compute; reflexivity).
  assert ((createSignal Scenario.imports "counter" (VNum 1) None Scenario.fresh).1
          = Throw (ZodError "Expected string")) as Hsignal by (vm_compute; reflexivity).
  split; [exact Hchannel|].
  split; [exact (proj1 (proj1 (creation_fails_clean Scenario.imports Scenario.fresh "add"
                                 (VStr "hello") None None _) Hchannel))|].
  split; [exact Hsignal|].
  exact (proj1 (proj1 (proj2 (creation_fails_clean Scenario.imports Scenario.fresh "counter"
                                (VNum 1) None None _)) Hsignal)).
Defined.

Lemma receivedMessage_contained_witness :
  thrownOn Scenario.imports
    (ServerToClientMessage.signalUpdate 0
       [{| Patch.op := OpReplace; Patch.path := [Key "a"; Key "b"];
           Patch.value := Some VNull |}] [])
    Scenario.counterSubscribed
  = Some (JsError "[Immer] Cannot apply patch, path doesn't resolve")
  ∧ (receivedMessage Scenario.imports
       (ServerToClientMessage.signalUpdate 0
          [{| Patch.op := OpReplace; Patch.path := [Key "a"; Key "b"];
              Patch.value := Some VNull |}] [])
       Scenario.counterSubscribed).1
    = Throw (JsError "[Immer] Cannot apply patch, path doesn't resolve")
  ∧ (receivedMessage Scenario.imports
       (ServerToClientMessage.signalUpdate 0
          [{| Patch.op := OpReplace; Patch.path := [Key "a"; Key "b"];
              Patch.value := Some VNull |}] [])
       Scenario.counterSubscribed).2
    = Scenario.counterSubscribed
  ∧ (receivedMessage Scenario.imports (ServerToClientMessage.channelAck 7 1)
       Scenario.counterSubscribed).1
    = Normal tt.
Proof.
  assert (thrownOn Scenario.imports
            (ServerToClientMessage.signalUpdate 0
               [{| Patch.op := OpReplace; Patch.path := [Key "a"; Key "b"];
                   Patch.value := Some VNull |}] [])
            Scenario.counterSubscribed
          = Some (JsError "[Immer] Cannot apply patch, path doesn't resolve")) as Hthrown
    by (vm_compute; reflexivity).
  split; [exact Hthrown|].
  destruct (receivedMessage_contained Scenario.imports
              (ServerToClientMessage.signalUpdate 0
                 [{| Patch.op := OpReplace; Patch.path := [Key "a"; Key "b"];
                     Patch.value := Some VNull |}] [])
              Scenario.counterSubscribed) as (Hresult & Hsame & _).
  rewrite Hthrown in Hresult, Hsame.
  split; [exact Hresult|]. split; [exact (Hsame (ex_intro _ _ eq_refl))|].
  exact (proj1 (receivedMessage_contained Scenario.imports
                  (ServerToClientMessage.channelAck 7 1) Scenario.counterSubscribed)).
Defined.

Lemma resolved_once_witness :
  reachable Scenario.imports Example.oneRpcResolved
  ∧ omap resolvedPromise (effects Example.oneRpcResolved) = [0]
  ∧ NoDup (omap resolvedPromise (effects Example.oneRpcResolved))
  ∧ JsMap.get 0 (ongoingRpcs (port Example.oneRpcResolved)) = None.
Proof.
  assert (reachable Scenario.imports Example.oneRpcResolved) as Hreach.
  { exists Scenario.backendInterface, None, None,
      [CallRpc "add" (Scenario.addParameter 2 3) None;
       Received (ServerToClientMessage.rpcResult 0 (VNum 5))].
    reflexivity. }
  assert (omap resolvedPromise (effects Example.oneRpcResolved) = [0]) as Hresolved
    by (vm_compute; reflexivity).
  split; [exact Hreach|]. split; [exact Hresolved|].
  destruct (resolved_once Scenario.imports Example.oneRpcResolved Hreach) as [Hnd Hgone].
  split; [exact Hnd|]. apply Hgone. rewrite Hresolved. by left.
Defined.



Lemma registry_lookup_witness :
  ∃ b, chain Example.registrations BackendInterface.new = inr b
       ∧ BackendInterface.getChannelEndpoint "chat" b = Some Example.chatEndpoint
       ∧ BackendInterface.getRpcEndpoint "chat" b = None
       ∧ BackendInterface.getSignalEndpoint "chat" b = None.
Proof.
  eexists. split; [vm_compute; reflexivity|].
  refine (proj1 (proj2 (registry_lookup Example.registrations _ _)) 
            (RegisterChannel "chat" Scenario.zString Scenario.zString Scenario.zString) _).
  - vm_compute. reflexivity.
  - unfold Example.registrations. by repeat constructor.
Defined.

Lemma registry_chain_outcome_witness :
  chain [RegisterRpc "echo" Scenario.zString Scenario.zString;
         RegisterSignal "echo" Scenario.zString Scenario.zString] BackendInterface.new
  = inl (JsError "Endpoint with name echo already exists")
  ∧ ¬ ∃ b, chain [RegisterRpc "echo" Scenario.zString Scenario.zString;
                  RegisterSignal "echo" Scenario.zString Scenario.zString]
             BackendInterface.new = inr b.
Proof.
  split; [vm_compute; reflexivity|].
  intros Hb.
  apply (proj1 (registry_chain_outcome
                  [RegisterRpc "echo" Scenario.zString Scenario.zString;
                   RegisterSignal "echo" Scenario.zString Scenario.zString])) in Hb.
  revert Hb. apply (bool_decide_unpack _). vm_compute. reflexivity.
Defined.

Lemma handler_set_once_witness :
  Handlers.rpcHandlers (Handlers.afterAll Example.echoHandled Handlers.new) !! "echo"
  = Some 1
  ∧ Handlers.rpcHandlers
      (Handlers.afterAll
         [Handlers.HandleRpcEndpoint "echo" 2;
          Handlers.AddRpcEndpoint "echo" Scenario.zInt Scenario.zInt]
         (Handlers.afterAll Example.echoHandled Handlers.new)) !! "echo"
    = Some 1.
Proof.
  assert (Handlers.rpcHandlers (Handlers.afterAll Example.echoHandled Handlers.new) !! "echo"
          = Some 1) as Hset by (vm_compute; reflexivity).
  split; [exact Hset|].
  exact (proj1 (proj2 (proj1 (handler_set_once Example.echoHandled
                                [Handlers.HandleRpcEndpoint "echo" 2;
                                 Handlers.AddRpcEndpoint "echo" Scenario.zInt Scenario.zInt]
                                "echo" 1 2) Hset))).
Defined.

Lemma setter_patches_tell_the_change_witness :
  (∀ oldData value,
     applyPatches Scenario.imports oldData (Setter.makeRootReplacingPatches value)
     = inr value)
  ∧ (∀ oldData producer,
       applyPatches Scenario.imports oldData (Example.produceWithPatches oldData producer).2
       = inr (Example.produceWithPatches oldData producer).1)
  ∧ Setter.set
      (Setter.makeSetterWithPatches Scenario.imports Example.produceWithPatches Setter.called
         (Some (λ _, [TagStr "mine"])))
      (VNum 1) (Some [TagNum 7])
    = (λ _, inr (VNum 1, [Scenario.replaceRoot (VNum 1)]), [TagStr "mine"; TagNum 7])
  ∧ (Setter.set
       (Setter.makeSetterWithPatches Scenario.imports Example.produceWithPatches
          Setter.called (Some (λ _, [TagStr "mine"])))
       (VNum 1) (Some [TagNum 7])).2
    = [TagStr "mine"; TagNum 7].
Proof.
  assert (∀ oldData value,
            applyPatches Scenario.imports oldData (Setter.makeRootReplacingPatches value)
            = inr value) as Hroot by reflexivity.
  assert (∀ oldData producer,
            applyPatches Scenario.imports oldData
              (Example.produceWithPatches oldData producer).2
            = inr (Example.produceWithPatches oldData producer).1) as Hproduce
    by reflexivity.
  split; [exact Hroot|]. split; [exact Hproduce|]. split; [reflexivity|].
  exact (proj1 (proj1 (setter_patches_tell_the_change Scenario.imports
                         Example.produceWithPatches (Some (λ _, [TagStr "mine"]))
                         (Some [TagNum 7]) Hroot Hproduce) (VNum 1) VNull)).
Defined.

(** ** An RPC from call to reply, with the transport errors between *)

(** A step adds no call of a [resolve] or [reject], or it is a transport
    error, or it settles the promise of the one record it removes. *)
Lemma step_settled imports w o :
  Inv w →
  ∃ es, effects (step imports w o) = effects w ++ es
        ∧ ((∃ error, o = Errored error)
           ∨ omap settledPromise es = []
           ∨ ∃ k, is_Some (JsMap.get k (ongoingRpcs (port w)))
                  ∧ omap settledPromise es = [k]
                  ∧ ongoingRpcs (port (step imports w o))
                    = JsMap.delete k (ongoingRpcs (port w))).
Proof.
  intros [[[_ _ _ _ Hprom] _ _] _].
  unfold step. destruct o as [[]| | | | | | | | |]; unfold perform_operation.
  all: try (eexists; split; [|left; eauto]; run_method; run_cases; simpl;
            unfold logged; simpl; reflexivity).
  all: run_method; run_cases; simpl.
  all: first [ exists []; split; [by rewrite app_nil_r | right; by left]
             | rewrite <- ?app_assoc; eexists; (split; [reflexivity|]); simpl;
               rewrite ?omap_countEdge, ?omap_warningEffects by done;
               first [ right; by left
                     | right; right; eexists; split_and!; [by eauto | | reflexivity];
                       simpl; f_equal; by eapply Hprom ] ].
Qed.

(** While a call stays in the table and the transport reports no error, no
    [resolve] or [reject] of its promise is called. *)
Lemma unsettled_step imports w o k :
  Inv w → (∀ error, o ≠ Errored error) →
  is_Some (JsMap.get k (ongoingRpcs (port (step imports w o)))) →
  omap (settles k) (effects (step imports w o)) = omap (settles k) (effects w).
Proof.
  intros HI Hno Hin. pose proof HI as [[[_ [Hnd _] _ _ _] _ _] _].
  destruct (step_settled imports w o HI) as (es & Hes & [[error ->] | [Hnone | Hone]]).
  - by destruct (Hno error).
  - rewrite Hes, omap_app, (unsettled es k), app_nil_r; [done|].
    rewrite Hnone. intros q Hq. by apply elem_of_nil in Hq.
  - destruct Hone as (k' & _ & Hk' & Hdelete).
    rewrite Hes, omap_app, (unsettled es k), app_nil_r; [done|].
    rewrite Hk'. intros q ->%list_elem_of_singleton ->.
    rewrite Hdelete, get_delete_eq in Hin by done. by destruct Hin.
Qed.

Lemma unsettled_run imports os w k :
  Inv w → (∀ error, Errored error ∉ os) → k < nextChannelId (port w) →
  is_Some (JsMap.get k (ongoingRpcs (port (run imports os w)))) →
  omap (settles k) (effects (run imports os w)) = omap (settles k) (effects w).
Proof.
  revert w. induction os as [|o os IH]; intros w HI Hno Hk Hin; [done|]. simpl in *.
  pose proof (step_nextChannelId imports w o) as Hnext.
  rewrite IH; [| by apply step_Inv | | lia | done].
  - apply unsettled_step; [done | |].
    + intros error ->. apply (Hno error). by left.
    + destruct Hin as [r Hr]. exists r.
      apply (rpc_stable_run imports os (step imports w o)); [by apply step_Inv | lia | done].
  - intros error Hin'. apply (Hno error). by right.
Qed.

(** A promise that settled as fulfilled had its [resolve] called. *)
Lemma fulfilled_resolved (es : list Effect) q result :
  settlement q es = Some (Fulfilled result) → q ∈ omap resolvedPromise es.
Proof.
  unfold settlement. induction es as [|e es IH]; [done|]. csimpl.
  destruct e; simpl; try done.
  - destruct (promise =? q) eqn:E.
    + apply Nat.eqb_eq in E as ->. intros _. by left.
    + intros H. right. by apply IH.
  - destruct (promise =? q) eqn:E; [done|]. apply IH.
Qed.

(** C2, as the code has it: a [callRpc] on a registered endpoint with a
    parameter its parameter schema accepts sends exactly one [rpcCall] frame,
    carrying a fresh [callId] and the validated parameter, while its promise
    is still unsettled, and installs the [OngoingRpc] record; no other
    [rpcCall] frame ever carries that [callId]; whenever later in the life of
    the port that [callId] is still in the table and an [rpcResult] arrives
    for it with a result the endpoint's returns schema accepts, [resolve] is
    called with the validated result, the record is removed and the
    open-communications count goes down by one.  That call fulfils the
    promise with the validated result if the promise was unsettled, which it
    is whenever the transport reported no error since the call; a promise
    found settled was rejected (by [errored], which leaves the record in the
    table) and stays rejected. *)
Theorem C2_rpc_round_trip imports w endpointName param stack endpoint parameter :
  reachable imports w →
  BackendInterface.getRpcEndpoint endpointName (backendInterface (port w)) = Some endpoint →
  RpcEndpoint.parameter endpoint param = ParseSuccess parameter →
  let callId := nextChannelId (port w) in
  ∃ w1,
    callRpc imports endpointName param stack w = (Normal callId, w1)
    ∧ (∃ edge,
         effects w1
         = effects w
           ++ (TransportSend (ClientToServerMessage.rpcCall endpointName callId parameter)
               :: edge)
         ∧ omap allocatedCallId edge = [])
    ∧ (callId ∉ omap allocatedCallId (effects w))
    ∧ settlement callId (effects w1) = None
    ∧ (∃ rpc, JsMap.get callId (ongoingRpcs (port w1)) = Some rpc
              ∧ OngoingRpc.endpoint rpc = endpoint)
    ∧ S (openCommunicationsCount (port w)) = openCommunicationsCount (port w1)
    ∧ (∀ os, callId ∈ omap allocatedCallId (effects (run imports os w1))
             ∧ NoDup (omap allocatedCallId (effects (run imports os w1))))
    ∧ ∀ os result data,
        let w2 := run imports os w1 in
        let frame := ServerToClientMessage.rpcResult callId result in
        let w3 := (receivedMessage imports frame w2).2 in
        is_Some (JsMap.get callId (ongoingRpcs (port w2))) →
        RpcEndpoint.returns endpoint result = ParseSuccess data →
        (receivedMessage imports frame w2).1 = Normal tt
        ∧ (∃ edge, effects w3 = effects w2 ++ (Resolve callId data :: edge)
                   ∧ omap settledPromise edge = [])
        ∧ (settlement callId (effects w2) = None →
           settlement callId (effects w3) = Some (Fulfilled data))
        ∧ ((∀ error, Errored error ∉ os) → settlement callId (effects w2) = None)
        ∧ (∀ settled, settlement callId (effects w2) = Some settled →
                      (∃ error, settled = Rejected error)
                      ∧ settlement callId (effects w3) = Some settled)
        ∧ JsMap.get callId (ongoingRpcs (port w3)) = None
        ∧ S (openCommunicationsCount (port w3)) = openCommunicationsCount (port w2).
Proof.
  intros Hreach He Hp callId.
  pose proof (reachable_Inv _ _ Hreach) as HI. pose proof HI as [[Ht Hl Hc] Hcount].
  eexists. split; [by apply callRpc_run|].
  set (w1 := recounted _).
  assert (reachable imports w1) as Hreach1.
  { pose proof (reachable_step imports w (CallRpc endpointName param stack) Hreach) as H.
    unfold step in H. simpl in H. unfold discard, bind in H.
    erewrite callRpc_run in H by done. exact H. }
  pose proof (reachable_Inv _ _ Hreach1) as HI1.
  assert (JsMap.get callId (ongoingRpcs (port w)) = None) as Hfresh
    by (destruct Ht; by apply allocatedBelow_fresh).
  assert (omap (settles callId) (effects w1) = []) as Hunsettled.
  { rewrite unsettled; [done|]. intros q Hq. subst w1. simpl in Hq.
    rewrite !omap_app, omap_countEdge in Hq by done. simpl in Hq.
    rewrite !app_nil_r in Hq. destruct Hl as [_ _ _ _ Hbelow].
    specialize (Hbelow q Hq). subst callId. lia. }
  split_and!.
  - eexists. split; [subst w1; simpl; by rewrite <- app_assoc|]. by apply omap_countEdge.
  - intros Hin. apply callId_allocated in Hin. destruct Hl as [_ Hids _ _ _].
    rewrite Hids in Hin. apply list_elem_of_In, in_seq in Hin. subst callId. lia.
  - unfold settlement. by rewrite Hunsettled.
  - eexists. subst w1. simpl. by rewrite get_set_eq.
  - subst w1. simpl. rewrite Hcount. unfold tableSizes. simpl.
    rewrite size_set_fresh by done. lia.
  - intros os. split.
    + destruct (run_effects imports os w1) as [es ->]. rewrite omap_app.
      apply elem_of_app. left. subst w1. simpl. rewrite !omap_app. simpl.
      apply elem_of_app. left. apply elem_of_app. right. by left.
    + apply callIds_NoDup.
      pose proof (run_Inv imports os w1 HI1) as [[_ [_ Hids _ _ _] _] _].
      rewrite Hids. apply NoDup_seq.
  - intros os result data w2 frame w3 [rpc Hget] Hreturns.
    assert (Inv w2) as HI2 by by apply run_Inv.
    assert (reachable imports w2) as Hreach2 by by apply reachable_run.
    pose proof HI2 as [[Ht2 Hl2 Hc2] Hcount2].
    assert (OngoingRpc.endpoint rpc = endpoint ∧ OngoingRpc.promise rpc = callId)
      as [Hendpoint Hpromise].
    { apply (rpc_stable_run imports os w1) in Hget; [|done|subst w1; simpl; lia].
      subst w1. simpl in Hget. rewrite get_set_eq in Hget. by injection Hget as <-. }
    assert (receivedMessage imports frame w2
            = (Normal tt,
               recounted
                 {| port := setOngoingRpcs (JsMap.delete callId (ongoingRpcs (port w2)))
                              (port w2);
                    effects := effects w2 ++ [Resolve callId data];
                    signals := signals w2 |})) as Hrun.
    { subst frame. run_method. rewrite Hget. rewrite Hendpoint, Hreturns. simpl.
      by rewrite updateOpenCommunicationsCount_run, Hpromise. }
    subst w3. rewrite Hrun. simpl. split_and!.
    + done.
    + eexists. split; [by rewrite <- app_assoc|]. by apply omap_countEdge.
    + unfold settlement. rewrite !omap_app. simpl. rewrite Nat.eqb_refl. simpl.
      destruct (omap (settles callId) (effects w2)); done.
    + intros Hno. unfold settlement. subst w2.
      rewrite (unsettled_run imports os w1 callId), Hunsettled; [done..| |by eauto].
      subst w1. simpl. lia.
    + intros settled Hsettled. split.
      * destruct settled as [value|error]; [|by eauto].
        apply fulfilled_resolved in Hsettled.
        rewrite (resolved_gone imports w2 callId Hreach2 Hsettled) in Hget. done.
      * unfold settlement in *. rewrite !omap_app.
        destruct (omap (settles callId) (effects w2)); [done|]. exact Hsettled.
    + destruct Ht2 as [_ [Hnd _] _ _ _]. by apply get_delete_eq.
    + rewrite Hcount2. unfold tableSizes. simpl.
      pose proof (size_delete _ _ _ Hget). lia.
Qed.

(** C2 as stated fails: an RPC is called (S1), the transport reports an
    error, which rejects the promise and leaves the record in the table, and
    then the result arrives for that [callId] and passes the returns schema:
    [resolve] is called on a promise that is already rejected, so the future
    stays rejected with the transport's error and does not resolve with the
    validated result. *)
Lemma C2_counterexample :
  let w := run Scenario.imports [Errored (JsError "E")] Scenario.oneRpc in
  let w' := (receivedMessage Scenario.imports
               (ServerToClientMessage.rpcResult 0 (VNum 5)) w).2 in
  JsMap.get 0 (ongoingRpcs (port w)) = Some (Scenario.addRpc 0)
  ∧ RpcEndpoint.returns Scenario.addEndpoint (VNum 5) = ParseSuccess (VNum 5)
  ∧ effects w
    = [TransportSend (ClientToServerMessage.rpcCall "add" 0 (Scenario.addParameter 2 3));
       OnHavingOneOrMoreOpenCommunication;
       Reject 0 (JsError "E")]
  ∧ effects w' = effects w ++ [Resolve 0 (VNum 5); OnHavingNoOpenCommunication]
  ∧ settlement 0 (effects w') = Some (Rejected (JsError "E"))
  ∧ settlement 0 (effects w') ≠ Some (Fulfilled (VNum 5)).
Proof.
  cbv zeta. split_and!; [vm_compute; reflexivity.. |]. vm_compute. discriminate.
Qed.

Lemma C2_witness :
  reachable Scenario.imports Scenario.fresh
  ∧ BackendInterface.getRpcEndpoint "add" (backendInterface (port Scenario.fresh))
    = Some Scenario.addEndpoint
  ∧ RpcEndpoint.parameter Scenario.addEndpoint (Scenario.addParameter 2 3)
    = ParseSuccess (Scenario.addParameter 2 3)
  ∧ ∃ w1,
      callRpc Scenario.imports "add" (Scenario.addParameter 2 3) None Scenario.fresh
      = (Normal 0, w1)
      ∧ settlement 0
          (effects (receivedMessage Scenario.imports
                      (ServerToClientMessage.rpcResult 0 (VNum 5)) w1).2)
        = Some (Fulfilled (VNum 5))
      ∧ JsMap.get 0
          (ongoingRpcs
             (port (receivedMessage Scenario.imports
                      (ServerToClientMessage.rpcResult 0 (VNum 5)) w1).2))
        = None.
Proof.
  assert (reachable Scenario.imports Scenario.fresh) as Hreach.
  { exists Scenario.backendInterface, None, None, []. reflexivity. }
  assert (BackendInterface.getRpcEndpoint "add" (backendInterface (port Scenario.fresh))
          = Some Scenario.addEndpoint) as He by (vm_compute; reflexivity).
  assert (RpcEndpoint.parameter Scenario.addEndpoint (Scenario.addParameter 2 3)
          = ParseSuccess (Scenario.addParameter 2 3)) as Hp by (vm_compute; reflexivity).
  split; [exact Hreach|]. split; [exact He|]. split; [exact Hp|].
  destruct (C2_rpc_round_trip Scenario.imports Scenario.fresh "add"
              (Scenario.addParameter 2 3) None Scenario.addEndpoint
              (Scenario.addParameter 2 3) Hreach He Hp)
    as (w1 & Hrun & _ & _ & _ & (rpc & Hrpc & _) & _ & _ & Hlater).
  exists w1. split; [exact Hrun|].
  destruct (Hlater [] (VNum 5) (VNum 5) (ex_intro _ rpc Hrpc) eq_refl)
    as (_ & _ & Hsettled & Hquiet & _ & Hgone & _).
  split; [|exact Hgone]. apply Hsettled, Hquiet.
  intros error Hin. by apply elem_of_nil in Hin.
Defined.
